(** * A shallow embedding of the intersection traffic simulation

    The Python program [main.py] has three classes: [TrafficLight] (a
    fixed-cycle signal), [Vehicle] (speed and position update rules) and
    [Intersection] (the per-tick loop with its statistics).  This file
    translates them into Rocq functions and proves properties of them.

    Conventions of the embedding.
    - Python numbers that may be floats (speeds, positions, distances,
      timestamps, running averages) are exact rationals [Q]; the equality of
      two such numbers is [Qeq], written [==].  Tick counters and the
      statistics counters are Python ints, here [Z].
    - The strings that the program uses as enumerations (light states,
      travel directions, turn intents) are inductive types.
    - [np.random.*] and [time.time()] are inputs: every function that draws
      a random number or reads the clock takes the value it obtains as an
      argument ([TickEnv] collects them for one call of
      [Intersection.update]).
    - A Python exception ([TypeError] on a [None] position,
      [ZeroDivisionError], [IndexError]) is the result [None].

    The second file of the repository, [test3.py], is an unfinished draft
    of the same classes (its [Intersection] is empty); the embedding
    follows [main.py], and the two methods of the draft that differ are
    embedded in the module [Draft]. *)

From Stdlib Require Import QArith Qround Qminmax Qabs Lqa ZArith Lia List Bool.
From Stdlib Require Import Permutation Sorted.
Import ListNotations.

Open Scope Q_scope.

(** ** Python arithmetic on rationals *)

Definition Qltb (x y : Q) : bool := negb (Qle_bool y x).

(** [min(a, b)] returns [a] unless [b < a]; [max(a, b)] returns [a] unless
    [b > a]. *)
Definition py_min (a b : Q) : Q := if Qltb b a then b else a.
Definition py_max (a b : Q) : Q := if Qltb a b then b else a.

(** [int(x)] truncates toward zero. *)
Definition py_int (x : Q) : Z := Z.quot (Qnum x) (Zpos (Qden x)).

(** [a // 2] for a number [a]. *)
Definition floordiv2 (a : Q) : Q := inject_Z (Qfloor (a / 2)).

(** ** TrafficLight *)

Inductive LightState := green | yellow | red.

Record TrafficLight := mkLight {
  cycle : Z;
  green_duration : Z;
  yellow_duration : Z;
  red_duration : Z;
  state : LightState;
  timer : Z
}.

Module TrafficLight.

(** [TrafficLight.__init__(cycle, green_ratio)] *)
Definition init (cycle : Z) (green_ratio : Q) : TrafficLight :=
  let green_duration := py_int (inject_Z cycle * green_ratio) in
  let yellow_duration := 3%Z in
  {| cycle := cycle;
     green_duration := green_duration;
     yellow_duration := yellow_duration;
     red_duration := (cycle - green_duration - yellow_duration)%Z;
     state := green;
     timer := 0%Z |}.

Definition set_state (l : TrafficLight) (s : LightState) : TrafficLight :=
  {| cycle := cycle l; green_duration := green_duration l;
     yellow_duration := yellow_duration l; red_duration := red_duration l;
     state := s; timer := timer l |}.

Definition switch (l : TrafficLight) (s : LightState) : TrafficLight :=
  {| cycle := cycle l; green_duration := green_duration l;
     yellow_duration := yellow_duration l; red_duration := red_duration l;
     state := s; timer := 0%Z |}.

Definition tick (l : TrafficLight) : TrafficLight :=
  {| cycle := cycle l; green_duration := green_duration l;
     yellow_duration := yellow_duration l; red_duration := red_duration l;
     state := state l; timer := (timer l + 1)%Z |}.

(** [TrafficLight.update(step)]: the argument [step] is not used. *)
Definition update (l : TrafficLight) : TrafficLight :=
  let l1 := tick l in
  match state l1 with
  | green =>
      if (green_duration l1 <=? timer l1)%Z then switch l1 yellow else l1
  | yellow =>
      if (yellow_duration l1 <=? timer l1)%Z then switch l1 red else l1
  | red =>
      if (red_duration l1 <=? timer l1)%Z then switch l1 green else l1
  end.

Definition get_state (l : TrafficLight) : LightState := state l.

Definition get_remaining_time (l : TrafficLight) : Z :=
  match state l with
  | green => (green_duration l - timer l)%Z
  | yellow => (yellow_duration l - timer l)%Z
  | red => (red_duration l - timer l)%Z
  end.

(** [n] successive calls of [update]. *)
Fixpoint updates (n : nat) (l : TrafficLight) : TrafficLight :=
  match n with
  | O => l
  | S k => update (updates k l)
  end.

End TrafficLight.

(** ** Vehicle *)

Inductive Direction := north | south | east | west.

(** The turn intents "straight", "left" and "right" ([left] and [right]
    are taken by the standard library). *)
Inductive Turn := straight | turn_left | turn_right.

Definition Direction_eqb (a b : Direction) : bool :=
  match a, b with
  | north, north | south, south | east, east | west, west => true
  | _, _ => false
  end.

Record Vehicle := mkVehicle {
  id : Z;
  direction : Direction;
  max_speed : Q;
  speed : Q;
  acceleration : Q;
  deceleration : Q;
  position : option (Q * Q);
  path : list (Q * Q * Q);
  wait_time : Z;
  entry_time : Q;
  exit_time : option Q;
  target_direction : Turn
}.

Module Vehicle.

Definition set_speed (v : Vehicle) (s : Q) : Vehicle :=
  mkVehicle (id v) (direction v) (max_speed v) s (acceleration v)
    (deceleration v) (position v) (path v) (wait_time v) (entry_time v)
    (exit_time v) (target_direction v).

Definition set_position (v : Vehicle) (p : option (Q * Q)) : Vehicle :=
  mkVehicle (id v) (direction v) (max_speed v) (speed v) (acceleration v)
    (deceleration v) p (path v) (wait_time v) (entry_time v)
    (exit_time v) (target_direction v).

Definition set_path (v : Vehicle) (p : list (Q * Q * Q)) : Vehicle :=
  mkVehicle (id v) (direction v) (max_speed v) (speed v) (acceleration v)
    (deceleration v) (position v) p (wait_time v) (entry_time v)
    (exit_time v) (target_direction v).

Definition set_wait_time (v : Vehicle) (w : Z) : Vehicle :=
  mkVehicle (id v) (direction v) (max_speed v) (speed v) (acceleration v)
    (deceleration v) (position v) (path v) w (entry_time v)
    (exit_time v) (target_direction v).

Definition set_exit_time (v : Vehicle) (t : option Q) : Vehicle :=
  mkVehicle (id v) (direction v) (max_speed v) (speed v) (acceleration v)
    (deceleration v) (position v) (path v) (wait_time v) (entry_time v)
    t (target_direction v).

(** [Vehicle._get_target_direction()], with [r] the random draw. *)
Definition _get_target_direction (r : Q) : Turn :=
  if Qltb r 0.6 then straight
  else if Qltb r 0.85 then turn_left
  else turn_right.

(** [Vehicle.__init__(direction, max_speed, acceleration, deceleration)].
    [next_id] is the value of the class attribute [Vehicle.next_id] (the
    caller stores [next_id + 1] back), [now] the clock and [r] the random
    draw of [_get_target_direction]. *)
Definition init (next_id : Z) (direction : Direction)
    (max_speed acceleration deceleration : Q) (now r : Q) : Vehicle :=
  {| id := next_id;
     direction := direction;
     max_speed := max_speed;
     speed := 0;
     acceleration := acceleration;
     deceleration := deceleration;
     position := None;
     path := [];
     wait_time := 0%Z;
     entry_time := now;
     exit_time := None;
     target_direction := _get_target_direction r |}.

(** Step 1 of [update_speed]: acceleration. *)
Definition accelerate (self : Vehicle) : Q :=
  if Qltb (speed self) (max_speed self)
  then py_min (speed self + acceleration self) (max_speed self)
  else speed self.

(** [safe_distance], computed from the speed after step 1. *)
Definition safe_distance (s1 : Q) : Q := py_max 2 (s1 * 1.5).

(** Step 2 of [update_speed]: the car-following clamp. *)
Definition follow (s1 : Q) (front_vehicle_dist : option Q) : Q :=
  match front_vehicle_dist with
  | Some d =>
      if Qltb d (safe_distance s1) then py_max 0 (py_min s1 (d - 1)) else s1
  | None => s1
  end.

(** Step 3 of [update_speed]: braking before a red or yellow light.  The
    division by [2 * deceleration] raises [ZeroDivisionError] when the
    divisor is zero. *)
Definition brake (s1 s2 decel : Q) (light_state : LightState)
    (light_dist : Q) : option Q :=
  match light_state with
  | green => Some s2
  | red | yellow =>
      if Qltb light_dist (safe_distance s1 * 2) then
        if Qeq_bool (2 * decel) 0 then None
        else
          let decel_distance := s2 ^ 2 / (2 * decel) in
          if Qltb light_dist decel_distance
          then Some (py_max 0 (s2 - decel))
          else Some s2
      else Some s2
  end.

(** Step 4 of [update_speed]: the random fluctuation, [r] being the draw. *)
Definition fluctuate (s3 r : Q) : Q :=
  if Qltb r 0.1 && Qltb 0 s3 then py_max 0 (s3 - 1) else s3.

(** [Vehicle.update_speed(front_vehicle_dist, light_state, light_dist)] *)
Definition update_speed (self : Vehicle) (front_vehicle_dist : option Q)
    (light_state : LightState) (light_dist : Q) (r : Q) : option Vehicle :=
  let s1 := accelerate self in
  let s2 := follow s1 front_vehicle_dist in
  match brake s1 s2 (deceleration self) light_state light_dist with
  | None => None
  | Some s3 => Some (set_speed self (fluctuate s3 r))
  end.

(** [Vehicle.move()], with [now] the clock read for the path sample. *)
Definition move (self : Vehicle) (now : Q) : Vehicle :=
  let self1 :=
    match position self with
    | Some (x, y) =>
        let logged := set_path self (path self ++ [(x, y, now)]) in
        match direction self with
        | north => set_position logged (Some (x, y + speed self))
        | south => set_position logged (Some (x, y - speed self))
        | east => set_position logged (Some (x + speed self, y))
        | west => set_position logged (Some (x - speed self, y))
        end
    | None => self
    end in
  if Qeq_bool (speed self1) 0
  then set_wait_time self1 (wait_time self1 + 1)%Z
  else self1.

End Vehicle.

(** ** Intersection *)

(** [self.stats].  [queue_lengths] is a [defaultdict(list)]: a key that
    was never written reads as the empty list, so it is a total map from
    directions to sample sequences. *)
Record Stats := mkStats {
  total_vehicles : Z;
  avg_wait_time : Q;
  avg_travel_time : Q;
  throughput : Z;
  queue_lengths : Direction -> list Z
}.

Record Intersection := mkIntersection {
  road_length : Q;
  lane_width : Q;
  spawn_rate : Q;
  light_NS : TrafficLight;
  light_EW : TrafficLight;
  vehicles : list Vehicle;
  removed_vehicles : list Vehicle;
  stats : Stats;
  road_boundaries : Direction -> Q * Q;
  intersection_center : Q * Q;
  intersection_size : Q
}.

(** The inputs that one call of [Intersection.update] takes from the
    random generator and from the clock.  The fields indexed by a number
    are the draws made while the loop handles the vehicle at that index. *)
Record TickEnv := mkTickEnv {
  spawn_draw : Q;            (* np.random.random() in spawn_vehicle *)
  choice_draw : Direction;   (* np.random.choice([...]) *)
  uniform_draw : Q;          (* the sample behind np.random.uniform *)
  entry_clock : Q;           (* time.time() in Vehicle.__init__ *)
  turn_draw : Q;             (* np.random.random() in _get_target_direction *)
  noise_draw : nat -> Q;     (* np.random.random() in update_speed *)
  move_clock : nat -> Q;     (* time.time() in move *)
  exit_clock : nat -> Q      (* time.time() when exit_time is set *)
}.

(** The simulation together with the class attribute [Vehicle.next_id]. *)
Record World := mkWorld {
  Vehicle_next_id : Z;
  sim : Intersection
}.

(** *** Lists used as Python lists *)

(** [l[i] = x] for an index in range. *)
Fixpoint list_set {A} (i : nat) (x : A) (l : list A) : list A :=
  match l, i with
  | [], _ => []
  | _ :: t, O => x :: t
  | h :: t, S k => h :: list_set k x t
  end.

(** [l.pop(i)]: the element and the remaining list; [IndexError] when [i]
    is out of range. *)
Fixpoint pop {A} (i : nat) (l : list A) : option (A * list A) :=
  match l, i with
  | [], _ => None
  | h :: t, O => Some (h, t)
  | h :: t, S k =>
      match pop k t with
      | Some (x, t') => Some (x, h :: t')
      | None => None
      end
  end.

(** [sorted(l, reverse=True)] on a list of indices. *)
Fixpoint insert_desc (i : nat) (l : list nat) : list nat :=
  match l with
  | [] => [i]
  | j :: t => if (j <=? i)%nat then i :: l else j :: insert_desc i t
  end.

Fixpoint sorted_reverse (l : list nat) : list nat :=
  match l with
  | [] => []
  | i :: t => insert_desc i (sorted_reverse t)
  end.

(** A [for] loop over a list whose body may raise. *)
Fixpoint for_each {A S} (body : A -> S -> option S) (l : list A) (s : S)
    : option S :=
  match l with
  | [] => Some s
  | a :: t =>
      match body a s with
      | Some s' => for_each body t s'
      | None => None
      end
  end.

Module Intersection.

Definition set_vehicles (self : Intersection) (vs : list Vehicle)
    : Intersection :=
  mkIntersection (road_length self) (lane_width self) (spawn_rate self)
    (light_NS self) (light_EW self) vs (removed_vehicles self) (stats self)
    (road_boundaries self) (intersection_center self)
    (intersection_size self).

Definition set_removed_vehicles (self : Intersection) (vs : list Vehicle)
    : Intersection :=
  mkIntersection (road_length self) (lane_width self) (spawn_rate self)
    (light_NS self) (light_EW self) (vehicles self) vs (stats self)
    (road_boundaries self) (intersection_center self)
    (intersection_size self).

Definition set_stats (self : Intersection) (st : Stats) : Intersection :=
  mkIntersection (road_length self) (lane_width self) (spawn_rate self)
    (light_NS self) (light_EW self) (vehicles self) (removed_vehicles self)
    st (road_boundaries self) (intersection_center self)
    (intersection_size self).

Definition set_lights (self : Intersection) (ns ew : TrafficLight)
    : Intersection :=
  mkIntersection (road_length self) (lane_width self) (spawn_rate self)
    ns ew (vehicles self) (removed_vehicles self) (stats self)
    (road_boundaries self) (intersection_center self)
    (intersection_size self).

(** [Intersection.__init__(road_length, lane_width, spawn_rate)] *)
Definition init (road_length lane_width spawn_rate : Q) : Intersection :=
  let light_NS := TrafficLight.init 60 0.5 in
  let light_EW := TrafficLight.init 60 0.5 in
  let lane :=
    (floordiv2 road_length - floordiv2 lane_width,
     floordiv2 road_length + floordiv2 lane_width) in
  {| road_length := road_length;
     lane_width := lane_width;
     spawn_rate := spawn_rate;
     light_NS := TrafficLight.set_state light_NS green;
     light_EW := TrafficLight.set_state light_EW red;
     vehicles := [];
     removed_vehicles := [];
     stats := {| total_vehicles := 0; avg_wait_time := 0;
                 avg_travel_time := 0; throughput := 0;
                 queue_lengths := fun _ => [] |};
     road_boundaries := fun _ => lane;
     intersection_center := (floordiv2 road_length, floordiv2 road_length);
     intersection_size := lane_width * 1.5 |}.

(** [np.random.uniform(low, high)] is [low + (high - low) * u] for a
    sample [u]. *)
Definition uniform (u low high : Q) : Q := low + (high - low) * u.

(** [Intersection.spawn_vehicle()] *)
Definition spawn_vehicle (env : TickEnv) (w : World) : World :=
  let self := sim w in
  if Qltb (spawn_draw env) (spawn_rate self) then
    let direction := choice_draw env in
    let along d :=
      uniform (uniform_draw env) (fst (road_boundaries self d))
        (snd (road_boundaries self d)) in
    let start_pos :=
      match direction with
      | north => (along north, 0)
      | south => (along south, road_length self)
      | east => (0, along east)
      | west => (road_length self, along west)
      end in
    let vehicle :=
      Vehicle.init (Vehicle_next_id w) direction 5 1 2 (entry_clock env)
        (turn_draw env) in
    let vehicle := Vehicle.set_position vehicle (Some start_pos) in
    let st := stats self in
    {| Vehicle_next_id := (Vehicle_next_id w + 1)%Z;
       sim := set_stats (set_vehicles self (vehicles self ++ [vehicle]))
                (mkStats (total_vehicles st + 1)%Z (avg_wait_time st)
                   (avg_travel_time st) (throughput st) (queue_lengths st))
    |}
  else w.

(** [Intersection.is_in_intersection(pos)] *)
Definition is_in_intersection (self : Intersection) (pos : Q * Q) : bool :=
  let (x, y) := pos in
  let (center_x, center_y) := intersection_center self in
  let size := intersection_size self in
  Qle_bool (center_x - size) x && Qle_bool x (center_x + size)
  && Qle_bool (center_y - size) y && Qle_bool y (center_y + size).

(** [Intersection.get_light_state(direction)] *)
Definition get_light_state (self : Intersection) (d : Direction)
    : LightState :=
  match d with
  | north | south => TrafficLight.get_state (light_NS self)
  | east | west => TrafficLight.get_state (light_EW self)
  end.

(** [Intersection.get_distance_to_light(vehicle)]; unpacking a [None]
    position raises. *)
Definition get_distance_to_light (self : Intersection) (vehicle : Vehicle)
    : option Q :=
  match position vehicle with
  | None => None
  | Some (x, y) =>
      Some match direction vehicle with
           | north => road_length self - y - floordiv2 (road_length self)
           | south => y - floordiv2 (road_length self)
           | east => road_length self - x - floordiv2 (road_length self)
           | west => x - floordiv2 (road_length self)
           end
  end.

(** The loop of [check_collision] over [self.vehicles].  [np.sqrt(d) < 2]
    is [d < 4] for the exact square root. *)
Fixpoint collision_scan (vehicle : Vehicle) (others : list Vehicle)
    : option bool :=
  match others with
  | [] => Some false
  | other :: rest =>
      if negb (id other =? id vehicle)%Z then
        match position vehicle, position other with
        | Some (vx, vy), Some (ox, oy) =>
            if Qltb ((vx - ox) ^ 2 + (vy - oy) ^ 2) 4 then Some true
            else collision_scan vehicle rest
        | _, _ => None
        end
      else collision_scan vehicle rest
  end.

(** [Intersection.check_collision(vehicle)] *)
Definition check_collision (self : Intersection) (vehicle : Vehicle)
    : option bool :=
  collision_scan vehicle (vehicles self).

(** [Intersection.check_exit(vehicle)] *)
Definition check_exit (self : Intersection) (vehicle : Vehicle)
    : option bool :=
  match position vehicle with
  | None => None
  | Some (x, y) =>
      Some match direction vehicle with
           | north => Qltb (road_length self) y
           | south => Qltb y 0
           | east => Qltb (road_length self) x
           | west => Qltb x 0
           end
  end.

(** The loop of [get_front_vehicle_distance]; [min_dist] is [None] for
    [float('inf')]. *)
Fixpoint front_scan (vehicle : Vehicle) (others : list Vehicle)
    (min_dist : option Q) : option (option Q) :=
  match others with
  | [] => Some min_dist
  | other :: rest =>
      if negb (id other =? id vehicle)%Z
         && Direction_eqb (direction other) (direction vehicle) then
        match position vehicle, position other with
        | Some (vx, vy), Some (ox, oy) =>
            let dist :=
              match direction vehicle with
              | north => oy - vy
              | south => vy - oy
              | east => ox - vx
              | west => vx - ox
              end in
            let closer :=
              match min_dist with
              | None => true
              | Some m => Qltb dist m
              end in
            if Qltb 0 dist && closer
            then front_scan vehicle rest (Some dist)
            else front_scan vehicle rest min_dist
        | _, _ => None
        end
      else front_scan vehicle rest min_dist
  end.

(** [Intersection.get_front_vehicle_distance(vehicle)]: [Some None] is
    the returned [None] (no vehicle ahead). *)
Definition get_front_vehicle_distance (self : Intersection)
    (vehicle : Vehicle) : option (option Q) :=
  front_scan vehicle (vehicles self) None.

(** The statistics update of the exit branch of [update]:
    [throughput += 1] followed by the two running means.  The division by
    the new [throughput] raises when it is zero. *)
Definition record_exit (st : Stats) (travel_time : Q) (wait : Z)
    : option Stats :=
  let n := (throughput st + 1)%Z in
  if (n =? 0)%Z then None
  else
    Some {| total_vehicles := total_vehicles st;
            avg_wait_time :=
              (avg_wait_time st * inject_Z (n - 1) + inject_Z wait)
              / inject_Z n;
            avg_travel_time :=
              (avg_travel_time st * inject_Z (n - 1) + travel_time)
              / inject_Z n;
            throughput := n;
            queue_lengths := queue_lengths st |}.

(** The body of the loop [for i, vehicle in enumerate(self.vehicles)] of
    [update].  The vehicle is an object of the list: what the body assigns
    to it is written back at index [i]. *)
Definition update_vehicle (env : TickEnv) (i : nat)
    (st : Intersection * list nat) : option (Intersection * list nat) :=
  let (self, to_remove) := st in
  match nth_error (vehicles self) i with
  | None => None
  | Some vehicle =>
    let light_state := get_light_state self (direction vehicle) in
    match get_distance_to_light self vehicle with
    | None => None
    | Some light_dist =>
    match get_front_vehicle_distance self vehicle with
    | None => None
    | Some front_dist =>
    match Vehicle.update_speed vehicle front_dist light_state light_dist
            (noise_draw env i) with
    | None => None
    | Some sped =>
    let moved := Vehicle.move sped (move_clock env i) in
    let self1 := set_vehicles self (list_set i moved (vehicles self)) in
    match check_collision self1 moved with
    | None => None
    | Some true =>
        let gone := Vehicle.set_exit_time moved (Some (exit_clock env i)) in
        Some (set_vehicles self1 (list_set i gone (vehicles self1)),
              to_remove ++ [i])
    | Some false =>
        match check_exit self1 moved with
        | None => None
        | Some true =>
            let gone :=
              Vehicle.set_exit_time moved (Some (exit_clock env i)) in
            let travel_time := exit_clock env i - entry_time gone in
            match record_exit (stats self1) travel_time (wait_time gone) with
            | None => None
            | Some st' =>
                Some (set_stats
                        (set_vehicles self1
                           (list_set i gone (vehicles self1))) st',
                      to_remove ++ [i])
            end
        | Some false => Some (self1, to_remove)
        end
    end
    end end end
  end.

(** One round of [self.removed_vehicles.append(self.vehicles.pop(i))]. *)
Definition remove_vehicle (i : nat) (self : Intersection)
    : option Intersection :=
  match pop i (vehicles self) with
  | None => None
  | Some (v, rest) =>
      Some (set_removed_vehicles (set_vehicles self rest)
              (removed_vehicles self ++ [v]))
  end.

(** The counting loop of [_record_queue_lengths]; [queues] is the local
    dict with its four keys. *)
Definition bump (queues : Direction -> Z) (d : Direction) : Direction -> Z :=
  fun d' => if Direction_eqb d' d then (queues d' + 1)%Z else queues d'.

Fixpoint queue_scan (self : Intersection) (vs : list Vehicle)
    (queues : Direction -> Z) : option (Direction -> Z) :=
  match vs with
  | [] => Some queues
  | vehicle :: rest =>
      match get_distance_to_light self vehicle with
      | None => None
      | Some light_dist =>
          if Qltb light_dist 30 && Qeq_bool (speed vehicle) 0
          then queue_scan self rest (bump queues (direction vehicle))
          else queue_scan self rest queues
      end
  end.

(** [Intersection._record_queue_lengths()] *)
Definition _record_queue_lengths (self : Intersection)
    : option Intersection :=
  match queue_scan self (vehicles self) (fun _ => 0%Z) with
  | None => None
  | Some queues =>
      let st := stats self in
      Some (set_stats self
              (mkStats (total_vehicles st) (avg_wait_time st)
                 (avg_travel_time st) (throughput st)
                 (fun d => queue_lengths st d ++ [queues d])))
  end.

(** The world after the lights and the spawn of [update]. *)
Definition spawned (env : TickEnv) (w : World) : World :=
  let self := sim w in
  let self :=
    set_lights self (TrafficLight.update (light_NS self))
      (TrafficLight.update (light_EW self)) in
  spawn_vehicle env (mkWorld (Vehicle_next_id w) self).

(** The vehicle loop of [update], run on the world after the spawn: the
    simulation with every vehicle updated in place, and [to_remove]. *)
Definition update_vehicles (env : TickEnv) (self : Intersection)
    : option (Intersection * list nat) :=
  for_each (update_vehicle env) (seq 0 (length (vehicles self))) (self, []).

(** [Intersection.update(step)]; the argument [step] is only passed on to
    the lights, which ignore it. *)
Definition update (env : TickEnv) (w : World) : option World :=
  let w1 := spawned env w in
  match update_vehicles env (sim w1) with
  | None => None
  | Some (self, to_remove) =>
      match for_each remove_vehicle (sorted_reverse to_remove) self with
      | None => None
      | Some self =>
          match _record_queue_lengths self with
          | None => None
          | Some self => Some (mkWorld (Vehicle_next_id w1) self)
          end
      end
  end.

(** [Intersection.get_efficiency_metrics()] *)
Definition get_efficiency_metrics (self : Intersection)
    : Z * Q * Q * (Direction -> list Z) :=
  (throughput (stats self), avg_wait_time (stats self),
   avg_travel_time (stats self), queue_lengths (stats self)).

End Intersection.

(** The worlds that a run produces: a fresh [Intersection] (with any value
    of the identifier counter), then calls of [update] that return. *)
Inductive reachable : World -> Prop :=
| reachable_init : forall next_id road_length lane_width spawn_rate,
    reachable (mkWorld next_id
                 (Intersection.init road_length lane_width spawn_rate))
| reachable_update : forall env w w',
    reachable w -> Intersection.update env w = Some w' -> reachable w'.

(** ** Predicates used in the statements *)

(** A vehicle as the simulation keeps it: placed on the road, with positive
    constants and a speed between 0 and max_speed. *)
Definition vehicle_ok (v : Vehicle) : Prop :=
  position v <> None
  /\ 0 < max_speed v /\ 0 < acceleration v /\ 0 < deceleration v
  /\ 0 <= speed v <= max_speed v.

Definition world_ok (w : World) : Prop :=
  Forall vehicle_ok (vehicles (sim w))
  /\ (0 <= throughput (stats (sim w)))%Z.

(** The test that the counting loop of [_record_queue_lengths] applies to
    a vehicle, for the counter of direction [d]: the signed value of
    [get_distance_to_light] is below 30 (a vehicle past its light has a
    negative value and passes the test) and the speed is 0. *)
Definition queued (self : Intersection) (d : Direction) (v : Vehicle)
    : bool :=
  Direction_eqb d (direction v)
  && match Intersection.get_distance_to_light self v with
     | Some light_dist => Qltb light_dist 30
     | None => false
     end
  && Qeq_bool (speed v) 0.

Definition queue_count (self : Intersection) (d : Direction) : Z :=
  Z.of_nat (length (filter (queued self d) (vehicles self))).

(** A vehicle of direction [d] waiting before its light: stopped, not past
    the stop line, and less than 30 units from it. *)
Definition waiting (self : Intersection) (d : Direction) (v : Vehicle)
    : bool :=
  Direction_eqb d (direction v)
  && match Intersection.get_distance_to_light self v with
     | Some light_dist => Qle_bool 0 light_dist && Qltb light_dist 30
     | None => false
     end
  && Qeq_bool (speed v) 0.

Definition waiting_count (self : Intersection) (d : Direction) : Z :=
  Z.of_nat (length (filter (waiting self d) (vehicles self))).

(** A stopped vehicle of direction [d] within 30 units of its stop line,
    on either side of it and 30 included. *)
Definition within_30 (self : Intersection) (d : Direction) (v : Vehicle)
    : bool :=
  Direction_eqb d (direction v)
  && match Intersection.get_distance_to_light self v with
     | Some light_dist => Qle_bool (Qabs light_dist) 30
     | None => false
     end
  && Qeq_bool (speed v) 0.

Definition within_30_count (self : Intersection) (d : Direction) : Z :=
  Z.of_nat (length (filter (within_30 self d) (vehicles self))).

(** Indices in strictly decreasing order. *)
Definition descending (js : list nat) : Prop :=
  StronglySorted (fun a b => (b < a)%nat) js.

(** ** Concrete data used in examples *)

(** The vehicle that [spawn_vehicle] creates (before it is placed):
    [Vehicle(direction)] with the default constants 5, 1 and 2. *)
Definition fresh_vehicle : Vehicle := Vehicle.init 0 north 5 1 2 0 0.5.

(** A vehicle slowed down to speed 1/2 (as the car-following clamp does
    for a front distance of 3/2). *)
Definition slow_vehicle : Vehicle := Vehicle.set_speed fresh_vehicle (1 # 2).

(** A north-bound vehicle at speed 5 placed at height [y] of the lane
    [x = 100], entered at time 0. *)
Definition cruising (ident : Z) (y : Q) : Vehicle :=
  Vehicle.set_position
    (Vehicle.set_speed (Vehicle.init ident north 5 1 2 0 0.5) 5)
    (Some (100, y)).

(** A road of length 200 with three such vehicles 5 units apart, the
    first one a unit before the end of the road. *)
Definition three_leaving : World :=
  mkWorld 3
    (Intersection.set_vehicles (Intersection.init 200 15 0.5)
       [cruising 0 199; cruising 1 194; cruising 2 189]).

(** A tick without spawn and without random slow-down, in which every
    clock read returns [now]. *)
Definition quiet_tick (now : Q) : TickEnv :=
  mkTickEnv 1 north 0.5 now 0.5 (fun _ => 0.5) (fun _ => now) (fun _ => now).

(** A fresh intersection of road length 200, and a tick that spawns a
    north-bound vehicle. *)
Definition empty_world : World := mkWorld 0 (Intersection.init 200 15 0.5).

Definition spawn_tick : TickEnv :=
  mkTickEnv 0 north 0.5 0 0.5 (fun _ => 0.5) (fun _ => 0) (fun _ => 0).

(** ** Further notions used in the statements *)

(** The order of the phases, the duration of the current phase, and a
    light put at a given phase and timer. *)
Definition next_phase (s : LightState) : LightState :=
  match s with
  | green => yellow
  | yellow => red
  | red => green
  end.

Definition phase_duration (l : TrafficLight) : Z :=
  match state l with
  | green => green_duration l
  | yellow => yellow_duration l
  | red => red_duration l
  end.

Definition at_phase (l : TrafficLight) (s : LightState) (t : Z)
    : TrafficLight :=
  mkLight (cycle l) (green_duration l) (yellow_duration l) (red_duration l)
    s t.

(** [n] calls of [update_speed] on a free road: no vehicle ahead and a
    green light; [light_dist k] and [r k] are the light distance and the
    random draw of call [k]. *)
Fixpoint free_flow (n : nat) (light_dist r : nat -> Q) (v : Vehicle)
    : option Vehicle :=
  match n with
  | O => Some v
  | S k =>
      match free_flow k light_dist r v with
      | Some v' => Vehicle.update_speed v' None green (light_dist k) (r k)
      | None => None
      end
  end.

(** The gap from a vehicle to another one, measured along the travel
    direction of the first; [ahead vehicle other d] says that [other] is
    another vehicle of the same direction at the positive gap [d]. *)
Definition gap (vehicle other : Vehicle) : option Q :=
  match position vehicle, position other with
  | Some (vx, vy), Some (ox, oy) =>
      Some match direction vehicle with
           | north => oy - vy
           | south => vy - oy
           | east => ox - vx
           | west => vx - ox
           end
  | _, _ => None
  end.

Definition ahead (vehicle other : Vehicle) (d : Q) : Prop :=
  id other <> id vehicle /\ direction other = direction vehicle
  /\ gap vehicle other = Some d /\ 0 < d.

(** Two simulations with the same configuration and the same lights. *)
Definition same_setup (s s' : Intersection) : Prop :=
  road_length s' = road_length s /\ lane_width s' = lane_width s
  /\ spawn_rate s' = spawn_rate s
  /\ road_boundaries s' = road_boundaries s
  /\ intersection_center s' = intersection_center s
  /\ intersection_size s' = intersection_size s
  /\ light_NS s' = light_NS s /\ light_EW s' = light_EW s.

(** The worlds that a run reaches after exactly [n] calls of [update]. *)
Inductive reachable_in : nat -> World -> Prop :=
| reachable_in_init : forall next_id road_length lane_width spawn_rate,
    reachable_in 0
      (mkWorld next_id
         (Intersection.init road_length lane_width spawn_rate))
| reachable_in_update : forall n env w w',
    reachable_in n w -> Intersection.update env w = Some w' ->
    reachable_in (S n) w'.

(** The states of the north-south and of the east-west light at tick [r]
    of the 60-tick cycle of an intersection. *)
Definition light_table (r : nat) : LightState * LightState :=
  if (r <? 27)%nat then (green, red)
  else if (r <? 30)%nat then (green, green)
  else if (r <? 33)%nat then (yellow, green)
  else if (r <? 57)%nat then (red, green)
  else (red, yellow).

(** The elements of a list that stand at the indices [k], [k + 1], ...
    not listed in [js], in their order; and the elements at the indices
    [js], in the order of [js]. *)
Fixpoint unmarked_from {A} (k : nat) (js : list nat) (l : list A) : list A :=
  match l with
  | [] => []
  | x :: t =>
      if existsb (Nat.eqb k) js then unmarked_from (S k) js t
      else x :: unmarked_from (S k) js t
  end.

Definition picked {A} (js : list nat) (l : list A) : list A :=
  flat_map (fun j => match nth_error l j with
                     | Some x => [x]
                     | None => []
                     end) js.

(** ** The draft classes of [test3.py]

    [test3.py] holds an earlier draft of [TrafficLight] and [Vehicle] (its
    [Intersection] has an empty constructor and no methods).  The draft
    light stores one more attribute, [green_ratio], and its [update] tests
    the three phases with three separate [if]s; the draft [update_speed]
    adds [max_speed] in the acceleration step, truncates the safe distance
    to an integer and has no random step.  The other methods are those of
    [main.py]. *)

Module Draft.

(** The draft [TrafficLight]: the attributes of the light of [main.py]
    and [green_ratio]. *)
Record Light := mkLight {
  green_ratio : Q;
  light : TrafficLight
}.

(** [TrafficLight.__init__(cycle, green_ratio)] of [test3.py] *)
Definition light_init (cycle : Z) (green_ratio : Q) : Light :=
  {| green_ratio := green_ratio;
     light := TrafficLight.init cycle green_ratio |}.

(** [TrafficLight.update(step)] of [test3.py]: three [if]s in sequence,
    each one tested on the state left by the one before. *)
Definition light_update (self : Light) : Light :=
  let l1 := TrafficLight.tick (light self) in
  let l2 :=
    match state l1 with
    | green =>
        if (green_duration l1 <=? timer l1)%Z
        then TrafficLight.switch l1 yellow else l1
    | _ => l1
    end in
  let l3 :=
    match state l2 with
    | yellow =>
        if (yellow_duration l2 <=? timer l2)%Z
        then TrafficLight.switch l2 red else l2
    | _ => l2
    end in
  let l4 :=
    match state l3 with
    | red =>
        if (red_duration l3 <=? timer l3)%Z
        then TrafficLight.switch l3 green else l3
    | _ => l3
    end in
  {| green_ratio := green_ratio self; light := l4 |}.

(** Step 1 of the draft [update_speed]. *)
Definition accelerate (self : Vehicle) : Q :=
  if Qltb (speed self) (max_speed self)
  then py_min (speed self + max_speed self) (max_speed self)
  else speed self.

(** The draft [safe_distance]: [max(2, int(self.speed * 1.5))]. *)
Definition safe_distance (s1 : Q) : Q :=
  py_max 2 (inject_Z (py_int (s1 * 1.5))).

Definition follow (s1 : Q) (front_vehicle_dist : option Q) : Q :=
  match front_vehicle_dist with
  | Some d =>
      if Qltb d (safe_distance s1) then py_max 0 (py_min s1 (d - 1)) else s1
  | None => s1
  end.

Definition brake (s1 s2 decel : Q) (light_state : LightState)
    (light_dist : Q) : option Q :=
  match light_state with
  | green => Some s2
  | red | yellow =>
      if Qltb light_dist (safe_distance s1 * 2) then
        if Qeq_bool (2 * decel) 0 then None
        else
          let decel_distance := s2 ^ 2 / (2 * decel) in
          if Qltb light_dist decel_distance
          then Some (py_max 0 (s2 - decel))
          else Some s2
      else Some s2
  end.

(** [Vehicle.update_speed(front_vehicle_dist, light_state, light_dist)] of
    [test3.py] *)
Definition update_speed (self : Vehicle) (front_vehicle_dist : option Q)
    (light_state : LightState) (light_dist : Q) : option Vehicle :=
  let s1 := accelerate self in
  let s2 := follow s1 front_vehicle_dist in
  match brake s1 s2 (deceleration self) light_state light_dist with
  | None => None
  | Some s3 => Some (Vehicle.set_speed self s3)
  end.

End Draft.

(** ** The data that [plot_metrics] draws

    [plot_metrics] is drawing code; the two lists it builds from
    [removed_vehicles] before drawing are modelled here.  A float is
    truthy when it is not zero. *)

(** [[v.exit_time - v.entry_time for v in self.removed_vehicles
      if v.exit_time is not None]] *)
Definition travel_times (self : Intersection) : list Q :=
  flat_map (fun v => match exit_time v with
                     | Some t => [t - entry_time v]
                     | None => []
                     end) (removed_vehicles self).

(** The list [throughput_data]: the directions of the removed vehicles
    whose exit_time is truthy. *)
Definition throughput_data (self : Intersection) : list Direction :=
  flat_map (fun v => match exit_time v with
                     | Some t => if Qeq_bool t 0 then [] else [direction v]
                     | None => []
                     end) (removed_vehicles self).

(** ** Whole numbers in a run *)

Definition is_whole (q : Q) : Prop := exists n : Z, q == inject_Z n.

(** The distance that a vehicle has covered from its entry edge, on a
    road of length [rl]. *)
Definition travelled (rl : Q) (v : Vehicle) : option Q :=
  match position v with
  | None => None
  | Some (x, y) =>
      Some match direction v with
           | north => y
           | south => rl - y
           | east => x
           | west => rl - x
           end
  end.

(** A vehicle as [spawn_vehicle] builds it and [update] keeps it: the
    default constants, a whole speed between 0 and 5, and a whole distance
    covered. *)
Definition standard_vehicle (rl : Q) (v : Vehicle) : Prop :=
  max_speed v = 5 /\ acceleration v = 1 /\ deceleration v = 2
  /\ is_whole (speed v) /\ 0 <= speed v <= 5
  /\ exists t, travelled rl v = Some t /\ is_whole t.

(** ** Runs used in examples *)

(** Successive calls of [update], one per element of [envs]. *)
Fixpoint run (envs : list TickEnv) (w : World) : option World :=
  match envs with
  | [] => Some w
  | env :: rest =>
      match Intersection.update env w with
      | Some w' => run rest w'
      | None => None
      end
  end.

(** A fresh intersection of road length 60, where a north-bound vehicle
    enters 30 units before its light, and a tick that spawns such a vehicle
    and slows it down at once (random draw 0 in [update_speed]). *)
Definition short_world : World := mkWorld 0 (Intersection.init 60 15 0.5).

Definition hesitant_tick : TickEnv :=
  mkTickEnv 0 north 0.5 0 0.5 (fun _ => 0) (fun _ => 0) (fun _ => 0).

(** * Properties *)

(** ** Comparisons *)

Lemma Qltb_spec (x y : Q) : BoolSpec (x < y) (y <= x) (Qltb x y).
Proof.
  unfold Qltb. destruct (Qle_bool y x) eqn:E; simpl; constructor.
  - now apply Qle_bool_iff.
  - apply Qnot_le_lt. intro H. apply Qle_bool_iff in H. congruence.
Qed.

Lemma Qeqb_spec (x y : Q) : BoolSpec (x == y) (~ x == y) (Qeq_bool x y).
Proof.
  destruct (Qeq_bool x y) eqn:E; constructor.
  - now apply Qeq_bool_iff.
  - now apply Qeq_bool_neq.
Qed.

Ltac qcase :=
  match goal with
  | |- context [Qltb ?a ?b] => destruct (Qltb_spec a b)
  | |- context [Qeq_bool ?a ?b] => destruct (Qeqb_spec a b)
  end.

Lemma py_min_spec (a b : Q) :
  (b < a /\ py_min a b = b) \/ (a <= b /\ py_min a b = a).
Proof. unfold py_min. qcase; [left | right]; auto. Qed.

Lemma py_max_spec (a b : Q) :
  (a < b /\ py_max a b = b) \/ (b <= a /\ py_max a b = a).
Proof. unfold py_max. qcase; [left | right]; auto. Qed.

Ltac minmax :=
  repeat match goal with
  | |- context [py_min ?a ?b] =>
      let H := fresh in let E := fresh in
      destruct (py_min_spec a b) as [[H E] | [H E]]; rewrite E in *; clear E
  | |- context [py_max ?a ?b] =>
      let H := fresh in let E := fresh in
      destruct (py_max_spec a b) as [[H E] | [H E]]; rewrite E in *; clear E
  end.

(** ** TrafficLight *)

(** C3: a light built with cycle 60 and green ratio 0.5 starts green with
    timer 0; after 30 updates it is yellow, after 33 red, and after 60
    green again with timer 0. *)
Theorem light_60_half_scenario :
  let l := TrafficLight.init 60 0.5 in
  (state l = green /\ timer l = 0%Z)
  /\ state (TrafficLight.updates 30 l) = yellow
  /\ state (TrafficLight.updates 33 l) = red
  /\ (state (TrafficLight.updates 60 l) = green
      /\ timer (TrafficLight.updates 60 l) = 0%Z).
Proof. vm_compute. repeat split; reflexivity. Qed.

(** The phase durations that the scenario of C3 runs through. *)
Lemma light_60_half_durations :
  let l := TrafficLight.init 60 0.5 in
  green_duration l = 30%Z /\ yellow_duration l = 3%Z
  /\ red_duration l = 27%Z.
Proof. vm_compute. repeat split; reflexivity. Qed.

(** [update] never changes the configuration of a light. *)
Lemma update_durations (l : TrafficLight) :
  cycle (TrafficLight.update l) = cycle l
  /\ green_duration (TrafficLight.update l) = green_duration l
  /\ yellow_duration (TrafficLight.update l) = yellow_duration l
  /\ red_duration (TrafficLight.update l) = red_duration l.
Proof.
  unfold TrafficLight.update; simpl.
  destruct (state l); simpl;
    match goal with |- context [(?a <=? ?b)%Z] => destruct (a <=? b)%Z end;
    simpl; auto.
Qed.

(** The timer of a light is never negative once it is not. *)
Lemma update_timer_nonneg (l : TrafficLight) :
  (0 <= timer l)%Z -> (0 <= timer (TrafficLight.update l))%Z.
Proof.
  intro H. unfold TrafficLight.update; simpl.
  destruct (state l); simpl;
    match goal with |- context [(?a <=? ?b)%Z] => destruct (a <=? b)%Z end;
    simpl; lia.
Qed.

Lemma updates_timer_nonneg (n : nat) (l : TrafficLight) :
  (0 <= timer l)%Z -> (0 <= timer (TrafficLight.updates n l))%Z.
Proof.
  intro H. induction n as [|n IH]; simpl; [exact H|].
  now apply update_timer_nonneg.
Qed.

(** A light whose green and yellow phases overrun the cycle has a negative
    red duration. *)
Lemma overrun_red_duration (c : Z) (ratio : Q) :
  let l := TrafficLight.init c ratio in
  (green_duration l + yellow_duration l > cycle l)%Z ->
  (red_duration l < 0)%Z.
Proof. simpl. lia. Qed.

(** C4, as the code behaves: when the red duration is zero or negative, a
    light in the red phase (timer not negative, as in every state that
    [init] and [update] produce) leaves red at the very next [update]: it
    becomes green with timer 0. *)
Theorem red_exits_at_once (l : TrafficLight) :
  (red_duration l <= 0)%Z -> (0 <= timer l)%Z -> state l = red ->
  state (TrafficLight.update l) = green
  /\ timer (TrafficLight.update l) = 0%Z.
Proof.
  intros Hred Htimer Hstate.
  unfold TrafficLight.update; simpl. rewrite Hstate.
  destruct (Z.leb_spec (red_duration l) (timer l + 1)); simpl.
  - split; reflexivity.
  - lia.
Qed.

Lemma red_exits_at_once_witness :
  let l := TrafficLight.updates 63 (TrafficLight.init 60 1) in
  state (TrafficLight.update l) = green
  /\ timer (TrafficLight.update l) = 0%Z.
Proof.
  apply (red_exits_at_once (TrafficLight.updates 63 (TrafficLight.init 60 1)));
    vm_compute; congruence.
Defined.

(** C4 as stated fails: the light built with cycle 60 and green ratio 1
    has green 60 + yellow 3 > 60; after 63 updates it is red, and the next
    update turns it green. *)
Lemma red_hang_counterexample :
  let l := TrafficLight.updates 63 (TrafficLight.init 60 1) in
  (green_duration l + yellow_duration l > cycle l)%Z
  /\ (red_duration l <= 0)%Z
  /\ state l = red
  /\ state (TrafficLight.update l) <> red.
Proof. vm_compute. repeat split; congruence. Qed.

(** ** Vehicle *)

Lemma accelerate_bounds (self : Vehicle) :
  0 < acceleration self -> 0 <= speed self <= max_speed self ->
  0 <= Vehicle.accelerate self <= max_speed self.
Proof.
  intros Ha Hs. unfold Vehicle.accelerate. qcase; [|lra]. minmax; lra.
Qed.

Lemma follow_bounds (s1 : Q) (front : option Q) :
  0 <= s1 -> 0 <= Vehicle.follow s1 front <= s1.
Proof.
  intro H. unfold Vehicle.follow. destruct front as [d|]; [|lra].
  qcase; [|lra]. minmax; lra.
Qed.

Lemma brake_bounds (decel s1 s2 : Q) (light_state : LightState)
    (light_dist : Q) :
  0 < decel -> 0 <= s2 ->
  exists s3,
    Vehicle.brake s1 s2 decel light_state light_dist = Some s3
    /\ 0 <= s3 <= s2.
Proof.
  intros Hdec H. unfold Vehicle.brake.
  assert (Hd : Qeq_bool (2 * decel) 0 = false).
  { destruct (Qeqb_spec (2 * decel) 0); [lra | reflexivity]. }
  destruct light_state; try (exists s2; split; [reflexivity | lra]);
    (qcase; [| exists s2; split; [reflexivity | lra]]);
    rewrite Hd; (qcase; [| exists s2; split; [reflexivity | lra]]);
    eexists; (split; [reflexivity |]); minmax; lra.
Qed.

Lemma fluctuate_bounds (s3 r : Q) :
  0 <= s3 -> 0 <= Vehicle.fluctuate s3 r <= s3.
Proof.
  intro H. unfold Vehicle.fluctuate.
  destruct (Qltb r 0.1); simpl; [|lra].
  qcase; [|lra]. minmax; lra.
Qed.

(** [move] changes neither the speed nor the constants of a vehicle. *)
Lemma move_speed (v : Vehicle) (now : Q) :
  speed (Vehicle.move v now) = speed v
  /\ max_speed (Vehicle.move v now) = max_speed v
  /\ acceleration (Vehicle.move v now) = acceleration v
  /\ deceleration (Vehicle.move v now) = deceleration v.
Proof.
  unfold Vehicle.move.
  destruct (position v) as [[x y]|]; [destruct (direction v)|]; simpl;
    match goal with |- context [Qeq_bool ?a ?b] => destruct (Qeq_bool a b) end;
    simpl; auto.
Qed.

(** The four steps of [update_speed] in sequence. *)
Lemma update_speed_bounds (v : Vehicle) (front_vehicle_dist : option Q)
    (light_state : LightState) (light_dist r : Q) :
  0 < acceleration v -> 0 < deceleration v ->
  0 <= speed v <= max_speed v ->
  exists v',
    Vehicle.update_speed v front_vehicle_dist light_state light_dist r
    = Some v'
    /\ 0 <= speed v' <= max_speed v'.
Proof.
  intros Ha Hd Hs.
  pose proof (accelerate_bounds v Ha Hs) as H1.
  pose proof (follow_bounds (Vehicle.accelerate v) front_vehicle_dist
                (proj1 H1)) as H2.
  destruct (brake_bounds (deceleration v) (Vehicle.accelerate v)
              (Vehicle.follow (Vehicle.accelerate v) front_vehicle_dist)
              light_state light_dist Hd (proj1 H2)) as [s3 [E3 H3]].
  pose proof (fluctuate_bounds s3 r (proj1 H3)) as H4.
  unfold Vehicle.update_speed. rewrite E3.
  eexists; split; [reflexivity|]. simpl. lra.
Qed.

(** C1: for a vehicle with positive max_speed, acceleration and
    deceleration whose speed lies in [0, max_speed], [update_speed] returns
    (whatever the front distance, the light state, the light distance and
    the random draw) a vehicle whose speed lies in [0, max_speed], and so
    does [move]. *)
Theorem speed_bounds_preserved (v : Vehicle) :
  0 < max_speed v -> 0 < acceleration v -> 0 < deceleration v ->
  0 <= speed v <= max_speed v ->
  (forall front_vehicle_dist light_state light_dist r,
      exists v',
        Vehicle.update_speed v front_vehicle_dist light_state light_dist r
        = Some v'
        /\ 0 <= speed v' <= max_speed v')
  /\ (forall now,
        0 <= speed (Vehicle.move v now) <= max_speed (Vehicle.move v now)).
Proof.
  intros Hm Ha Hd Hs. split.
  - intros front light_state light_dist r.
    now apply update_speed_bounds.
  - intro now. destruct (move_speed v now) as [E1 [E2 _]].
    rewrite E1, E2. exact Hs.
Qed.

Lemma speed_bounds_preserved_witness :
  (forall front_vehicle_dist light_state light_dist r,
      exists v',
        Vehicle.update_speed fresh_vehicle front_vehicle_dist light_state
          light_dist r = Some v'
        /\ 0 <= speed v' <= max_speed v')
  /\ (forall now,
        0 <= speed (Vehicle.move fresh_vehicle now)
        <= max_speed (Vehicle.move fresh_vehicle now)).
Proof.
  apply (speed_bounds_preserved fresh_vehicle); simpl; lra.
Defined.

(** Step 3 never raises for a positive deceleration, and its result is at
    most the speed it started from or at most zero. *)
Lemma brake_cap (decel s1 s2 : Q) (light_state : LightState)
    (light_dist : Q) :
  0 < decel ->
  exists s3,
    Vehicle.brake s1 s2 decel light_state light_dist = Some s3
    /\ (s3 <= s2 \/ s3 <= 0).
Proof.
  intros Hdec. unfold Vehicle.brake.
  assert (Hd : Qeq_bool (2 * decel) 0 = false).
  { destruct (Qeqb_spec (2 * decel) 0); [lra | reflexivity]. }
  destruct light_state; try (exists s2; split; [reflexivity | lra]);
    (qcase; [| exists s2; split; [reflexivity | lra]]);
    rewrite Hd; (qcase; [| exists s2; split; [reflexivity | lra]]);
    eexists; (split; [reflexivity |]); minmax; lra.
Qed.

Lemma fluctuate_le (s3 r : Q) : Vehicle.fluctuate s3 r <= s3.
Proof.
  unfold Vehicle.fluctuate.
  destruct (Qltb r 0.1); simpl; [|lra].
  qcase; [|lra]. minmax; lra.
Qed.

(** Step 2 caps the speed at [max(0, d - 1)] when its guard holds, and the
    cap holds without the guard for a speed outside the open interval
    (1, 2). *)
Lemma follow_cap (s1 d : Q) :
  d < Vehicle.safe_distance s1 \/ s1 <= 1 \/ 2 <= s1 ->
  Vehicle.follow s1 (Some d) <= d - 1 \/ Vehicle.follow s1 (Some d) <= 0.
Proof.
  unfold Vehicle.follow, Vehicle.safe_distance.
  intros H. qcase.
  - minmax; lra.
  - revert H H0. minmax; intros; lra.
Qed.

(** C2, as the code behaves: for a vehicle with positive deceleration and
    a front distance [d] that is provided, [update_speed] returns a vehicle
    whose speed is at most [max(0, d - 1)] whenever the guard of the
    car-following clamp holds ([d < safe_distance], the safe distance being
    [max(2, 1.5 * s1)] for the speed [s1] after the acceleration step), and
    also whenever [s1 <= 1] or [2 <= s1]. *)
Theorem car_following_cap (v : Vehicle) (d : Q) (light_state : LightState)
    (light_dist r : Q) :
  0 < deceleration v ->
  d < Vehicle.safe_distance (Vehicle.accelerate v)
  \/ Vehicle.accelerate v <= 1 \/ 2 <= Vehicle.accelerate v ->
  exists v',
    Vehicle.update_speed v (Some d) light_state light_dist r = Some v'
    /\ speed v' <= Qmax 0 (d - 1).
Proof.
  intros Hd Hguard.
  pose proof (follow_cap _ _ Hguard) as H2.
  destruct (brake_cap (deceleration v) (Vehicle.accelerate v)
              (Vehicle.follow (Vehicle.accelerate v) (Some d))
              light_state light_dist Hd) as [s3 [E3 H3]].
  pose proof (fluctuate_le s3 r) as H4.
  unfold Vehicle.update_speed. rewrite E3.
  eexists; split; [reflexivity|]. simpl.
  apply Q.max_le_iff. lra.
Qed.

(** In particular the cap holds whenever the speed after the acceleration
    step is a whole number, as it is in the runs of the simulation (all
    vehicles of a direction start on the same line and move by whole
    speeds). *)
Lemma car_following_cap_whole (v : Vehicle) (d : Q) (n : Z)
    (light_state : LightState) (light_dist r : Q) :
  0 < deceleration v ->
  Vehicle.accelerate v == inject_Z n ->
  exists v',
    Vehicle.update_speed v (Some d) light_state light_dist r = Some v'
    /\ speed v' <= Qmax 0 (d - 1).
Proof.
  intros Hd Hn.
  pose proof (follow_cap (Vehicle.accelerate v) d) as H2.
  assert (Hwhole : Vehicle.accelerate v <= 1 \/ 2 <= Vehicle.accelerate v).
  { destruct (Z_le_gt_dec n 1) as [Hle|Hgt]; [left | right]; rewrite Hn.
    - change 1 with (inject_Z 1). rewrite <- Zle_Qle. exact Hle.
    - change 2 with (inject_Z 2). rewrite <- Zle_Qle. lia. }
  specialize (H2 (or_intror Hwhole)).
  destruct (brake_cap (deceleration v) (Vehicle.accelerate v)
              (Vehicle.follow (Vehicle.accelerate v) (Some d))
              light_state light_dist Hd) as [s3 [E3 H3]].
  pose proof (fluctuate_le s3 r) as H4.
  unfold Vehicle.update_speed. rewrite E3.
  eexists; split; [reflexivity|]. simpl.
  apply Q.max_le_iff. lra.
Qed.

Lemma car_following_cap_witness :
  exists v',
    Vehicle.update_speed slow_vehicle (Some (3 # 2)) green 100 0.5 = Some v'
    /\ speed v' <= Qmax 0 ((3 # 2) - 1).
Proof.
  apply (car_following_cap slow_vehicle (3 # 2) green 100 0.5).
  - simpl; lra.
  - left. vm_compute. reflexivity.
Defined.

(** C2 as stated fails: the vehicle with speed 1/2 (max_speed 5,
    acceleration 1) and a front distance of 9/4 accelerates to 3/2; the
    safe distance is 9/4, the clamp does not apply, and the resulting
    speed 3/2 exceeds max(0, 9/4 - 1) = 5/4. *)
Lemma car_following_counterexample :
  exists v',
    Vehicle.update_speed slow_vehicle (Some (9 # 4)) green 100 0.5 = Some v'
    /\ ~ speed v' <= Qmax 0 ((9 # 4) - 1).
Proof.
  eexists; split; [vm_compute; reflexivity|].
  intro H. apply Q.max_le_iff in H. simpl in H. destruct H as [H|H].
  - vm_compute in H. congruence.
  - vm_compute in H. congruence.
Qed.

(** C9, as the code behaves: for a vehicle whose position is [None],
    [move] leaves id, direction, constants, speed, position, path and the
    timestamps unchanged; wait_time is unchanged when the speed is not
    zero and is incremented by one when the speed is zero. *)
Theorem move_unplaced (v : Vehicle) (now : Q) :
  position v = None ->
  Vehicle.move v now
  = (if Qeq_bool (speed v) 0
     then Vehicle.set_wait_time v (wait_time v + 1)%Z
     else v)
  /\ position (Vehicle.move v now) = None
  /\ path (Vehicle.move v now) = path v
  /\ speed (Vehicle.move v now) = speed v
  /\ (~ speed v == 0 -> wait_time (Vehicle.move v now) = wait_time v)
  /\ (speed v == 0 ->
      wait_time (Vehicle.move v now) = (wait_time v + 1)%Z).
Proof.
  intro Hp. unfold Vehicle.move. rewrite Hp.
  destruct (Qeqb_spec (speed v) 0) as [E|E]; simpl; rewrite ?Hp;
    repeat split; auto; intro; tauto.
Qed.

Lemma move_unplaced_witness :
  Vehicle.move fresh_vehicle 0
  = Vehicle.set_wait_time fresh_vehicle 1
  /\ wait_time (Vehicle.move fresh_vehicle 0) = 1%Z.
Proof.
  destruct (move_unplaced fresh_vehicle 0 eq_refl)
    as [H [_ [_ [_ [_ Hw]]]]].
  split; [exact H | apply Hw; reflexivity].
Defined.

(** C9 as stated fails: a vehicle just constructed has position [None]
    and speed 0, and [move] increments its wait_time. *)
Lemma move_unplaced_counterexample :
  position fresh_vehicle = None
  /\ wait_time fresh_vehicle = 0%Z
  /\ wait_time (Vehicle.move fresh_vehicle 0) = 1%Z
  /\ Vehicle.move fresh_vehicle 0 <> fresh_vehicle.
Proof.
  repeat split; try reflexivity. intro H.
  apply (f_equal wait_time) in H. vm_compute in H. discriminate.
Qed.

(** ** The running means *)

(** The formula of the running mean of the travel times: with [n] the
    throughput after the increment, the new mean is
    [(old * (n - 1) + travel_time) / n]. *)
Lemma record_exit_formula (st st' : Stats) (travel_time : Q) (wait : Z) :
  Intersection.record_exit st travel_time wait = Some st' ->
  throughput st' = (throughput st + 1)%Z
  /\ total_vehicles st' = total_vehicles st
  /\ avg_travel_time st'
     = (avg_travel_time st * inject_Z (throughput st' - 1) + travel_time)
       / inject_Z (throughput st')
  /\ avg_wait_time st'
     = (avg_wait_time st * inject_Z (throughput st' - 1) + inject_Z wait)
       / inject_Z (throughput st').
Proof.
  unfold Intersection.record_exit.
  destruct (throughput st + 1 =? 0)%Z; [discriminate|].
  intro H; injection H as <-. simpl. auto.
Qed.

(** C6: starting from avg_travel_time 0 and throughput 0, three exits with
    travel times 5, 7 and 9 (in that order, with any wait times) bring
    avg_travel_time to 5, then 6, then 7, the throughput counting 1, 2, 3. *)
Theorem incremental_mean_5_7_9 (total : Z) (avg_wait : Q)
    (queues : Direction -> list Z) (w1 w2 w3 : Z) :
  let st0 := mkStats total avg_wait 0 0 queues in
  exists st1 st2 st3,
    (Intersection.record_exit st0 5 w1 = Some st1
     /\ throughput st1 = 1%Z /\ avg_travel_time st1 == 5)
    /\ (Intersection.record_exit st1 7 w2 = Some st2
        /\ throughput st2 = 2%Z /\ avg_travel_time st2 == 6)
    /\ (Intersection.record_exit st2 9 w3 = Some st3
        /\ throughput st3 = 3%Z /\ avg_travel_time st3 == 7).
Proof.
  simpl. unfold Intersection.record_exit; simpl.
  eexists; eexists; eexists.
  repeat split; try reflexivity; simpl; reflexivity.
Qed.

(** The same three exits through [update]: on a road of length 200, three
    north-bound vehicles that entered at time 0 leave one per tick at
    times 5, 7 and 9, and avg_travel_time reads 5, 6 and 7. *)
Lemma three_exits_run :
  exists w1 w2 w3,
    (Intersection.update (quiet_tick 5) three_leaving = Some w1
     /\ throughput (stats (sim w1)) = 1%Z
     /\ avg_travel_time (stats (sim w1)) == 5)
    /\ (Intersection.update (quiet_tick 7) w1 = Some w2
        /\ throughput (stats (sim w2)) = 2%Z
        /\ avg_travel_time (stats (sim w2)) == 6)
    /\ (Intersection.update (quiet_tick 9) w2 = Some w3
        /\ throughput (stats (sim w3)) = 3%Z
        /\ avg_travel_time (stats (sim w3)) == 7
        /\ vehicles (sim w3) = []
        /\ length (removed_vehicles (sim w3)) = 3%nat).
Proof.
  eexists; eexists; eexists.
  split; [|split].
  - split; [vm_compute; reflexivity|]. split; vm_compute; reflexivity.
  - split; [vm_compute; reflexivity|]. split; vm_compute; reflexivity.
  - split; [vm_compute; reflexivity|]. repeat split; vm_compute; reflexivity.
Qed.

(** ** The constructor *)

(** C10, as the code behaves: the constructor takes road_length,
    lane_width and spawn_rate only, stores them, and always builds both
    lights with cycle 60 and green ratio 0.5 (green 30, yellow 3, red 27),
    the north-south one green and the east-west one red. *)
Theorem constructor_lights (rl lw sr : Q) :
  let self := Intersection.init rl lw sr in
  (road_length self = rl /\ lane_width self = lw /\ spawn_rate self = sr)
  /\ light_NS self
     = TrafficLight.set_state (TrafficLight.init 60 0.5) green
  /\ light_EW self
     = TrafficLight.set_state (TrafficLight.init 60 0.5) red
  /\ (cycle (light_NS self) = 60%Z /\ green_duration (light_NS self) = 30%Z
      /\ yellow_duration (light_NS self) = 3%Z
      /\ red_duration (light_NS self) = 27%Z)
  /\ (cycle (light_EW self) = 60%Z /\ green_duration (light_EW self) = 30%Z
      /\ yellow_duration (light_EW self) = 3%Z
      /\ red_duration (light_EW self) = 27%Z).
Proof. simpl. repeat split; reflexivity. Qed.

(** C10 as stated fails: no arguments of the constructor give a light of
    cycle 90 and green ratio 0.5 (neither light is ever configured from a
    constructor argument). *)
Lemma constructor_counterexample :
  ~ exists rl lw sr,
      light_NS (Intersection.init rl lw sr)
      = TrafficLight.set_state (TrafficLight.init 90 0.5) green
      \/ light_EW (Intersection.init rl lw sr)
         = TrafficLight.set_state (TrafficLight.init 90 0.5) red.
Proof.
  intros [rl [lw [sr [H|H]]]]; apply (f_equal cycle) in H;
    vm_compute in H; discriminate.
Qed.

(** ** Lists as Python lists *)

Lemma length_list_set {A} (i : nat) (x : A) (l : list A) :
  length (list_set i x l) = length l.
Proof.
  revert i; induction l as [|h t IH]; intros [|i]; simpl; auto.
Qed.

Lemma nth_error_list_set_eq {A} (i : nat) (x : A) (l : list A) :
  (i < length l)%nat -> nth_error (list_set i x l) i = Some x.
Proof.
  revert i; induction l as [|h t IH]; intros [|i] H; simpl in *;
    try lia; auto. apply IH; lia.
Qed.

Lemma nth_error_list_set_neq {A} (i j : nat) (x : A) (l : list A) :
  i <> j -> nth_error (list_set i x l) j = nth_error l j.
Proof.
  revert i j; induction l as [|h t IH]; intros [|i] [|j] H; simpl;
    try congruence; auto.
Qed.

Lemma list_set_twice {A} (i : nat) (x y : A) (l : list A) :
  list_set i y (list_set i x l) = list_set i y l.
Proof.
  revert i; induction l as [|h t IH]; intros [|i]; simpl; auto.
  now rewrite IH.
Qed.

(** Writing at an index keeps a property that holds of all elements and of
    the new one. *)
Lemma Forall_list_set {A} (P : A -> Prop) (i : nat) (x : A) (l : list A) :
  Forall P l -> P x -> Forall P (list_set i x l).
Proof.
  intros Hl Hx. revert i.
  induction Hl as [|h t Hh Ht IH]; intros [|i]; simpl; auto.
Qed.

Lemma pop_in_range {A} (i : nat) (l : list A) :
  (i < length l)%nat -> exists x r, pop i l = Some (x, r).
Proof.
  revert i; induction l as [|h t IH]; intros [|i] H; simpl in *; try lia.
  - eauto.
  - destruct (IH i) as [x [r E]]; [lia|]. rewrite E. eauto.
Qed.

Lemma pop_spec {A} (i : nat) (l : list A) (x : A) (r : list A) :
  pop i l = Some (x, r) ->
  nth_error l i = Some x
  /\ length l = S (length r)
  /\ (forall k, (k < i)%nat -> nth_error r k = nth_error l k)
  /\ (forall k, (i <= k)%nat -> nth_error r k = nth_error l (S k)).
Proof.
  revert i x r; induction l as [|h t IH]; intros [|i] x r H; simpl in *;
    try discriminate.
  - injection H as <- <-. repeat split; auto. intros k Hk; lia.
  - destruct (pop i t) as [[y t']|] eqn:E; [|discriminate].
    injection H as <- <-. destruct (IH _ _ _ E) as [H1 [H2 [H3 H4]]].
    repeat split; simpl; auto.
    + intros [|k] Hk; simpl; auto. apply H3; lia.
    + intros [|k] Hk; simpl; [lia|]. apply H4; lia.
Qed.

(** *** [sorted(..., reverse=True)] *)

Lemma in_insert_desc (i x : nat) (l : list nat) :
  In x (insert_desc i l) <-> x = i \/ In x l.
Proof.
  induction l as [|j t IH]; simpl.
  - intuition.
  - destruct (j <=? i)%nat; simpl; intuition.
Qed.

Lemma in_sorted_reverse (x : nat) (l : list nat) :
  In x (sorted_reverse l) <-> In x l.
Proof.
  induction l as [|i t IH]; simpl; [tauto|].
  rewrite in_insert_desc, IH. intuition.
Qed.

Lemma length_insert_desc (i : nat) (l : list nat) :
  length (insert_desc i l) = S (length l).
Proof.
  induction l as [|j t IH]; simpl; auto.
  destruct (j <=? i)%nat; simpl; auto.
Qed.

Lemma length_sorted_reverse (l : list nat) :
  length (sorted_reverse l) = length l.
Proof.
  induction l as [|i t IH]; simpl; auto.
  now rewrite length_insert_desc, IH.
Qed.

Lemma descending_insert (i : nat) (l : list nat) :
  descending l -> ~ In i l -> descending (insert_desc i l).
Proof.
  unfold descending. intros Hs. induction Hs as [|j t Ht IH Hj]; intro Hi.
  - simpl. constructor; constructor.
  - simpl. destruct (Nat.leb_spec j i) as [Hle|Hlt].
    + assert (j < i)%nat by (simpl in Hi; lia).
      constructor; [constructor; assumption|].
      constructor; [assumption|].
      rewrite Forall_forall in *. intros x Hx. specialize (Hj x Hx). lia.
    + constructor.
      * apply IH. simpl in Hi. tauto.
      * rewrite Forall_forall in *. intros x Hx.
        apply in_insert_desc in Hx. destruct Hx as [->|Hx]; auto.
Qed.

Lemma descending_sorted_reverse (l : list nat) :
  NoDup l -> descending (sorted_reverse l).
Proof.
  induction 1 as [|i t Hi Ht IH]; simpl.
  - constructor.
  - apply descending_insert; [exact IH|]. now rewrite in_sorted_reverse.
Qed.

(** *** Loops *)

(** A loop over the indices [a, a + n) keeps an invariant indexed by the
    next index. *)
Lemma for_each_seq_inv {S} (body : nat -> S -> option S)
    (P : nat -> S -> Prop) (n : nat) :
  forall (a : nat) (s s' : S),
    (forall i t t', (a <= i < a + n)%nat -> P i t -> body i t = Some t' ->
                    P (Datatypes.S i) t') ->
    P a s -> for_each body (seq a n) s = Some s' -> P (a + n)%nat s'.
Proof.
  induction n as [|n IH]; intros a s s' Hbody Ha Hrun; simpl in Hrun.
  - injection Hrun as <-. now rewrite Nat.add_0_r.
  - destruct (body a s) as [t|] eqn:E; [|discriminate].
    replace (a + Datatypes.S n)%nat with (Datatypes.S a + n)%nat by lia.
    apply (IH (Datatypes.S a) t s'); auto.
    + intros i u u' Hi. apply Hbody. lia.
    + apply (Hbody a s t); auto. lia.
Qed.

(** The same loop returns when its body does under the invariant. *)
Lemma for_each_seq_total {S} (body : nat -> S -> option S)
    (P : nat -> S -> Prop) (n : nat) :
  forall (a : nat) (s : S),
    (forall i t, (a <= i < a + n)%nat -> P i t ->
                 exists t', body i t = Some t' /\ P (Datatypes.S i) t') ->
    P a s ->
    exists s', for_each body (seq a n) s = Some s' /\ P (a + n)%nat s'.
Proof.
  induction n as [|n IH]; intros a s Hbody Ha; simpl.
  - exists s. now rewrite Nat.add_0_r.
  - destruct (Hbody a s) as [t [E Ht]]; [lia | exact Ha |].
    rewrite E.
    replace (a + Datatypes.S n)%nat with (Datatypes.S a + n)%nat by lia.
    apply IH; auto. intros i u Hi. apply Hbody. lia.
Qed.

(** ** The removal loop of [update] *)

Lemma remove_vehicles_spec (js : list nat) :
  forall self self',
    descending js ->
    for_each Intersection.remove_vehicle js self = Some self' ->
    (stats self' = stats self /\ road_length self' = road_length self)
    /\ (length (vehicles self') + length js = length (vehicles self))%nat
    /\ (forall u, In u (vehicles self') ->
          exists k, ~ In k js /\ nth_error (vehicles self) k = Some u)
    /\ (forall j v, In j js -> nth_error (vehicles self) j = Some v ->
          In v (removed_vehicles self'))
    /\ (exists extra,
          removed_vehicles self' = removed_vehicles self ++ extra).
Proof.
  induction js as [|j js IH]; intros self self' Hdesc Hrun; simpl in Hrun.
  - injection Hrun as <-. repeat split; auto.
    + intros u Hu. apply In_nth_error in Hu. destruct Hu as [k Hk].
      exists k. split; auto.
    + intros j v [].
    + exists []. now rewrite app_nil_r.
  - unfold Intersection.remove_vehicle in Hrun at 1.
    destruct (pop j (vehicles self)) as [[v rest]|] eqn:Epop;
      [|discriminate].
    apply StronglySorted_inv in Hdesc. destruct Hdesc as [Hdesc Hlt].
    rewrite Forall_forall in Hlt.
    destruct (pop_spec _ _ _ _ Epop) as [Hv [Hlen [Hbelow Habove]]].
    destruct (IH _ _ Hdesc Hrun)
      as [[Hst Hrl] [Hlen' [Hkept [Hgone [extra Hextra]]]]].
    simpl in *. repeat split; auto.
    + lia.
    + intros u Hu. destruct (Hkept u Hu) as [k [Hk Hnth]].
      destruct (Nat.lt_ge_cases k j) as [Hkj|Hkj].
      * exists k. rewrite Hbelow in Hnth by exact Hkj.
        split; [|exact Hnth]. intros [->|Hin]; [lia | tauto].
      * exists (S k). rewrite Habove in Hnth by exact Hkj.
        split; [|exact Hnth]. intros [Heq|Hin]; [lia|].
        specialize (Hlt _ Hin). lia.
    + intros j0 v0 [<-|Hin] Hnth.
      * rewrite Hextra. rewrite Hv in Hnth. injection Hnth as <-.
        rewrite !in_app_iff. simpl. auto.
      * apply (Hgone j0); auto. rewrite Hbelow; auto.
    + exists ([v] ++ extra). rewrite Hextra. now rewrite <- app_assoc.
Qed.

Lemma remove_vehicles_total (js : list nat) :
  forall self,
    descending js ->
    Forall (fun j => (j < length (vehicles self))%nat) js ->
    exists self', for_each Intersection.remove_vehicle js self = Some self'.
Proof.
  induction js as [|j js IH]; intros self Hdesc Hrange; simpl.
  - eauto.
  - apply StronglySorted_inv in Hdesc. destruct Hdesc as [Hdesc Hlt].
    inversion Hrange as [|? ? Hj Hjs]; subst.
    unfold Intersection.remove_vehicle at 1.
    destruct (pop_in_range j (vehicles self) Hj) as [v [rest Epop]].
    rewrite Epop. apply IH; auto. simpl.
    destruct (pop_spec _ _ _ _ Epop) as [_ [Hlen _]].
    rewrite Forall_forall in *. intros k Hk. specialize (Hlt k Hk). lia.
Qed.

(** ** The vehicle loop of [update] *)

(** What one round of the loop does, case by case: the vehicle at index
    [i] gets a new speed and moves; then it is marked after a collision,
    or marked and counted after an exit, or kept. *)
Lemma update_vehicle_cases (env : TickEnv) (i : nat)
    (self self' : Intersection) (tr tr' : list nat) :
  Intersection.update_vehicle env i (self, tr) = Some (self', tr') ->
  exists vehicle front_dist light_dist sped,
    nth_error (vehicles self) i = Some vehicle
    /\ Intersection.get_distance_to_light self vehicle = Some light_dist
    /\ Vehicle.update_speed vehicle front_dist
         (Intersection.get_light_state self (direction vehicle)) light_dist
         (noise_draw env i) = Some sped
    /\ let moved := Vehicle.move sped (move_clock env i) in
       let gone := Vehicle.set_exit_time moved (Some (exit_clock env i)) in
       (tr' = tr ++ [i]
        /\ self'
           = Intersection.set_vehicles self
               (list_set i gone (vehicles self)))
       \/ (Intersection.check_exit self moved = Some true
           /\ tr' = tr ++ [i]
           /\ exists st',
               Intersection.record_exit (stats self)
                 (exit_clock env i - entry_time moved) (wait_time moved)
               = Some st'
               /\ self'
                  = Intersection.set_stats
                      (Intersection.set_vehicles self
                         (list_set i gone (vehicles self))) st')
       \/ (Intersection.check_exit self moved = Some false
           /\ tr' = tr
           /\ self'
              = Intersection.set_vehicles self
                  (list_set i moved (vehicles self))).
Proof.
  unfold Intersection.update_vehicle.
  destruct (nth_error (vehicles self) i) as [vehicle|] eqn:En;
    [|discriminate].
  destruct (Intersection.get_distance_to_light self vehicle)
    as [light_dist|] eqn:Ed; [|discriminate].
  destruct (Intersection.get_front_vehicle_distance self vehicle)
    as [front_dist|]; [|discriminate].
  destruct (Vehicle.update_speed vehicle front_dist _ light_dist _)
    as [sped|] eqn:Es; [|discriminate].
  intro H. exists vehicle, front_dist, light_dist, sped.
  split; [reflexivity|]. split; [exact Ed|]. split; [exact Es|].
  cbv zeta.
  destruct (Intersection.check_collision _ _) as [[|]|]; [| |discriminate].
  - left. injection H as <- <-. split; [reflexivity|].
    unfold Intersection.set_vehicles; simpl. now rewrite list_set_twice.
  - change (Intersection.check_exit
              (Intersection.set_vehicles self
                 (list_set i (Vehicle.move sped (move_clock env i))
                    (vehicles self)))
              (Vehicle.move sped (move_clock env i)))
      with (Intersection.check_exit self
              (Vehicle.move sped (move_clock env i))) in H.
    destruct (Intersection.check_exit self _) as [[|]|] eqn:Ex;
      [| |discriminate].
    + right; left. split; [reflexivity|].
      simpl in H.
      destruct (Intersection.record_exit _ _ _) as [st'|] eqn:Er;
        [|discriminate].
      injection H as <- <-. split; [reflexivity|].
      exists st'. split; [reflexivity|].
      unfold Intersection.set_vehicles, Intersection.set_stats; simpl.
      now rewrite list_set_twice.
    + right; right. injection H as <- <-. auto.
Qed.

(** What the lights and the spawn leave alone, and what the spawn adds. *)
Lemma spawned_spec (env : TickEnv) (w : World) :
  let self := sim w in
  let self1 := sim (Intersection.spawned env w) in
  road_length self1 = road_length self
  /\ removed_vehicles self1 = removed_vehicles self
  /\ throughput (stats self1) = throughput (stats self)
  /\ queue_lengths (stats self1) = queue_lengths (stats self)
  /\ ((vehicles self1 = vehicles self
       /\ total_vehicles (stats self1) = total_vehicles (stats self))
      \/ (exists v,
            vehicles self1 = vehicles self ++ [v]
            /\ vehicle_ok v
            /\ total_vehicles (stats self1)
               = (total_vehicles (stats self) + 1)%Z)).
Proof.
  unfold Intersection.spawned, Intersection.spawn_vehicle; simpl.
  destruct (Qltb (spawn_draw env) (spawn_rate (sim w))); simpl.
  - repeat split; auto. right. eexists. split; [reflexivity|].
    split; [|reflexivity].
    unfold vehicle_ok; simpl. repeat split; try lra. discriminate.
  - repeat split; auto.
Qed.

(** The bookkeeping of the vehicle loop: it keeps the length of the
    vehicle list, the road, the removed list and the queue samples; the
    marked indices are distinct indices of the list; the throughput grows
    by at most one per marked index. *)
Lemma update_vehicles_frame (env : TickEnv) (self self' : Intersection)
    (tr : list nat) :
  Intersection.update_vehicles env self = Some (self', tr) ->
  length (vehicles self') = length (vehicles self)
  /\ road_length self' = road_length self
  /\ removed_vehicles self' = removed_vehicles self
  /\ total_vehicles (stats self') = total_vehicles (stats self)
  /\ queue_lengths (stats self') = queue_lengths (stats self)
  /\ Forall (fun j => (j < length (vehicles self))%nat) tr
  /\ NoDup tr
  /\ (throughput (stats self) <= throughput (stats self')
      <= throughput (stats self) + Z.of_nat (length tr))%Z.
Proof.
  unfold Intersection.update_vehicles. intro Hrun.
  pose (P := fun (i : nat) (st : Intersection * list nat) =>
    length (vehicles (fst st)) = length (vehicles self)
    /\ road_length (fst st) = road_length self
    /\ removed_vehicles (fst st) = removed_vehicles self
    /\ total_vehicles (stats (fst st)) = total_vehicles (stats self)
    /\ queue_lengths (stats (fst st)) = queue_lengths (stats self)
    /\ Forall (fun j => (j < i)%nat) (snd st)
    /\ NoDup (snd st)
    /\ (throughput (stats self) <= throughput (stats (fst st))
        <= throughput (stats self) + Z.of_nat (length (snd st)))%Z).
  assert (Hend : P (0 + length (vehicles self))%nat (self', tr)).
  { apply (for_each_seq_inv (Intersection.update_vehicle env) P
             (length (vehicles self)) 0%nat (self, []) (self', tr));
      [| unfold P; simpl; repeat split; auto; try constructor; lia
       | exact Hrun].
    intros i [s t] [s' t'] Hi HP Hbody.
    destruct HP as [H1 [H2 [H3 [H4 [H5 [H6 [H7 H8]]]]]]]. simpl in *.
    assert (Hmark : Forall (fun j => (j < S i)%nat) (t ++ [i])
                    /\ NoDup (t ++ [i])).
    { split.
      - apply Forall_app. split; [|repeat constructor].
        rewrite Forall_forall in *. intros j Hj. specialize (H6 j Hj). lia.
      - apply NoDup_app; [exact H7 | repeat constructor; intros [] |].
        intros j Hj [E|[]]. rewrite Forall_forall in H6.
        specialize (H6 j Hj). lia. }
    destruct (update_vehicle_cases _ _ _ _ _ _ Hbody)
      as [vehicle [front [dist [sped [_ [_ [_ Hcases]]]]]]].
    cbv zeta in Hcases.
    destruct Hcases as [[-> ->] | [[_ [-> [st' [Er ->]]]] | [_ [-> ->]]]];
      unfold P; simpl; rewrite ?length_list_set.
    - rewrite length_app; simpl.
      repeat split; auto; try tauto; lia.
    - destruct (record_exit_formula _ _ _ _ Er) as [E1 [E2 _]].
      assert (E3 : queue_lengths st' = queue_lengths (stats s)).
      { unfold Intersection.record_exit in Er.
        destruct (throughput (stats s) + 1 =? 0)%Z; [discriminate|].
        injection Er as <-. reflexivity. }
      rewrite length_app; simpl.
      repeat split; auto; try tauto; try congruence; lia.
    - repeat split; auto; try lia.
      rewrite Forall_forall in *. intros j Hj. specialize (H6 j Hj). lia. }
  unfold P in Hend; simpl in Hend. tauto.
Qed.

(** ** The queue samples *)

(** The counting loop adds, for every direction, the number of queued
    vehicles of that direction. *)
Lemma queue_scan_count (self : Intersection) (vs : list Vehicle) :
  forall queues queues',
    Intersection.queue_scan self vs queues = Some queues' ->
    forall d,
      queues' d
      = (queues d + Z.of_nat (length (filter (queued self d) vs)))%Z.
Proof.
  induction vs as [|v vs IH]; intros queues queues' H d; simpl in H.
  - injection H as <-. simpl. lia.
  - simpl. unfold queued at 1.
    destruct (Intersection.get_distance_to_light self v) as [dist|];
      [|discriminate].
    destruct (Qltb dist 30 && Qeq_bool (speed v) 0) eqn:Ec.
    + rewrite (IH _ _ H d). unfold Intersection.bump.
      apply andb_prop in Ec. destruct Ec as [-> ->].
      destruct (Direction_eqb d (direction v)); simpl; lia.
    + rewrite (IH _ _ H d).
      replace (Direction_eqb d (direction v) && Qltb dist 30
               && Qeq_bool (speed v) 0)
        with false; [reflexivity|].
      rewrite <- andb_assoc, Ec. now rewrite andb_false_r.
Qed.

Lemma record_queue_lengths_spec (self self' : Intersection) :
  Intersection._record_queue_lengths self = Some self' ->
  vehicles self' = vehicles self
  /\ removed_vehicles self' = removed_vehicles self
  /\ road_length self' = road_length self
  /\ throughput (stats self') = throughput (stats self)
  /\ total_vehicles (stats self') = total_vehicles (stats self)
  /\ (forall d,
        queue_lengths (stats self') d
        = queue_lengths (stats self) d ++ [queue_count self d])
  /\ (forall d, queue_count self' d = queue_count self d).
Proof.
  unfold Intersection._record_queue_lengths.
  destruct (Intersection.queue_scan self (vehicles self) (fun _ => 0%Z))
    as [queues|] eqn:E; [|discriminate].
  intro H; injection H as <-. simpl. repeat split; auto.
  intro d. unfold queue_count. now rewrite (queue_scan_count _ _ _ _ E d).
Qed.

(** The counting loop returns when every vehicle is placed. *)
Lemma queue_scan_total (self : Intersection) (vs : list Vehicle) :
  Forall vehicle_ok vs ->
  forall queues, exists queues',
    Intersection.queue_scan self vs queues = Some queues'.
Proof.
  induction 1 as [|v vs Hv Hvs IH]; intro queues; simpl; [eauto|].
  unfold Intersection.get_distance_to_light.
  destruct Hv as [Hp _].
  destruct (position v) as [[x y]|]; [|congruence].
  destruct (_ && _); apply IH.
Qed.

(** ** The whole of [update] *)

(** The stages of a call of [update] that returns. *)
Lemma update_stages (env : TickEnv) (w w' : World) :
  Intersection.update env w = Some w' ->
  exists self tr self2 self3,
    Intersection.update_vehicles env (sim (Intersection.spawned env w))
    = Some (self, tr)
    /\ for_each Intersection.remove_vehicle (sorted_reverse tr) self
       = Some self2
    /\ Intersection._record_queue_lengths self2 = Some self3
    /\ sim w' = self3.
Proof.
  unfold Intersection.update.
  destruct (Intersection.update_vehicles env _) as [[self tr]|] eqn:E1;
    [|discriminate].
  destruct (for_each Intersection.remove_vehicle _ self) as [self2|] eqn:E2;
    [|discriminate].
  destruct (Intersection._record_queue_lengths self2) as [self3|] eqn:E3;
    [|discriminate].
  intro H; injection H as <-. exists self, tr, self2, self3. auto.
Qed.

(** The counting invariant behind C5: every exit counted by the
    throughput and every active vehicle is a spawned vehicle. *)
Lemma update_counts (env : TickEnv) (w w' : World) :
  Intersection.update env w = Some w' ->
  (throughput (stats (sim w)) + Z.of_nat (length (vehicles (sim w)))
   <= total_vehicles (stats (sim w)))%Z ->
  (throughput (stats (sim w')) + Z.of_nat (length (vehicles (sim w')))
   <= total_vehicles (stats (sim w')))%Z.
Proof.
  intros Hup Hinv.
  destruct (update_stages _ _ _ Hup)
    as [self [tr [self2 [self3 [Hloop [Hrem [Hrec <-]]]]]]].
  destruct (spawned_spec env w) as [_ [_ [Hthr [_ Hspawn]]]].
  destruct (update_vehicles_frame _ _ _ _ Hloop)
    as [Hlen [_ [_ [Htot [_ [Hrange [Hnodup Hthr']]]]]]].
  destruct (remove_vehicles_spec _ _ _
              (descending_sorted_reverse _ Hnodup) Hrem)
    as [[Hst _] [Hlen2 _]].
  rewrite length_sorted_reverse in Hlen2.
  destruct (record_queue_lengths_spec _ _ Hrec)
    as [Hv [_ [_ [Ht3 [Htot3 _]]]]].
  rewrite Hv, Ht3, Htot3, Hst, Htot.
  simpl in Hthr, Hspawn.
  destruct Hspawn as [[Ev Et] | [v [Ev [_ Et]]]].
  - rewrite Ev in *. lia.
  - rewrite Ev, length_app in *. simpl in *. lia.
Qed.

Lemma reachable_counts (w : World) :
  reachable w ->
  (throughput (stats (sim w)) + Z.of_nat (length (vehicles (sim w)))
   <= total_vehicles (stats (sim w)))%Z.
Proof.
  induction 1 as [next rl lw sr | env w w' Hw IH Hup].
  - simpl. lia.
  - exact (update_counts _ _ _ Hup IH).
Qed.

(** C5: in every world that a run reaches (a fresh intersection followed
    by calls of update), the throughput is at most total_vehicles. *)
Theorem throughput_le_total (w : World) :
  reachable w ->
  (throughput (stats (sim w)) <= total_vehicles (stats (sim w)))%Z.
Proof.
  intro H. pose proof (reachable_counts w H). lia.
Qed.

(** ** [update] returns *)

Lemma update_speed_fields (v v' : Vehicle) (front : option Q)
    (light_state : LightState) (light_dist r : Q) :
  Vehicle.update_speed v front light_state light_dist r = Some v' ->
  id v' = id v /\ direction v' = direction v /\ position v' = position v
  /\ max_speed v' = max_speed v /\ acceleration v' = acceleration v
  /\ deceleration v' = deceleration v /\ entry_time v' = entry_time v.
Proof.
  unfold Vehicle.update_speed.
  destruct (Vehicle.brake _ _ _ _ _); [|discriminate].
  intro H; injection H as <-. simpl. repeat split; reflexivity.
Qed.

Lemma update_speed_ok (v : Vehicle) (front : option Q)
    (light_state : LightState) (light_dist r : Q) :
  vehicle_ok v ->
  exists v',
    Vehicle.update_speed v front light_state light_dist r = Some v'
    /\ vehicle_ok v'.
Proof.
  intros [Hp [Hm [Ha [Hd Hs]]]].
  destruct (update_speed_bounds v front light_state light_dist r Ha Hd Hs)
    as [v' [E Hb]].
  exists v'. split; [exact E|].
  destruct (update_speed_fields _ _ _ _ _ _ E)
    as [_ [_ [E1 [E2 [E3 [E4 _]]]]]].
  unfold vehicle_ok. rewrite E1, E3, E4. rewrite E2 in *. tauto.
Qed.

Lemma move_position (v : Vehicle) (now : Q) :
  position v <> None -> position (Vehicle.move v now) <> None.
Proof.
  unfold Vehicle.move.
  destruct (position v) as [[x y]|]; [|congruence].
  intros _.
  destruct (direction v); simpl;
    match goal with |- context [Qeq_bool ?a ?b] => destruct (Qeq_bool a b) end;
    simpl; discriminate.
Qed.

Lemma move_ok (v : Vehicle) (now : Q) :
  vehicle_ok v -> vehicle_ok (Vehicle.move v now).
Proof.
  intros [Hp H]. destruct (move_speed v now) as [E1 [E2 [E3 E4]]].
  unfold vehicle_ok. rewrite E1, E2, E3, E4.
  split; [now apply move_position | exact H].
Qed.

Lemma set_exit_time_ok (v : Vehicle) (t : option Q) :
  vehicle_ok v -> vehicle_ok (Vehicle.set_exit_time v t).
Proof. unfold vehicle_ok; simpl; auto. Qed.

Lemma front_scan_total (vehicle : Vehicle) (others : list Vehicle) :
  position vehicle <> None -> Forall vehicle_ok others ->
  forall min_dist, exists front,
    Intersection.front_scan vehicle others min_dist = Some front.
Proof.
  intros Hp Hall.
  induction Hall as [|other rest Ho Hrest IH]; intro min_dist; simpl;
    [eauto|].
  destruct (negb (id other =? id vehicle)%Z && _); [|apply IH].
  destruct (position vehicle) as [[vx vy]|]; [|congruence].
  destruct Ho as [Ho _].
  destruct (position other) as [[ox oy]|]; [|congruence].
  destruct (_ && _); apply IH.
Qed.

Lemma collision_scan_total (vehicle : Vehicle) (others : list Vehicle) :
  position vehicle <> None -> Forall vehicle_ok others ->
  exists hit, Intersection.collision_scan vehicle others = Some hit.
Proof.
  intros Hp Hall.
  induction Hall as [|other rest Ho Hrest IH]; simpl; [eauto|].
  destruct (negb (id other =? id vehicle)%Z); [|apply IH].
  destruct (position vehicle) as [[vx vy]|]; [|congruence].
  destruct Ho as [Ho _].
  destruct (position other) as [[ox oy]|]; [|congruence].
  destruct (Qltb _ 4); [eauto | apply IH].
Qed.

Lemma check_exit_total (self : Intersection) (v : Vehicle) :
  position v <> None -> exists b, Intersection.check_exit self v = Some b.
Proof.
  unfold Intersection.check_exit.
  destruct (position v) as [[x y]|]; [eauto | congruence].
Qed.

(** One round of the vehicle loop returns on a well-formed simulation,
    and keeps it well formed. *)
Lemma update_vehicle_total (env : TickEnv) (i : nat) (self : Intersection)
    (tr : list nat) :
  Forall vehicle_ok (vehicles self) ->
  (0 <= throughput (stats self))%Z ->
  (i < length (vehicles self))%nat ->
  exists self' tr',
    Intersection.update_vehicle env i (self, tr) = Some (self', tr')
    /\ Forall vehicle_ok (vehicles self')
    /\ (0 <= throughput (stats self'))%Z
    /\ length (vehicles self') = length (vehicles self).
Proof.
  intros Hall Hthr Hi. unfold Intersection.update_vehicle.
  destruct (nth_error (vehicles self) i) as [vehicle|] eqn:En;
    [| apply nth_error_None in En; lia].
  assert (Hok : vehicle_ok vehicle).
  { rewrite Forall_forall in Hall. apply Hall.
    eapply nth_error_In; eauto. }
  assert (Hp : position vehicle <> None) by apply Hok.
  unfold Intersection.get_distance_to_light at 1.
  destruct (position vehicle) as [[x y]|] eqn:Epos; [clear Hp|congruence].
  assert (Hp : position vehicle <> None) by congruence.
  destruct (front_scan_total vehicle (vehicles self) Hp Hall None)
    as [front Ef].
  unfold Intersection.get_front_vehicle_distance. rewrite Ef.
  match goal with
  | |- context [Vehicle.update_speed vehicle front ?ls ?ld ?r] =>
      destruct (update_speed_ok vehicle front ls ld r Hok)
        as [sped [Es Hsped]]; rewrite Es
  end.
  pose proof (move_ok sped (move_clock env i) Hsped) as Hmoved.
  set (moved := Vehicle.move sped (move_clock env i)) in *.
  assert (Hall1 : Forall vehicle_ok (list_set i moved (vehicles self)))
    by (apply Forall_list_set; assumption).
  assert (Hall2 : Forall vehicle_ok
            (list_set i
               (Vehicle.set_exit_time moved (Some (exit_clock env i)))
               (list_set i moved (vehicles self)))).
  { apply Forall_list_set; [assumption|]. now apply set_exit_time_ok. }
  unfold Intersection.check_collision. cbv zeta.
  destruct (collision_scan_total moved
              (vehicles (Intersection.set_vehicles self
                           (list_set i moved (vehicles self))))
              (proj1 Hmoved) Hall1) as [hit Eh].
  rewrite Eh. destruct hit.
  - eexists; eexists. split; [reflexivity|]. simpl.
    rewrite !length_list_set. auto.
  - destruct (check_exit_total
                (Intersection.set_vehicles self
                   (list_set i moved (vehicles self)))
                moved (proj1 Hmoved)) as [out Ex].
    rewrite Ex. destruct out.
    + unfold Intersection.record_exit. simpl.
      destruct (Z.eqb_spec (throughput (stats self) + 1) 0); [lia|].
      eexists; eexists. split; [reflexivity|]. simpl.
      rewrite !length_list_set. repeat split; auto. lia.
    + eexists; eexists. split; [reflexivity|]. simpl.
      rewrite !length_list_set. auto.
Qed.

Lemma update_vehicles_total (env : TickEnv) (self : Intersection) :
  Forall vehicle_ok (vehicles self) ->
  (0 <= throughput (stats self))%Z ->
  exists self' tr,
    Intersection.update_vehicles env self = Some (self', tr)
    /\ Forall vehicle_ok (vehicles self')
    /\ (0 <= throughput (stats self'))%Z.
Proof.
  intros Hall Hthr. unfold Intersection.update_vehicles.
  pose (P := fun (i : nat) (st : Intersection * list nat) =>
    Forall vehicle_ok (vehicles (fst st))
    /\ (0 <= throughput (stats (fst st)))%Z
    /\ length (vehicles (fst st)) = length (vehicles self)).
  destruct (for_each_seq_total (Intersection.update_vehicle env) P
              (length (vehicles self)) 0%nat (self, []))
    as [[self' tr] [Hrun [H1 [H2 _]]]].
  - intros i [s t] Hi [H1 [H2 H3]]. simpl in *.
    destruct (update_vehicle_total env i s t H1 H2) as [s' [t' [E H]]];
      [lia|].
    exists (s', t'). split; [exact E|]. unfold P; simpl.
    destruct H as [H4 [H5 H6]]. repeat split; auto. congruence.
  - unfold P; simpl. auto.
  - exists self', tr. auto.
Qed.

(** On a well-formed world [update] returns a well-formed world. *)
Lemma update_total (env : TickEnv) (w : World) :
  world_ok w ->
  exists w', Intersection.update env w = Some w' /\ world_ok w'.
Proof.
  intros [Hall Hthr].
  destruct (spawned_spec env w) as [_ [_ [Ethr [_ Hspawn]]]].
  simpl in Ethr, Hspawn.
  assert (Hall1 : Forall vehicle_ok
                    (vehicles (sim (Intersection.spawned env w)))).
  { destruct Hspawn as [[-> _] | [v [-> [Hv _]]]]; [exact Hall|].
    apply Forall_app. split; [exact Hall|].
    constructor; [exact Hv | constructor]. }
  destruct (update_vehicles_total env _ Hall1) as [self [tr [Eloop [H1 H2]]]];
    [rewrite Ethr; exact Hthr|].
  destruct (update_vehicles_frame _ _ _ _ Eloop)
    as [Hlen [_ [_ [_ [_ [Hrange [Hnodup _]]]]]]].
  pose proof (descending_sorted_reverse _ Hnodup) as Hdesc.
  destruct (remove_vehicles_total (sorted_reverse tr) self Hdesc)
    as [self2 Erem].
  { rewrite Forall_forall in Hrange. apply Forall_forall. intros j Hj.
    apply (proj1 (in_sorted_reverse j tr)) in Hj.
    rewrite Hlen. now apply Hrange. }
  destruct (remove_vehicles_spec _ _ _ Hdesc Erem)
    as [[Hst _] [_ [Hkept _]]].
  assert (Hall2 : Forall vehicle_ok (vehicles self2)).
  { rewrite Forall_forall in H1. apply Forall_forall. intros u Hu.
    destruct (Hkept u Hu) as [k [_ Hk]]. apply H1.
    eapply nth_error_In; eauto. }
  destruct (queue_scan_total self2 (vehicles self2) Hall2 (fun _ => 0%Z))
    as [queues Eq].
  unfold Intersection.update. rewrite Eloop, Erem.
  unfold Intersection._record_queue_lengths. rewrite Eq.
  eexists. split; [reflexivity|].
  unfold world_ok; simpl. split; [exact Hall2|]. now rewrite Hst.
Qed.

Lemma reachable_ok (w : World) : reachable w -> world_ok w.
Proof.
  induction 1 as [next rl lw sr | env w w' Hw IH Hup].
  - split; simpl; [constructor | lia].
  - destruct (update_total env w IH) as [w'' [E Hok]]. congruence.
Qed.

(** ** Exits *)


Lemma move_fields (v : Vehicle) (now : Q) :
  id (Vehicle.move v now) = id v
  /\ direction (Vehicle.move v now) = direction v
  /\ entry_time (Vehicle.move v now) = entry_time v.
Proof.
  unfold Vehicle.move.
  destruct (position v) as [[x y]|]; [destruct (direction v) eqn:Ed|];
    simpl;
    match goal with |- context [Qeq_bool ?a ?b] => destruct (Qeq_bool a b) end;
    simpl; repeat split; congruence.
Qed.


(** The vehicle loop changes vehicles in place: the vehicle at an index
    after the loop is the vehicle that was there before, with the same id,
    direction and entry_time. *)
Lemma update_vehicles_identity (env : TickEnv) (self self' : Intersection)
    (tr : list nat) :
  Intersection.update_vehicles env self = Some (self', tr) ->
  forall j v,
    nth_error (vehicles self') j = Some v ->
    exists u,
      nth_error (vehicles self) j = Some u
      /\ id v = id u /\ direction v = direction u
      /\ entry_time v = entry_time u.
Proof.
  unfold Intersection.update_vehicles. intro Hrun.
  pose (P := fun (i : nat) (st : Intersection * list nat) =>
    forall j v,
      nth_error (vehicles (fst st)) j = Some v ->
      exists u,
        nth_error (vehicles self) j = Some u
        /\ id v = id u /\ direction v = direction u
        /\ entry_time v = entry_time u).
  apply (for_each_seq_inv (Intersection.update_vehicle env) P
           (length (vehicles self)) 0%nat (self, []) (self', tr));
    [| unfold P; simpl; intros j v Hn; exists v; auto | exact Hrun].
  intros i [s t] [s' t'] Hi HP Hbody. unfold P in *; simpl in *.
  destruct (update_vehicle_cases _ _ _ _ _ _ Hbody)
    as [vehicle [front [dist [sped [Hv [_ [Hs Hcases]]]]]]].
  cbv zeta in Hcases.
  destruct (update_speed_fields _ _ _ _ _ _ Hs)
    as [E1 [E2 [_ [_ [_ [_ E3]]]]]].
  destruct (move_fields sped (move_clock env i)) as [F1 [F2 F3]].
  destruct (HP i vehicle Hv) as [u0 [Hu0 [I1 [I2 I3]]]].
  assert (Hlt : (i < length (vehicles s))%nat).
  { apply nth_error_Some. congruence. }
  assert (Hnew : forall X j v,
            id X = id u0 -> direction X = direction u0 ->
            entry_time X = entry_time u0 ->
            nth_error (list_set i X (vehicles s)) j = Some v ->
            exists u,
              nth_error (vehicles self) j = Some u
              /\ id v = id u /\ direction v = direction u
              /\ entry_time v = entry_time u).
  { intros X j v X1 X2 X3 Hn. destruct (Nat.eq_dec j i) as [->|Hne].
    - rewrite nth_error_list_set_eq in Hn by exact Hlt.
      injection Hn as <-. exists u0. auto.
    - rewrite nth_error_list_set_neq in Hn by lia. now apply HP. }
  destruct Hcases as [[-> ->] | [[_ [-> [st' [_ ->]]]] | [_ [-> ->]]]];
    simpl; intros j v Hn; apply (Hnew _ j v) in Hn; auto; simpl;
    congruence.
Qed.




Lemma throughput_le_total_witness :
  exists w1,
    Intersection.update spawn_tick empty_world = Some w1
    /\ (throughput (stats (sim w1)) <= total_vehicles (stats (sim w1)))%Z.
Proof.
  eexists. split; [vm_compute; reflexivity|].
  apply throughput_le_total.
  apply (reachable_update spawn_tick empty_world);
    [apply reachable_init | vm_compute; reflexivity].
Defined.

Lemma Direction_eqb_eq (a b : Direction) :
  Direction_eqb a b = true <-> a = b.
Proof. destruct a, b; simpl; split; congruence. Qed.

Lemma filter_length_le {A} (f g : A -> bool) (l : list A) :
  (forall x, In x l -> f x = true -> g x = true) ->
  (length (filter f l) <= length (filter g l))%nat.
Proof.
  induction l as [|x t IH]; intro H; simpl; [lia|].
  assert (IH' : (length (filter f t) <= length (filter g t))%nat).
  { apply IH. intros y Hy. apply H. now right. }
  destruct (f x) eqn:Ef.
  - rewrite (H x (or_introl eq_refl) Ef). simpl. lia.
  - destruct (g x); simpl; lia.
Qed.

(** A waiting vehicle passes the test of the counting loop; a vehicle that
    passes the test and is not past its stop line is waiting. *)
Lemma waiting_queued (self : Intersection) (d : Direction) (v : Vehicle) :
  waiting self d v = true -> queued self d v = true.
Proof.
  unfold waiting, queued.
  destruct (Direction_eqb d (direction v)); [|discriminate].
  destruct (Intersection.get_distance_to_light self v) as [dist|];
    [|discriminate].
  destruct (Qeq_bool (speed v) 0); [|now rewrite !andb_false_r].
  destruct (Qle_bool 0 dist); simpl; [auto | discriminate].
Qed.

Lemma queued_waiting (self : Intersection) (d : Direction) (v : Vehicle) :
  (forall dist,
      direction v = d -> speed v == 0 ->
      Intersection.get_distance_to_light self v = Some dist -> 0 <= dist) ->
  queued self d v = waiting self d v.
Proof.
  intro H. unfold waiting, queued.
  destruct (Direction_eqb d (direction v)) eqn:Ed; [|reflexivity].
  apply Direction_eqb_eq in Ed.
  destruct (Intersection.get_distance_to_light self v) as [dist|];
    [|reflexivity].
  destruct (Qeqb_spec (speed v) 0) as [Es|Es];
    [|now rewrite !andb_false_r].
  assert (E : Qle_bool 0 dist = true).
  { apply Qle_bool_iff. apply H; auto. }
  rewrite E. reflexivity.
Qed.

(** C8, as the code behaves: from every world that a run reaches, a call
    of update returns and appends exactly one sample to the queue_lengths
    sequence of each direction (whether or not a vehicle was spawned or
    removed).  The sample of a direction is at least the number of
    vehicles active after the call that travel in that direction, have
    speed 0 and stand before their stop line at a distance [dist] with
    0 <= dist < 30 (30 itself excluded); it is equal to that number when no
    stopped active vehicle of that direction is past its stop line. *)
Theorem queue_sample_every_update (env : TickEnv) (w : World) :
  reachable w ->
  exists w',
    Intersection.update env w = Some w'
    /\ forall d,
        exists sample,
          queue_lengths (stats (sim w')) d
          = queue_lengths (stats (sim w)) d ++ [sample]
          /\ (waiting_count (sim w') d <= sample)%Z
          /\ ((forall v dist,
                  In v (vehicles (sim w')) ->
                  direction v = d -> speed v == 0 ->
                  Intersection.get_distance_to_light (sim w') v = Some dist ->
                  0 <= dist) ->
              sample = waiting_count (sim w') d).
Proof.
  intro Hreach.
  destruct (update_total env w (reachable_ok w Hreach)) as [w' [Hup _]].
  exists w'. split; [exact Hup|]. intro d.
  exists (queue_count (sim w') d). split; [|split].
  - destruct (update_stages _ _ _ Hup)
      as [self [tr [self2 [self3 [Hloop [Hrem [Hrec <-]]]]]]].
    destruct (spawned_spec env w) as [_ [_ [_ [Eq _]]]]. simpl in Eq.
    destruct (update_vehicles_frame _ _ _ _ Hloop)
      as [_ [_ [_ [_ [Hq [_ [Hnodup _]]]]]]].
    destruct (remove_vehicles_spec _ _ _
                (descending_sorted_reverse _ Hnodup) Hrem) as [[Hst _] _].
    destruct (record_queue_lengths_spec _ _ Hrec)
      as [_ [_ [_ [_ [_ [Hsample Hcount]]]]]].
    rewrite Hsample, Hcount, Hst, Hq, Eq. reflexivity.
  - unfold waiting_count, queue_count. apply inj_le.
    apply filter_length_le. intros v _. apply waiting_queued.
  - intro Hline. unfold waiting_count, queue_count. do 2 f_equal.
    apply filter_ext_in. intros v Hv. apply queued_waiting.
    intros dist Hd Hs Hdist. exact (Hline v dist Hv Hd Hs Hdist).
Qed.

Lemma queue_sample_every_update_witness :
  exists w',
    Intersection.update spawn_tick empty_world = Some w'
    /\ forall d,
        exists sample,
          queue_lengths (stats (sim w')) d
          = queue_lengths (stats (sim empty_world)) d ++ [sample]
          /\ (waiting_count (sim w') d <= sample)%Z
          /\ ((forall v dist,
                  In v (vehicles (sim w')) ->
                  direction v = d -> speed v == 0 ->
                  Intersection.get_distance_to_light (sim w') v = Some dist ->
                  0 <= dist) ->
              sample = waiting_count (sim w') d).
Proof.
  apply (queue_sample_every_update spawn_tick empty_world).
  apply reachable_init.
Defined.

(** C8 as stated fails, in two ways.  On the road of length 200, a
    north-bound vehicle spawned at the first tick brakes for the yellow and
    red light after it has passed its stop line; after 33 calls of update
    it stands 41 units past the line with speed 0: no north-bound vehicle
    is within 30 units of its stop line, and the sample appended for north
    is 1.  On the road of length 60, a north-bound vehicle that is spawned
    30 units before its stop line and stays there with speed 0 is within 30
    units of the line, and the sample appended for north is 0. *)
Lemma queue_sample_counterexample :
  (exists w w',
      run (spawn_tick :: repeat (quiet_tick 0) 31) empty_world = Some w
      /\ Intersection.update (quiet_tick 0) w = Some w'
      /\ queue_lengths (stats (sim w')) north
         = queue_lengths (stats (sim w)) north ++ [1%Z]
      /\ within_30_count (sim w') north = 0%Z)
  /\ (exists w',
        Intersection.update hesitant_tick short_world = Some w'
        /\ queue_lengths (stats (sim w')) north
           = queue_lengths (stats (sim short_world)) north ++ [0%Z]
        /\ within_30_count (sim w') north = 1%Z).
Proof.
  split.
  - eexists; eexists.
    split; [vm_compute; reflexivity|].
    split; [vm_compute; reflexivity|].
    split; vm_compute; reflexivity.
  - eexists.
    split; [vm_compute; reflexivity|].
    split; vm_compute; reflexivity.
Qed.

(** In every world that a run reaches, every active vehicle has a speed
    between 0 and its max_speed (the speed bounds of C1 at every tick). *)
Lemma reachable_speed_bounds (w : World) :
  reachable w ->
  Forall (fun v => 0 <= speed v <= max_speed v) (vehicles (sim w)).
Proof.
  intro H. destruct (reachable_ok w H) as [Hall _].
  rewrite Forall_forall in *. intros v Hv. apply (Hall v Hv).
Qed.

(** * Further properties *)

(** ** The cycle of a light *)

Lemma at_phase_self (l : TrafficLight) : at_phase l (state l) (timer l) = l.
Proof. destruct l; reflexivity. Qed.

(** One [update]: the light stays in its phase while the incremented timer
    is below the duration of the phase, and otherwise moves to the next
    phase with timer 0. *)
Lemma update_step (l : TrafficLight) :
  ((timer l + 1 < phase_duration l)%Z
   /\ TrafficLight.update l = at_phase l (state l) (timer l + 1))
  \/ ((phase_duration l <= timer l + 1)%Z
      /\ TrafficLight.update l = at_phase l (next_phase (state l)) 0).
Proof.
  unfold TrafficLight.update, phase_duration, at_phase,
    TrafficLight.switch, TrafficLight.tick; simpl.
  destruct (state l); simpl;
    match goal with
    | |- context [(?a <=? ?b)%Z] => destruct (Z.leb_spec a b)
    end; simpl; auto.
Qed.

Lemma updates_add (a b : nat) (l : TrafficLight) :
  TrafficLight.updates (a + b) l
  = TrafficLight.updates a (TrafficLight.updates b l).
Proof. induction a as [|a IH]; simpl; [reflexivity | now rewrite IH]. Qed.

(** While the timer stays below the duration, [k] updates only count. *)
Lemma updates_stay (k : nat) (l : TrafficLight) :
  (timer l + Z.of_nat k < phase_duration l)%Z ->
  TrafficLight.updates k l = at_phase l (state l) (timer l + Z.of_nat k).
Proof.
  induction k as [|k IH]; intro H.
  - simpl. rewrite Z.add_0_r. symmetry. apply at_phase_self.
  - simpl TrafficLight.updates. rewrite IH by lia.
    destruct (update_step (at_phase l (state l) (timer l + Z.of_nat k)))
      as [[_ E] | [Hge _]].
    + rewrite E. unfold at_phase; simpl. f_equal. lia.
    + unfold phase_duration, at_phase in *; simpl in *. lia.
Qed.

(** A phase entered with timer 0 lasts exactly its duration. *)
Lemma updates_phase (l : TrafficLight) :
  timer l = 0%Z -> (0 < phase_duration l)%Z ->
  TrafficLight.updates (Z.to_nat (phase_duration l)) l
  = at_phase l (next_phase (state l)) 0.
Proof.
  intros Ht Hd.
  replace (Z.to_nat (phase_duration l))
    with (S (Z.to_nat (phase_duration l - 1))) by lia.
  simpl TrafficLight.updates. rewrite updates_stay by lia.
  destruct (update_step
              (at_phase l (state l)
                 (timer l + Z.of_nat (Z.to_nat (phase_duration l - 1)))))
    as [[Hlt _] | [_ E]].
  - unfold phase_duration, at_phase in *; simpl in *. lia.
  - rewrite E. reflexivity.
Qed.

(** X1: in a light whose three durations are positive and whose timer is
    within the current phase, the timer stays within the current phase
    after any number of updates, so the remaining time reported is always
    between 1 and the duration of the phase. *)
Theorem remaining_time_positive (l : TrafficLight) (n : nat) :
  (0 < green_duration l)%Z -> (0 < yellow_duration l)%Z ->
  (0 < red_duration l)%Z ->
  (0 <= timer l < phase_duration l)%Z ->
  let l' := TrafficLight.updates n l in
  (0 <= timer l' < phase_duration l')%Z
  /\ (0 < TrafficLight.get_remaining_time l' <= phase_duration l')%Z.
Proof.
  intros Hg Hy Hr Ht.
  assert (Hinv : (0 < green_duration (TrafficLight.updates n l))%Z
                 /\ (0 < yellow_duration (TrafficLight.updates n l))%Z
                 /\ (0 < red_duration (TrafficLight.updates n l))%Z
                 /\ (0 <= timer (TrafficLight.updates n l)
                      < phase_duration (TrafficLight.updates n l))%Z).
  { induction n as [|n IH]; simpl; [auto|].
    destruct IH as [Hg' [Hy' [Hr' Ht']]].
    set (m := TrafficLight.updates n l) in *.
    destruct (update_durations m) as [_ [Eg [Ey Er]]].
    rewrite Eg, Ey, Er. repeat (split; [assumption|]).
    destruct (update_step m) as [[Hlt E] | [Hge E]]; rewrite E;
      unfold phase_duration, at_phase in *; simpl.
    - lia.
    - destruct (state m); simpl; lia. }
  destruct Hinv as [_ [_ [_ Ht']]]. cbv zeta. split; [exact Ht'|].
  unfold TrafficLight.get_remaining_time, phase_duration in *.
  destruct (state (TrafficLight.updates n l)); lia.
Qed.

Lemma remaining_time_positive_witness :
  let l' := TrafficLight.updates 45 (TrafficLight.init 60 0.5) in
  (0 <= timer l' < phase_duration l')%Z
  /\ (0 < TrafficLight.get_remaining_time l' <= phase_duration l')%Z.
Proof.
  apply (remaining_time_positive (TrafficLight.init 60 0.5) 45);
    vm_compute; repeat split; congruence.
Defined.

(** X2: a light with positive durations that is green with timer 0 is
    green during the first green_duration updates, yellow during the next
    yellow_duration and red during the next red_duration, the timer
    counting the updates spent in the phase. *)
Theorem light_schedule (l : TrafficLight) (k : Z) :
  state l = green -> timer l = 0%Z ->
  (0 < green_duration l)%Z -> (0 < yellow_duration l)%Z ->
  (0 < red_duration l)%Z ->
  (0 <= k < green_duration l + yellow_duration l + red_duration l)%Z ->
  TrafficLight.updates (Z.to_nat k) l
  = if (k <? green_duration l)%Z then at_phase l green k
    else if (k <? green_duration l + yellow_duration l)%Z
         then at_phase l yellow (k - green_duration l)
         else at_phase l red (k - green_duration l - yellow_duration l).
Proof.
  intros Hs Ht Hg Hy Hr Hk.
  assert (E1 : TrafficLight.updates (Z.to_nat (green_duration l)) l
               = at_phase l yellow 0).
  { pose proof (updates_phase l Ht) as H.
    unfold phase_duration in H. rewrite Hs in H. now apply H. }
  assert (E2 : TrafficLight.updates (Z.to_nat (yellow_duration l))
                 (at_phase l yellow 0)
               = at_phase l red 0).
  { apply (updates_phase (at_phase l yellow 0)); [reflexivity | exact Hy]. }
  destruct (Z.ltb_spec k (green_duration l)) as [H1|H1].
  - rewrite updates_stay.
    + rewrite Hs, Ht. f_equal. lia.
    + unfold phase_duration. rewrite Hs, Ht. lia.
  - destruct (Z.ltb_spec k (green_duration l + yellow_duration l))
      as [H2|H2].
    + replace (Z.to_nat k)
        with (Z.to_nat (k - green_duration l)
              + Z.to_nat (green_duration l))%nat by lia.
      rewrite updates_add, E1, updates_stay.
      * unfold at_phase; simpl. f_equal. lia.
      * unfold phase_duration, at_phase; simpl. lia.
    + replace (Z.to_nat k)
        with (Z.to_nat (k - green_duration l - yellow_duration l)
              + (Z.to_nat (yellow_duration l)
                 + Z.to_nat (green_duration l)))%nat by lia.
      rewrite updates_add, updates_add, E1, E2, updates_stay.
      * unfold at_phase; simpl. f_equal. lia.
      * unfold phase_duration, at_phase; simpl. lia.
Qed.

Lemma light_schedule_witness :
  TrafficLight.updates (Z.to_nat 31) (TrafficLight.init 60 0.5)
  = at_phase (TrafficLight.init 60 0.5) yellow 1.
Proof.
  apply (light_schedule (TrafficLight.init 60 0.5) 31);
    vm_compute; repeat split; congruence.
Defined.

(** X3: a light with positive durations whose timer is 0 is back in the
    same phase with timer 0 after green_duration + yellow_duration +
    red_duration updates, whatever its phase; its behaviour is periodic
    with that period. *)
Theorem light_period (l : TrafficLight) (n : nat) :
  timer l = 0%Z ->
  (0 < green_duration l)%Z -> (0 < yellow_duration l)%Z ->
  (0 < red_duration l)%Z ->
  let period :=
    Z.to_nat (green_duration l + yellow_duration l + red_duration l) in
  TrafficLight.updates period l = l
  /\ TrafficLight.updates (n + period) l = TrafficLight.updates n l.
Proof.
  intros Ht Hg Hy Hr. cbv zeta.
  assert (Pg : TrafficLight.updates (Z.to_nat (green_duration l))
                 (at_phase l green 0) = at_phase l yellow 0)
    by exact (updates_phase (at_phase l green 0) eq_refl Hg).
  assert (Py : TrafficLight.updates (Z.to_nat (yellow_duration l))
                 (at_phase l yellow 0) = at_phase l red 0)
    by exact (updates_phase (at_phase l yellow 0) eq_refl Hy).
  assert (Pr : TrafficLight.updates (Z.to_nat (red_duration l))
                 (at_phase l red 0) = at_phase l green 0)
    by exact (updates_phase (at_phase l red 0) eq_refl Hr).
  assert (Hl : l = at_phase l (state l) 0).
  { rewrite <- Ht. symmetry. apply at_phase_self. }
  assert (Hany : forall s,
            TrafficLight.updates
              (Z.to_nat (green_duration l + yellow_duration l
                         + red_duration l)) (at_phase l s 0)
            = at_phase l s 0).
  { intros [| |].
    - replace (Z.to_nat (green_duration l + yellow_duration l
                         + red_duration l))
        with (Z.to_nat (red_duration l)
              + (Z.to_nat (yellow_duration l)
                 + Z.to_nat (green_duration l)))%nat by lia.
      rewrite !updates_add.
      rewrite Pg, Py, Pr. reflexivity.
    - replace (Z.to_nat (green_duration l + yellow_duration l
                         + red_duration l))
        with (Z.to_nat (green_duration l)
              + (Z.to_nat (red_duration l)
                 + Z.to_nat (yellow_duration l)))%nat by lia.
      rewrite !updates_add.
      rewrite Py, Pr, Pg. reflexivity.
    - replace (Z.to_nat (green_duration l + yellow_duration l
                         + red_duration l))
        with (Z.to_nat (yellow_duration l)
              + (Z.to_nat (green_duration l)
                 + Z.to_nat (red_duration l)))%nat by lia.
      rewrite !updates_add.
      rewrite Pr, Pg, Py. reflexivity. }
  assert (Hperiod :
            TrafficLight.updates
              (Z.to_nat (green_duration l + yellow_duration l
                         + red_duration l)) l = l).
  { transitivity (TrafficLight.updates
                    (Z.to_nat (green_duration l + yellow_duration l
                               + red_duration l))
                    (at_phase l (state l) 0)).
    - f_equal. exact Hl.
    - rewrite Hany. symmetry. exact Hl. }
  split; [exact Hperiod|]. now rewrite updates_add, Hperiod.
Qed.

Lemma light_period_witness :
  let l := TrafficLight.set_state (TrafficLight.init 60 0.5) red in
  TrafficLight.updates 60 l = l
  /\ TrafficLight.updates (7 + 60) l = TrafficLight.updates 7 l.
Proof.
  apply (light_period (TrafficLight.set_state (TrafficLight.init 60 0.5) red)
           7);
    vm_compute; congruence.
Defined.

(** X4: for a cycle that is not negative and a green ratio between 0 and
    1, the constructor of a light gives a green duration between 0 and the
    cycle, a yellow duration of 3 and the rest of the cycle as red
    duration (which is negative when the green duration exceeds
    cycle - 3); the light starts green with timer 0. *)
Theorem init_durations (c : Z) (ratio : Q) :
  (0 <= c)%Z -> 0 <= ratio <= 1 ->
  let l := TrafficLight.init c ratio in
  (0 <= green_duration l <= c)%Z
  /\ yellow_duration l = 3%Z
  /\ red_duration l = (c - green_duration l - 3)%Z
  /\ (green_duration l + yellow_duration l + red_duration l = cycle l)%Z
  /\ state l = green /\ timer l = 0%Z.
Proof.
  intros Hc [H0 H1]. cbv zeta.
  unfold TrafficLight.init; simpl.
  repeat split; try lia.
  - unfold py_int. simpl. apply Z.quot_pos; [|lia].
    unfold Qle in H0; simpl in H0. nia.
  - unfold py_int. simpl. apply Z.quot_le_upper_bound; [lia|].
    unfold Qle in H1; simpl in H1. nia.
Qed.

Lemma init_durations_witness :
  let l := TrafficLight.init 90 (2 # 3) in
  (0 <= green_duration l <= 90)%Z
  /\ yellow_duration l = 3%Z
  /\ red_duration l = (90 - green_duration l - 3)%Z
  /\ (green_duration l + yellow_duration l + red_duration l = cycle l)%Z
  /\ state l = green /\ timer l = 0%Z.
Proof.
  apply (init_durations 90 (2 # 3)); [lia | split; vm_compute; congruence].
Defined.

(** ** The speed rules *)


(** X6: for a vehicle with a speed and an acceleration that are not
    negative and a positive deceleration, one [update_speed] raises the
    speed by at most the acceleration: the steps after the acceleration
    step never increase the speed. *)
Theorem speed_gain_bounded (v : Vehicle) (front : option Q)
    (light_state : LightState) (light_dist r : Q) :
  0 <= speed v -> 0 <= acceleration v -> 0 < deceleration v ->
  exists v',
    Vehicle.update_speed v front light_state light_dist r = Some v'
    /\ 0 <= speed v' <= Vehicle.accelerate v
    /\ Vehicle.accelerate v <= speed v + acceleration v.
Proof.
  intros Hs Ha Hd.
  assert (H1 : 0 <= Vehicle.accelerate v
               /\ Vehicle.accelerate v <= speed v + acceleration v).
  { unfold Vehicle.accelerate. qcase; [|lra]. minmax; lra. }
  pose proof (follow_bounds (Vehicle.accelerate v) front (proj1 H1)) as H2.
  destruct (brake_bounds (deceleration v) (Vehicle.accelerate v)
              (Vehicle.follow (Vehicle.accelerate v) front)
              light_state light_dist Hd (proj1 H2)) as [s3 [E3 H3]].
  pose proof (fluctuate_bounds s3 r (proj1 H3)) as H4.
  unfold Vehicle.update_speed. rewrite E3.
  eexists; split; [reflexivity|]. simpl. lra.
Qed.

Lemma speed_gain_bounded_witness :
  exists v',
    Vehicle.update_speed slow_vehicle (Some 3) red 1 0 = Some v'
    /\ 0 <= speed v' <= Vehicle.accelerate slow_vehicle
    /\ Vehicle.accelerate slow_vehicle
       <= speed slow_vehicle + acceleration slow_vehicle.
Proof.
  apply (speed_gain_bounded slow_vehicle (Some 3) red 1 0);
    vm_compute; congruence.
Defined.

(** On a green light without a vehicle ahead and without random
    slow-down, [update_speed] is the acceleration step alone. *)
Lemma update_speed_free (v : Vehicle) (light_dist r : Q) :
  0.1 <= r ->
  Vehicle.update_speed v None green light_dist r
  = Some (Vehicle.set_speed v (Vehicle.accelerate v)).
Proof.
  intro Hr. unfold Vehicle.update_speed, Vehicle.brake, Vehicle.follow,
    Vehicle.fluctuate.
  destruct (Qltb_spec r 0.1); [lra | reflexivity].
Qed.

(** X7: on a free road (no vehicle ahead, green light, no random
    slow-down) a vehicle that starts at speed 0 has, after [n] calls of
    [update_speed], the speed min(n * acceleration, max_speed). *)
Theorem free_flow_speed (n : nat) (light_dist r : nat -> Q) (v : Vehicle) :
  speed v == 0 -> 0 < acceleration v -> 0 <= max_speed v ->
  (forall k, 0.1 <= r k) ->
  exists v',
    free_flow n light_dist r v = Some v'
    /\ speed v'
       == Qmin (inject_Z (Z.of_nat n) * acceleration v) (max_speed v).
Proof.
  intros Hs Ha Hm Hr.
  assert (Hinv : exists v',
            free_flow n light_dist r v = Some v'
            /\ acceleration v' = acceleration v
            /\ max_speed v' = max_speed v
            /\ speed v'
               == Qmin (inject_Z (Z.of_nat n) * acceleration v)
                    (max_speed v)).
  { induction n as [|n IH].
    - exists v. simpl. repeat split; auto.
      destruct (Q.min_spec (0 * acceleration v) (max_speed v))
        as [[H0 E] | [H0 E]]; rewrite E; lra.
    - destruct IH as [vn [En [Ea [Em Esp]]]].
      simpl free_flow. rewrite En, update_speed_free by apply Hr.
      eexists. split; [reflexivity|].
      split; [exact Ea|]. split; [exact Em|].
      change (speed (Vehicle.set_speed vn (Vehicle.accelerate vn)))
        with (Vehicle.accelerate vn).
      rewrite Nat2Z.inj_succ. unfold Z.succ. rewrite inject_Z_plus.
      unfold Vehicle.accelerate. rewrite Ea, Em.
      change (inject_Z 1) with 1.
      destruct (Q.min_spec (inject_Z (Z.of_nat n) * acceleration v)
                  (max_speed v)) as [[H1 E1] | [H1 E1]];
        rewrite E1 in Esp;
        destruct (Q.min_spec
                    ((inject_Z (Z.of_nat n) + 1) * acceleration v)
                    (max_speed v)) as [[H2 E2] | [H2 E2]];
        rewrite E2; qcase; minmax; lra. }
  destruct Hinv as [v' [E [_ [_ H]]]]. eauto.
Qed.

Lemma free_flow_speed_witness :
  exists v',
    free_flow 3 (fun _ => 100) (fun _ => 0.5) fresh_vehicle = Some v'
    /\ speed v'
       == Qmin (inject_Z (Z.of_nat 3) * acceleration fresh_vehicle)
            (max_speed fresh_vehicle).
Proof.
  apply (free_flow_speed 3 (fun _ => 100) (fun _ => 0.5) fresh_vehicle).
  - reflexivity.
  - reflexivity.
  - vm_compute; congruence.
  - intro k. vm_compute; congruence.
Defined.

(** ** Movement and distances *)

(** X8: [move] of a placed vehicle appends the old position with the clock
    to the path and brings the vehicle nearer to its light by exactly its
    speed (whatever the direction); the wait_time grows by one exactly when
    the speed is 0. *)
Theorem move_advances (self : Intersection) (v : Vehicle) (now x y : Q) :
  position v = Some (x, y) ->
  exists d d',
    Intersection.get_distance_to_light self v = Some d
    /\ Intersection.get_distance_to_light self (Vehicle.move v now)
       = Some d'
    /\ d' == d - speed v
    /\ path (Vehicle.move v now) = path v ++ [(x, y, now)]
    /\ wait_time (Vehicle.move v now)
       = (wait_time v + if Qeq_bool (speed v) 0 then 1 else 0)%Z.
Proof.
  intro Hp. unfold Intersection.get_distance_to_light, Vehicle.move.
  rewrite Hp.
  destruct (direction v) eqn:Ed; simpl;
    destruct (Qeq_bool (speed v) 0); simpl; rewrite ?Ed;
    eexists; eexists; (split; [reflexivity|]); (split; [reflexivity|]);
    (split; [ring|]); (split; [reflexivity|]); lia.
Qed.

Lemma move_advances_witness :
  exists d d',
    Intersection.get_distance_to_light (sim three_leaving) (cruising 0 199)
    = Some d
    /\ Intersection.get_distance_to_light (sim three_leaving)
         (Vehicle.move (cruising 0 199) 5) = Some d'
    /\ d' == d - speed (cruising 0 199)
    /\ path (Vehicle.move (cruising 0 199) 5)
       = path (cruising 0 199) ++ [(100, 199, 5)]
    /\ wait_time (Vehicle.move (cruising 0 199) 5)
       = (wait_time (cruising 0 199)
          + if Qeq_bool (speed (cruising 0 199)) 0 then 1 else 0)%Z.
Proof.
  apply (move_advances (sim three_leaving) (cruising 0 199) 5 100 199).
  reflexivity.
Defined.

(** The scan of [get_front_vehicle_distance] with its running minimum. *)
Lemma front_scan_spec (vehicle : Vehicle) (others : list Vehicle) :
  forall acc res,
    Intersection.front_scan vehicle others acc = Some res ->
    (res = None ->
       acc = None
       /\ forall other d, In other others -> ~ ahead vehicle other d)
    /\ (forall m, res = Some m ->
          (forall a, acc = Some a -> m <= a)
          /\ (forall other d,
                In other others -> ahead vehicle other d -> m <= d)
          /\ (acc = Some m
              \/ exists other, In other others /\ ahead vehicle other m)).
Proof.
  induction others as [|other rest IH]; intros acc res H; simpl in H.
  - injection H as <-. split.
    + intros ->. split; [reflexivity | intros ? ? []].
    + intros m ->. split; [|split].
      * intros a Ha. injection Ha as <-. lra.
      * intros ? ? [].
      * left; reflexivity.
  - destruct (negb (id other =? id vehicle)%Z
              && Direction_eqb (direction other) (direction vehicle))
      eqn:Esel.
    + apply andb_prop in Esel. destruct Esel as [Eid Edir].
      apply negb_true_iff, Z.eqb_neq in Eid.
      apply Direction_eqb_eq in Edir.
      destruct (position vehicle) as [[vx vy]|] eqn:Epv; [|discriminate].
      destruct (position other) as [[ox oy]|] eqn:Epo; [|discriminate].
      set (dist := match direction vehicle with
                   | north => oy - vy
                   | south => vy - oy
                   | east => ox - vx
                   | west => vx - ox
                   end) in *.
      assert (Hgap : gap vehicle other = Some dist).
      { unfold gap. rewrite Epv, Epo. reflexivity. }
      assert (Hother : forall d, ahead vehicle other d -> d = dist).
      { intros d [_ [_ [Hg _]]]. congruence. }
      destruct (Qltb_spec 0 dist) as [Hpos|Hneg]; simpl in H.
      * destruct acc as [a|].
        -- destruct (Qltb_spec dist a) as [Hlt|Hge].
           ++ destruct (IH _ _ H) as [Hnone Hsome]. split.
              ** intros ->. destruct (Hnone eq_refl) as [Habs _].
                 discriminate.
              ** intros m ->.
                 destruct (Hsome m eq_refl) as [Hacc [Hlow Hatt]].
                 pose proof (Hacc dist eq_refl) as Hmd.
                 split; [|split].
                 --- intros a' Ha'. injection Ha' as <-. lra.
                 --- intros o d [<-|Hin] Hah.
                     +++ rewrite (Hother d Hah). exact Hmd.
                     +++ apply (Hlow o d Hin Hah).
                 --- right. destruct Hatt as [Hatt | [o [Hin Hah]]].
                     +++ injection Hatt as <-. exists other.
                         split; [left; reflexivity|].
                         unfold ahead. auto.
                     +++ exists o. split; [right; exact Hin | exact Hah].
           ++ destruct (IH _ _ H) as [Hnone Hsome]. split.
              ** intros ->. destruct (Hnone eq_refl) as [Habs _].
                 discriminate.
              ** intros m ->.
                 destruct (Hsome m eq_refl) as [Hacc [Hlow Hatt]].
                 pose proof (Hacc a eq_refl) as Hma.
                 split; [|split].
                 --- exact Hacc.
                 --- intros o d [<-|Hin] Hah.
                     +++ rewrite (Hother d Hah). lra.
                     +++ apply (Hlow o d Hin Hah).
                 --- destruct Hatt as [Hatt | [o [Hin Hah]]];
                       [left; exact Hatt|].
                     right. exists o. split; [right; exact Hin | exact Hah].
        -- destruct (IH _ _ H) as [Hnone Hsome]. split.
           ++ intros ->. destruct (Hnone eq_refl) as [Habs _].
              discriminate.
           ++ intros m ->.
              destruct (Hsome m eq_refl) as [Hacc [Hlow Hatt]].
              pose proof (Hacc dist eq_refl) as Hmd.
              split; [|split].
              ** intros a' Ha'. discriminate.
              ** intros o d [<-|Hin] Hah.
                 --- rewrite (Hother d Hah). exact Hmd.
                 --- apply (Hlow o d Hin Hah).
              ** right. destruct Hatt as [Hatt | [o [Hin Hah]]].
                 --- injection Hatt as <-. exists other.
                     split; [left; reflexivity|]. unfold ahead. auto.
                 --- exists o. split; [right; exact Hin | exact Hah].
      * assert (Hnot : forall d, ~ ahead vehicle other d).
        { intros d Hah. pose proof (Hother d Hah) as ->.
          destruct Hah as [_ [_ [_ Hd]]]. lra. }
        destruct (IH _ _ H) as [Hnone Hsome]. split.
        -- intros ->. destruct (Hnone eq_refl) as [-> Hno].
           split; [reflexivity|].
           intros o d [<-|Hin]; [apply Hnot | apply (Hno o d Hin)].
        -- intros m ->.
           destruct (Hsome m eq_refl) as [Hacc [Hlow Hatt]].
           split; [exact Hacc|]. split.
           ++ intros o d [<-|Hin] Hah;
                [destruct (Hnot d Hah) | apply (Hlow o d Hin Hah)].
           ++ destruct Hatt as [Hatt | [o [Hin Hah]]];
                [left; exact Hatt|].
              right. exists o. split; [right; exact Hin | exact Hah].
    + assert (Hnot : forall d, ~ ahead vehicle other d).
      { intros d [Hid [Hdir _]].
        apply andb_false_iff in Esel. destruct Esel as [E|E].
        - apply negb_false_iff, Z.eqb_eq in E. congruence.
        - apply Direction_eqb_eq in Hdir. congruence. }
      destruct (IH _ _ H) as [Hnone Hsome]. split.
      * intros ->. destruct (Hnone eq_refl) as [-> Hno].
        split; [reflexivity|].
        intros o d [<-|Hin]; [apply Hnot | apply (Hno o d Hin)].
      * intros m ->.
        destruct (Hsome m eq_refl) as [Hacc [Hlow Hatt]].
        split; [exact Hacc|]. split.
        -- intros o d [<-|Hin] Hah;
             [destruct (Hnot d Hah) | apply (Hlow o d Hin Hah)].
        -- destruct Hatt as [Hatt | [o [Hin Hah]]];
             [left; exact Hatt|].
           right. exists o. split; [right; exact Hin | exact Hah].
Qed.

(** X9: when [get_front_vehicle_distance] returns a distance, it is the
    positive gap to another vehicle of the same direction and no such
    vehicle is at a smaller positive gap; when it returns [None], no other
    vehicle of the same direction is ahead. *)
Theorem front_distance_is_least_gap (self : Intersection)
    (vehicle : Vehicle) (res : option Q) :
  Intersection.get_front_vehicle_distance self vehicle = Some res ->
  match res with
  | Some m =>
      (exists other, In other (vehicles self) /\ ahead vehicle other m)
      /\ (forall other d,
            In other (vehicles self) -> ahead vehicle other d -> m <= d)
  | None =>
      forall other d, In other (vehicles self) -> ~ ahead vehicle other d
  end.
Proof.
  unfold Intersection.get_front_vehicle_distance. intro H.
  destruct (front_scan_spec _ _ _ _ H) as [Hnone Hsome].
  destruct res as [m|].
  - destruct (Hsome m eq_refl) as [_ [Hlow [Habs | Hatt]]];
      [discriminate|]. split; assumption.
  - apply (Hnone eq_refl).
Qed.

Lemma front_distance_is_least_gap_witness :
  (exists other,
      In other (vehicles (sim three_leaving))
      /\ ahead (cruising 2 189) other 5)
  /\ (forall other d,
        In other (vehicles (sim three_leaving)) ->
        ahead (cruising 2 189) other d -> 5 <= d).
Proof.
  apply (front_distance_is_least_gap (sim three_leaving) (cruising 2 189)
           (Some 5)).
  vm_compute. reflexivity.
Defined.



(** ** Spawning *)

(** X11: when the spawn draw is below the spawn rate, [spawn_vehicle]
    appends one vehicle: it carries the current value of the identifier
    counter (which is then incremented), the drawn direction, speed 0, no
    exit time, and stands on the entry edge of its direction (y = 0 for
    north, y = road_length for south, x = 0 for east, x = road_length for
    west); for a sample between 0 and 1 its other coordinate lies within
    the lane boundaries of that direction (when the lower boundary does
    not exceed the upper one). *)
Theorem spawn_places_vehicle (env : TickEnv) (w : World) :
  spawn_draw env < spawn_rate (sim w) ->
  0 <= uniform_draw env <= 1 ->
  fst (road_boundaries (sim w) (choice_draw env))
  <= snd (road_boundaries (sim w) (choice_draw env)) ->
  exists v x y,
    vehicles (sim (Intersection.spawn_vehicle env w))
    = vehicles (sim w) ++ [v]
    /\ Vehicle_next_id (Intersection.spawn_vehicle env w)
       = (Vehicle_next_id w + 1)%Z
    /\ total_vehicles (stats (sim (Intersection.spawn_vehicle env w)))
       = (total_vehicles (stats (sim w)) + 1)%Z
    /\ id v = Vehicle_next_id w
    /\ direction v = choice_draw env
    /\ speed v = 0 /\ exit_time v = None /\ wait_time v = 0%Z
    /\ position v = Some (x, y)
    /\ let lo := fst (road_boundaries (sim w) (choice_draw env)) in
       let hi := snd (road_boundaries (sim w) (choice_draw env)) in
       match choice_draw env with
       | north => y = 0 /\ lo <= x <= hi
       | south => y = road_length (sim w) /\ lo <= x <= hi
       | east => x = 0 /\ lo <= y <= hi
       | west => x = road_length (sim w) /\ lo <= y <= hi
       end.
Proof.
  intros Hdraw [Hu0 Hu1] Hband.
  unfold Intersection.spawn_vehicle.
  destruct (Qltb_spec (spawn_draw env) (spawn_rate (sim w))) as [_|Hge];
    [|lra].
  simpl. unfold Intersection.uniform.
  assert (Hmid : forall lo hi,
            lo <= hi -> lo <= lo + (hi - lo) * uniform_draw env <= hi)
    by (intros; nra).
  revert Hband.
  destruct (choice_draw env); intro Hband; eexists; eexists; eexists;
    do 9 (split; [reflexivity|]);
    (split; [reflexivity | exact (Hmid _ _ Hband)]).
Qed.

Lemma spawn_places_vehicle_witness :
  exists v x y,
    vehicles (sim (Intersection.spawn_vehicle spawn_tick empty_world))
    = vehicles (sim empty_world) ++ [v]
    /\ Vehicle_next_id (Intersection.spawn_vehicle spawn_tick empty_world)
       = (Vehicle_next_id empty_world + 1)%Z
    /\ total_vehicles
         (stats (sim (Intersection.spawn_vehicle spawn_tick empty_world)))
       = (total_vehicles (stats (sim empty_world)) + 1)%Z
    /\ id v = Vehicle_next_id empty_world
    /\ direction v = choice_draw spawn_tick
    /\ speed v = 0 /\ exit_time v = None /\ wait_time v = 0%Z
    /\ position v = Some (x, y)
    /\ let lo :=
         fst (road_boundaries (sim empty_world) (choice_draw spawn_tick)) in
       let hi :=
         snd (road_boundaries (sim empty_world) (choice_draw spawn_tick)) in
       match choice_draw spawn_tick with
       | north => y = 0 /\ lo <= x <= hi
       | south => y = road_length (sim empty_world) /\ lo <= x <= hi
       | east => x = 0 /\ lo <= y <= hi
       | west => x = road_length (sim empty_world) /\ lo <= y <= hi
       end.
Proof.
  apply (spawn_places_vehicle spawn_tick empty_world).
  - vm_compute; reflexivity.
  - split; vm_compute; congruence.
  - vm_compute; congruence.
Defined.

(** ** The lights of the intersection *)

Lemma same_setup_refl (s : Intersection) : same_setup s s.
Proof. unfold same_setup. repeat split; reflexivity. Qed.

Lemma same_setup_trans (s1 s2 s3 : Intersection) :
  same_setup s1 s2 -> same_setup s2 s3 -> same_setup s1 s3.
Proof. unfold same_setup. intuition congruence. Qed.

Lemma update_vehicles_setup (env : TickEnv) (self self' : Intersection)
    (tr : list nat) :
  Intersection.update_vehicles env self = Some (self', tr) ->
  same_setup self self'.
Proof.
  unfold Intersection.update_vehicles. intro Hrun.
  apply (for_each_seq_inv (Intersection.update_vehicle env)
           (fun _ st => same_setup self (fst st))
           (length (vehicles self)) 0%nat (self, []) (self', tr));
    [| apply same_setup_refl | exact Hrun].
  intros i [s t] [s' t'] _ HP Hbody. simpl in *.
  apply (same_setup_trans _ s _ HP).
  destruct (update_vehicle_cases _ _ _ _ _ _ Hbody)
    as [vehicle [front [dist [sped [_ [_ [_ Hcases]]]]]]].
  cbv zeta in Hcases.
  destruct Hcases as [[_ ->] | [[_ [_ [st' [_ ->]]]] | [_ [_ ->]]]];
    unfold same_setup; simpl; repeat split; reflexivity.
Qed.

Lemma remove_vehicles_setup (js : list nat) :
  forall self self',
    for_each Intersection.remove_vehicle js self = Some self' ->
    same_setup self self'.
Proof.
  induction js as [|j js IH]; intros self self' H; simpl in H.
  - injection H as <-. apply same_setup_refl.
  - unfold Intersection.remove_vehicle in H at 1.
    destruct (pop j (vehicles self)) as [[v rest]|]; [|discriminate].
    eapply same_setup_trans; [|apply (IH _ _ H)].
    unfold same_setup; simpl; repeat split; reflexivity.
Qed.

Lemma spawned_setup (env : TickEnv) (w : World) :
  let self := sim w in
  let self1 := sim (Intersection.spawned env w) in
  light_NS self1 = TrafficLight.update (light_NS self)
  /\ light_EW self1 = TrafficLight.update (light_EW self)
  /\ road_length self1 = road_length self
  /\ lane_width self1 = lane_width self
  /\ spawn_rate self1 = spawn_rate self
  /\ road_boundaries self1 = road_boundaries self
  /\ intersection_center self1 = intersection_center self
  /\ intersection_size self1 = intersection_size self.
Proof.
  unfold Intersection.spawned, Intersection.spawn_vehicle; simpl.
  destruct (Qltb (spawn_draw env) (spawn_rate (sim w))); simpl;
    repeat split; reflexivity.
Qed.

Lemma update_setup (env : TickEnv) (w w' : World) :
  Intersection.update env w = Some w' ->
  light_NS (sim w') = TrafficLight.update (light_NS (sim w))
  /\ light_EW (sim w') = TrafficLight.update (light_EW (sim w))
  /\ road_length (sim w') = road_length (sim w)
  /\ lane_width (sim w') = lane_width (sim w)
  /\ spawn_rate (sim w') = spawn_rate (sim w)
  /\ road_boundaries (sim w') = road_boundaries (sim w)
  /\ intersection_center (sim w') = intersection_center (sim w)
  /\ intersection_size (sim w') = intersection_size (sim w).
Proof.
  intro Hup.
  destruct (update_stages _ _ _ Hup)
    as [self [tr [self2 [self3 [Hloop [Hrem [Hrec Ew]]]]]]].
  pose proof (spawned_setup env w) as H0. cbv zeta in H0.
  pose proof (update_vehicles_setup _ _ _ _ Hloop) as H1.
  pose proof (remove_vehicles_setup _ _ _ Hrem) as H2.
  assert (H3 : same_setup self2 self3).
  { unfold Intersection._record_queue_lengths in Hrec.
    destruct (Intersection.queue_scan _ _ _); [|discriminate].
    injection Hrec as <-. unfold same_setup; simpl.
    repeat split; reflexivity. }
  rewrite Ew. unfold same_setup in *. intuition congruence.
Qed.

(** X12: a call of [update] that returns advances each of the two lights
    by exactly one [TrafficLight.update], whatever the vehicles and the
    random draws, and leaves the configuration of the intersection
    (road length, lane width, spawn rate, boundaries, centre) unchanged. *)
Theorem update_advances_lights (env : TickEnv) (w w' : World) :
  Intersection.update env w = Some w' ->
  light_NS (sim w') = TrafficLight.update (light_NS (sim w))
  /\ light_EW (sim w') = TrafficLight.update (light_EW (sim w))
  /\ road_length (sim w') = road_length (sim w)
  /\ lane_width (sim w') = lane_width (sim w)
  /\ spawn_rate (sim w') = spawn_rate (sim w)
  /\ road_boundaries (sim w') = road_boundaries (sim w)
  /\ intersection_center (sim w') = intersection_center (sim w)
  /\ intersection_size (sim w') = intersection_size (sim w).
Proof. exact (update_setup env w w'). Qed.

Lemma update_advances_lights_witness :
  exists w',
    Intersection.update spawn_tick empty_world = Some w'
    /\ light_NS (sim w') = TrafficLight.update (light_NS (sim empty_world))
    /\ light_EW (sim w') = TrafficLight.update (light_EW (sim empty_world))
    /\ road_length (sim w') = road_length (sim empty_world)
    /\ lane_width (sim w') = lane_width (sim empty_world)
    /\ spawn_rate (sim w') = spawn_rate (sim empty_world)
    /\ road_boundaries (sim w') = road_boundaries (sim empty_world)
    /\ intersection_center (sim w') = intersection_center (sim empty_world)
    /\ intersection_size (sim w') = intersection_size (sim empty_world).
Proof.
  eexists. split; [vm_compute; reflexivity|].
  apply (update_advances_lights spawn_tick empty_world).
  vm_compute; reflexivity.
Defined.

Lemma reachable_in_lights (n : nat) (w : World) :
  reachable_in n w ->
  light_NS (sim w)
  = TrafficLight.updates n
      (TrafficLight.set_state (TrafficLight.init 60 0.5) green)
  /\ light_EW (sim w)
     = TrafficLight.updates n
         (TrafficLight.set_state (TrafficLight.init 60 0.5) red).
Proof.
  induction 1 as [next rl lw sr | n env w w' Hw [IH1 IH2] Hup].
  - split; reflexivity.
  - destruct (update_setup _ _ _ Hup) as [E1 [E2 _]].
    simpl. rewrite E1, E2, IH1, IH2. split; reflexivity.
Qed.

Lemma updates_mod (p : nat) (l : TrafficLight) :
  TrafficLight.updates p l = l ->
  forall q r, TrafficLight.updates (r + q * p) l = TrafficLight.updates r l.
Proof.
  intros Hp q r. induction q as [|q IH].
  - f_equal. lia.
  - replace (r + S q * p)%nat with ((r + q * p) + p)%nat by lia.
    now rewrite updates_add, Hp.
Qed.

(** X13: in every run, after [n] calls of [update] the states of the
    north-south and east-west lights depend on [n mod 60] only: (green,
    red) for 0..26, (green, green) for 27..29, (yellow, green) for 30..32,
    (red, green) for 33..56 and (red, yellow) for 57..59.  In particular
    both lights are green at the ticks 27, 28 and 29 of every cycle. *)
Theorem lights_by_tick (n : nat) (w : World) :
  reachable_in n w ->
  (Intersection.get_light_state (sim w) north,
   Intersection.get_light_state (sim w) east)
  = light_table (n mod 60).
Proof.
  intro H. destruct (reachable_in_lights n w H) as [E1 E2].
  unfold Intersection.get_light_state, TrafficLight.get_state.
  rewrite E1, E2.
  rewrite (Nat.div_mod_eq n 60) at 1 2.
  replace (60 * (n / 60) + n mod 60)%nat
    with (n mod 60 + (n / 60) * 60)%nat by lia.
  rewrite !updates_mod by (vm_compute; reflexivity).
  pose proof (Nat.mod_upper_bound n 60 ltac:(lia)) as Hr.
  generalize dependent (n mod 60)%nat. clear. intros r Hr.
  do 60 (destruct r as [|r]; [vm_compute; reflexivity|]).
  lia.
Qed.

Lemma lights_by_tick_witness :
  exists w,
    Intersection.update spawn_tick empty_world = Some w
    /\ (Intersection.get_light_state (sim w) north,
        Intersection.get_light_state (sim w) east)
       = light_table (1 mod 60).
Proof.
  eexists. split; [vm_compute; reflexivity|].
  apply (lights_by_tick 1).
  apply (reachable_in_update 0 spawn_tick empty_world);
    [apply reachable_in_init | vm_compute; reflexivity].
Defined.

(** ** What the removal keeps and what it moves *)

Lemma pop_perm {A} (i : nat) (l : list A) (x : A) (r : list A) :
  pop i l = Some (x, r) -> Permutation l (x :: r).
Proof.
  revert i x r; induction l as [|h t IH]; intros [|i] x r H; simpl in H;
    try discriminate.
  - injection H as <- <-. reflexivity.
  - destruct (pop i t) as [[y t']|] eqn:E; [|discriminate].
    injection H as <- <-. rewrite (IH _ _ _ E). apply perm_swap.
Qed.

Lemma remove_vehicles_perm (js : list nat) :
  forall self self',
    for_each Intersection.remove_vehicle js self = Some self' ->
    Permutation (vehicles self ++ removed_vehicles self)
      (vehicles self' ++ removed_vehicles self').
Proof.
  induction js as [|j js IH]; intros self self' H; simpl in H.
  - injection H as <-. reflexivity.
  - unfold Intersection.remove_vehicle in H at 1.
    destruct (pop j (vehicles self)) as [[v rest]|] eqn:Epop;
      [|discriminate].
    rewrite <- (IH _ _ H). simpl.
    rewrite (pop_perm _ _ _ _ Epop). simpl.
    rewrite app_assoc. apply Permutation_cons_append.
Qed.

Lemma unmarked_none {A} (js : list nat) (l : list A) :
  forall k, Forall (fun j => (j < k)%nat) js -> unmarked_from k js l = l.
Proof.
  induction l as [|x t IH]; intros k Hjs; simpl; [reflexivity|].
  assert (E : existsb (Nat.eqb k) js = false).
  { destruct (existsb (Nat.eqb k) js) eqn:E; [|reflexivity].
    apply existsb_exists in E. destruct E as [j [Hj Hk]].
    apply Nat.eqb_eq in Hk. rewrite Forall_forall in Hjs.
    specialize (Hjs j Hj). lia. }
  rewrite E. f_equal. apply IH.
  rewrite Forall_forall in *. intros j Hj. specialize (Hjs j Hj). lia.
Qed.

(** Popping the largest marked index first leaves the smaller marks in
    place. *)
Lemma unmarked_pop {A} (js : list nat) (l : list A) :
  forall j k x r,
    pop j l = Some (x, r) ->
    Forall (fun i => (i < k + j)%nat) js ->
    unmarked_from k js r = unmarked_from k ((k + j)%nat :: js) l.
Proof.
  induction l as [|h t IH]; intros [|j] k x r H Hjs; simpl in H;
    try discriminate.
  - injection H as <- <-. rewrite Nat.add_0_r in *.
    simpl. rewrite Nat.eqb_refl. simpl.
    rewrite !unmarked_none; auto.
    constructor; [lia|].
    rewrite Forall_forall in *. intros i Hi. specialize (Hjs i Hi). lia.
  - destruct (pop j t) as [[y t']|] eqn:E; [|discriminate].
    injection H as <- <-. simpl.
    assert (Ek : (k =? k + S j)%nat = false) by (apply Nat.eqb_neq; lia).
    rewrite Ek. simpl.
    assert (Enext : unmarked_from (S k) js t'
                    = unmarked_from (S k) ((k + S j)%nat :: js) t).
    { replace (k + S j)%nat with (S k + j)%nat by lia.
      apply (IH j (S k) y t' E).
      rewrite Forall_forall in *. intros i Hi. specialize (Hjs i Hi). lia. }
    rewrite Enext. reflexivity.
Qed.

Lemma picked_below {A} (js : list nat) (l r : list A) (j : nat) :
  (forall k, (k < j)%nat -> nth_error r k = nth_error l k) ->
  Forall (fun i => (i < j)%nat) js ->
  picked js r = picked js l.
Proof.
  intros Hsame Hjs. unfold picked.
  induction Hjs as [|i js Hi Hjs IH]; simpl; [reflexivity|].
  now rewrite Hsame, IH.
Qed.

(** The removal loop over decreasing indices: the vehicles left are those
    at the other indices, in their order; the removed list receives the
    vehicles at the given indices, in the order of the pops. *)
Lemma remove_vehicles_exact (js : list nat) :
  forall self self',
    descending js ->
    for_each Intersection.remove_vehicle js self = Some self' ->
    vehicles self' = unmarked_from 0 js (vehicles self)
    /\ removed_vehicles self'
       = removed_vehicles self ++ picked js (vehicles self).
Proof.
  induction js as [|j js IH]; intros self self' Hdesc H; simpl in H.
  - injection H as <-. split.
    + symmetry. apply unmarked_none. constructor.
    + simpl. now rewrite app_nil_r.
  - unfold Intersection.remove_vehicle in H at 1.
    destruct (pop j (vehicles self)) as [[v rest]|] eqn:Epop;
      [|discriminate].
    apply StronglySorted_inv in Hdesc. destruct Hdesc as [Hdesc Hlt].
    destruct (IH _ _ Hdesc H) as [Hv Hr]. simpl in Hv, Hr.
    destruct (pop_spec _ _ _ _ Epop) as [Hnth [_ [Hbelow _]]].
    split.
    + rewrite Hv. apply (unmarked_pop js (vehicles self) j 0%nat v rest Epop).
      exact Hlt.
    + rewrite Hr. unfold picked at 2. simpl. rewrite Hnth.
      rewrite <- app_assoc. simpl. f_equal. f_equal.
      apply (picked_below js (vehicles self) rest j Hbelow Hlt).
Qed.

Lemma existsb_sorted_reverse (k : nat) (tr : list nat) :
  existsb (Nat.eqb k) (sorted_reverse tr) = existsb (Nat.eqb k) tr.
Proof.
  apply eq_true_iff_eq. rewrite !existsb_exists.
  split; intros [j [Hj Hk]]; exists j; split; auto;
    now apply in_sorted_reverse.
Qed.

Lemma unmarked_sorted_reverse {A} (tr : list nat) (l : list A) :
  forall k, unmarked_from k (sorted_reverse tr) l = unmarked_from k tr l.
Proof.
  induction l as [|x t IH]; intro k; simpl; [reflexivity|].
  now rewrite existsb_sorted_reverse, !IH.
Qed.

(** X14: a call of [update] that returns keeps the vehicles it does not
    mark in their order: the active list afterwards is the list left by
    the vehicle loop without the marked indices, and removed_vehicles
    receives the marked vehicles after its old content, from the highest
    marked index down to the lowest. *)
Theorem update_keeps_order (env : TickEnv) (w w' : World)
    (self : Intersection) (tr : list nat) :
  Intersection.update env w = Some w' ->
  Intersection.update_vehicles env (sim (Intersection.spawned env w))
  = Some (self, tr) ->
  vehicles (sim w') = unmarked_from 0 tr (vehicles self)
  /\ removed_vehicles (sim w')
     = removed_vehicles (sim w)
       ++ picked (sorted_reverse tr) (vehicles self)
  /\ descending (sorted_reverse tr).
Proof.
  intros Hup Hloop.
  destruct (update_stages _ _ _ Hup)
    as [self0 [tr0 [self2 [self3 [Hloop0 [Hrem [Hrec <-]]]]]]].
  rewrite Hloop in Hloop0. injection Hloop0 as <- <-.
  destruct (spawned_spec env w) as [_ [Erem _]]. simpl in Erem.
  destruct (update_vehicles_frame _ _ _ _ Hloop)
    as [_ [_ [Hremoved [_ [_ [_ [Hnodup _]]]]]]].
  pose proof (descending_sorted_reverse _ Hnodup) as Hdesc.
  destruct (remove_vehicles_exact _ _ _ Hdesc Hrem) as [Hv Hr].
  destruct (record_queue_lengths_spec _ _ Hrec) as [Hv3 [Hr3 _]].
  rewrite Hv3, Hr3, Hv, Hr, Hremoved, Erem, unmarked_sorted_reverse.
  auto.
Qed.

Lemma update_keeps_order_witness :
  exists w' self tr,
    Intersection.update (quiet_tick 5) three_leaving = Some w'
    /\ Intersection.update_vehicles (quiet_tick 5)
         (sim (Intersection.spawned (quiet_tick 5) three_leaving))
       = Some (self, tr)
    /\ vehicles (sim w') = unmarked_from 0 tr (vehicles self)
    /\ removed_vehicles (sim w')
       = removed_vehicles (sim three_leaving)
         ++ picked (sorted_reverse tr) (vehicles self)
    /\ descending (sorted_reverse tr).
Proof.
  eexists; eexists; eexists.
  split; [vm_compute; reflexivity|].
  split; [vm_compute; reflexivity|].
  apply (update_keeps_order (quiet_tick 5) three_leaving).
  - vm_compute; reflexivity.
  - vm_compute; reflexivity.
Defined.

(** ** Invariants of a run *)

Lemma update_conserves (env : TickEnv) (w w' : World) :
  Intersection.update env w = Some w' ->
  (Z.of_nat (length (vehicles (sim w))
             + length (removed_vehicles (sim w)))
   = total_vehicles (stats (sim w))
   /\ 0 <= throughput (stats (sim w))
      <= Z.of_nat (length (removed_vehicles (sim w))))%Z ->
  (Z.of_nat (length (vehicles (sim w'))
             + length (removed_vehicles (sim w')))
   = total_vehicles (stats (sim w'))
   /\ 0 <= throughput (stats (sim w'))
      <= Z.of_nat (length (removed_vehicles (sim w'))))%Z.
Proof.
  intros Hup [Htot Hthr].
  destruct (update_stages _ _ _ Hup)
    as [self [tr [self2 [self3 [Hloop [Hrem [Hrec <-]]]]]]].
  destruct (spawned_spec env w) as [_ [Erem [Ethr [_ Hspawn]]]].
  simpl in Erem, Ethr, Hspawn.
  destruct (update_vehicles_frame _ _ _ _ Hloop)
    as [Hlen [_ [Hremoved [Htotal [_ [_ [Hnodup Hthr']]]]]]].
  destruct (remove_vehicles_spec _ _ _
              (descending_sorted_reverse _ Hnodup) Hrem)
    as [[Hst _] [Hlen2 _]].
  rewrite length_sorted_reverse in Hlen2.
  pose proof (Permutation_length (remove_vehicles_perm _ _ _ Hrem)) as Hperm.
  rewrite !length_app in Hperm.
  destruct (record_queue_lengths_spec _ _ Hrec)
    as [Hv [Hr [_ [Ht3 [Htot3 _]]]]].
  rewrite Hv, Hr, Ht3, Htot3, Hst, Htotal.
  rewrite Hremoved, Erem in Hperm.
  destruct Hspawn as [[Ev Et] | [v [Ev [_ Et]]]].
  - rewrite Ev in *. lia.
  - rewrite Ev, length_app in *. simpl in *. lia.
Qed.

(** X15: in every world that a run reaches, the active and the removed
    vehicles together are exactly the spawned ones in number
    (len(vehicles) + len(removed_vehicles) = total_vehicles), and the
    throughput is between 0 and the number of removed vehicles (a vehicle
    removed after a collision is not counted). *)
Theorem vehicles_conserved (w : World) :
  reachable w ->
  (Z.of_nat (length (vehicles (sim w))
             + length (removed_vehicles (sim w)))
   = total_vehicles (stats (sim w)))%Z
  /\ (0 <= throughput (stats (sim w))
      <= Z.of_nat (length (removed_vehicles (sim w))))%Z.
Proof.
  induction 1 as [next rl lw sr | env w w' Hw IH Hup].
  - simpl. lia.
  - exact (update_conserves _ _ _ Hup IH).
Qed.

Lemma vehicles_conserved_witness :
  exists w1,
    Intersection.update spawn_tick empty_world = Some w1
    /\ (Z.of_nat (length (vehicles (sim w1))
                  + length (removed_vehicles (sim w1)))
        = total_vehicles (stats (sim w1)))%Z
    /\ (0 <= throughput (stats (sim w1))
        <= Z.of_nat (length (removed_vehicles (sim w1))))%Z.
Proof.
  eexists. split; [vm_compute; reflexivity|].
  apply vehicles_conserved.
  apply (reachable_update spawn_tick empty_world);
    [apply reachable_init | vm_compute; reflexivity].
Defined.

Lemma map_same_by_index {A B} (f : A -> B) (l' : list A) :
  forall l,
    length l' = length l ->
    (forall j v, nth_error l' j = Some v ->
                 exists u, nth_error l j = Some u /\ f v = f u) ->
    map f l' = map f l.
Proof.
  induction l' as [|a t' IH]; intros [|b t] Hlen Hsame; simpl in *;
    try discriminate; [reflexivity|].
  destruct (Hsame 0%nat a eq_refl) as [u [Hu Hf]]. simpl in Hu.
  injection Hu as <-. rewrite Hf. f_equal.
  apply IH; [lia|]. intros j v Hj. apply (Hsame (S j) v Hj).
Qed.

Lemma update_next_id (env : TickEnv) (w w' : World) :
  Intersection.update env w = Some w' ->
  Vehicle_next_id w' = Vehicle_next_id (Intersection.spawned env w).
Proof.
  unfold Intersection.update.
  destruct (Intersection.update_vehicles env _) as [[self tr]|];
    [|discriminate].
  destruct (for_each Intersection.remove_vehicle _ self) as [self2|];
    [|discriminate].
  destruct (Intersection._record_queue_lengths self2) as [self3|];
    [|discriminate].
  intro H; injection H as <-. reflexivity.
Qed.

Lemma spawned_ids (env : TickEnv) (w : World) :
  let w1 := Intersection.spawned env w in
  (vehicles (sim w1) = vehicles (sim w)
   /\ Vehicle_next_id w1 = Vehicle_next_id w)
  \/ (exists v,
        vehicles (sim w1) = vehicles (sim w) ++ [v]
        /\ id v = Vehicle_next_id w
        /\ exit_time v = None
        /\ Vehicle_next_id w1 = (Vehicle_next_id w + 1)%Z).
Proof.
  unfold Intersection.spawned, Intersection.spawn_vehicle; simpl.
  destruct (Qltb (spawn_draw env) (spawn_rate (sim w))); simpl.
  - right. eexists. repeat split; reflexivity.
  - left. split; reflexivity.
Qed.

Lemma update_ids (env : TickEnv) (w w' : World) :
  Intersection.update env w = Some w' ->
  NoDup (map id (vehicles (sim w) ++ removed_vehicles (sim w)))
  /\ Forall (fun i => (i < Vehicle_next_id w)%Z)
       (map id (vehicles (sim w) ++ removed_vehicles (sim w))) ->
  NoDup (map id (vehicles (sim w') ++ removed_vehicles (sim w')))
  /\ Forall (fun i => (i < Vehicle_next_id w')%Z)
       (map id (vehicles (sim w') ++ removed_vehicles (sim w'))).
Proof.
  intros Hup [Hnd Hlt].
  rewrite (update_next_id _ _ _ Hup).
  destruct (update_stages _ _ _ Hup)
    as [self [tr [self2 [self3 [Hloop [Hrem [Hrec <-]]]]]]].
  destruct (spawned_spec env w) as [_ [Erem _]]. simpl in Erem.
  pose proof (spawned_ids env w) as Hspawn. cbv zeta in Hspawn.
  destruct (update_vehicles_frame _ _ _ _ Hloop)
    as [Hlen [_ [Hremoved _]]].
  pose proof (map_same_by_index id _ _ Hlen
                (fun j v Hj =>
                   match update_vehicles_identity _ _ _ _ Hloop j v Hj with
                   | ex_intro _ u (conj Hu (conj Hid _)) =>
                       ex_intro _ u (conj Hu Hid)
                   end)) as Hmap.
  pose proof (Permutation_map id (remove_vehicles_perm _ _ _ Hrem)) as Hperm.
  destruct (record_queue_lengths_spec _ _ Hrec) as [Hv [Hr _]].
  rewrite Hv, Hr.
  rewrite map_app, Hmap, Hremoved, Erem, <- map_app in Hperm.
  assert (Hafter :
            NoDup (map id (vehicles (sim (Intersection.spawned env w))
                           ++ removed_vehicles (sim w)))
            /\ Forall
                 (fun i =>
                    (i < Vehicle_next_id (Intersection.spawned env w))%Z)
                 (map id (vehicles (sim (Intersection.spawned env w))
                          ++ removed_vehicles (sim w)))).
  { destruct Hspawn as [[-> ->] | [v [-> [Hid [_ ->]]]]]; [auto|].
    assert (Hp : Permutation
                   (map id ((vehicles (sim w) ++ [v])
                            ++ removed_vehicles (sim w)))
                   (id v :: map id (vehicles (sim w)
                                    ++ removed_vehicles (sim w)))).
    { rewrite <- app_assoc. simpl. rewrite !map_app. simpl.
      symmetry. apply Permutation_middle. }
    split.
    - apply (Permutation_NoDup (Permutation_sym Hp)).
      constructor; [|exact Hnd]. intro Hin.
      rewrite Forall_forall in Hlt. specialize (Hlt _ Hin). lia.
    - apply (Permutation_Forall (Permutation_sym Hp)).
      constructor; [lia|].
      rewrite Forall_forall in *. intros i Hi. specialize (Hlt i Hi). lia. }
  destruct Hafter as [Hnd1 Hlt1]. split.
  - exact (Permutation_NoDup Hperm Hnd1).
  - exact (Permutation_Forall Hperm Hlt1).
Qed.

(** X16: in every world that a run reaches, the ids of the active and the
    removed vehicles are pairwise distinct, and all of them are below the
    current value of the identifier counter. *)
Theorem ids_unique (w : World) :
  reachable w ->
  NoDup (map id (vehicles (sim w) ++ removed_vehicles (sim w)))
  /\ Forall (fun v => (id v < Vehicle_next_id w)%Z)
       (vehicles (sim w) ++ removed_vehicles (sim w)).
Proof.
  intro H.
  assert (Hinv : NoDup (map id (vehicles (sim w)
                                ++ removed_vehicles (sim w)))
                 /\ Forall (fun i => (i < Vehicle_next_id w)%Z)
                      (map id (vehicles (sim w)
                               ++ removed_vehicles (sim w)))).
  { induction H as [next rl lw sr | env w w' Hw IH Hup].
    - simpl. split; constructor.
    - exact (update_ids _ _ _ Hup IH). }
  destruct Hinv as [Hnd Hlt]. split; [exact Hnd|].
  rewrite Forall_map in Hlt. exact Hlt.
Qed.

Lemma ids_unique_witness :
  exists w1,
    Intersection.update spawn_tick empty_world = Some w1
    /\ NoDup (map id (vehicles (sim w1) ++ removed_vehicles (sim w1)))
    /\ Forall (fun v => (id v < Vehicle_next_id w1)%Z)
         (vehicles (sim w1) ++ removed_vehicles (sim w1)).
Proof.
  eexists. split; [vm_compute; reflexivity|].
  apply ids_unique.
  apply (reachable_update spawn_tick empty_world);
    [apply reachable_init | vm_compute; reflexivity].
Defined.

Lemma update_speed_exit_time (v v' : Vehicle) (front : option Q)
    (light_state : LightState) (light_dist r : Q) :
  Vehicle.update_speed v front light_state light_dist r = Some v' ->
  exit_time v' = exit_time v.
Proof.
  unfold Vehicle.update_speed.
  destruct (Vehicle.brake _ _ _ _ _); [|discriminate].
  intro H; injection H as <-. reflexivity.
Qed.

Lemma move_exit_time (v : Vehicle) (now : Q) :
  exit_time (Vehicle.move v now) = exit_time v.
Proof.
  unfold Vehicle.move.
  destruct (position v) as [[x y]|]; [destruct (direction v)|]; simpl;
    match goal with |- context [Qeq_bool ?a ?b] => destruct (Qeq_bool a b) end;
    reflexivity.
Qed.

(** After the vehicle loop run on vehicles without exit time, the marked
    vehicles have an exit time and the others still have none. *)
Lemma update_vehicles_exit_times (env : TickEnv)
    (self self' : Intersection) (tr : list nat) :
  Forall (fun v => exit_time v = None) (vehicles self) ->
  Intersection.update_vehicles env self = Some (self', tr) ->
  forall j v,
    nth_error (vehicles self') j = Some v ->
    (In j tr /\ exit_time v <> None)
    \/ (~ In j tr /\ exit_time v = None).
Proof.
  intros Hnone. unfold Intersection.update_vehicles. intro Hrun.
  pose (P := fun (i : nat) (st : Intersection * list nat) =>
    length (vehicles (fst st)) = length (vehicles self)
    /\ Forall (fun j => (j < i)%nat) (snd st)
    /\ forall j v,
         nth_error (vehicles (fst st)) j = Some v ->
         (In j (snd st) /\ exit_time v <> None)
         \/ (~ In j (snd st) /\ exit_time v = None)).
  assert (Hend : P (0 + length (vehicles self))%nat (self', tr)).
  { apply (for_each_seq_inv (Intersection.update_vehicle env) P
             (length (vehicles self)) 0%nat (self, []) (self', tr));
      [| | exact Hrun].
    - intros i [s t] [s' t'] Hi [H1 [H2 H3]] Hbody. simpl in *.
    destruct (update_vehicle_cases _ _ _ _ _ _ Hbody)
      as [vehicle [front [dist [sped [Hv [_ [Hs Hcases]]]]]]].
    cbv zeta in Hcases.
    assert (Hi_t : ~ In i t).
    { intro Hin. rewrite Forall_forall in H2. specialize (H2 i Hin). lia. }
    assert (Hveh : exit_time vehicle = None).
    { destruct (H3 i vehicle Hv) as [[Hin _] | [_ E]]; [tauto | exact E]. }
    assert (Hmoved : exit_time (Vehicle.move sped (move_clock env i)) = None).
    { rewrite move_exit_time, (update_speed_exit_time _ _ _ _ _ _ Hs).
      exact Hveh. }
    assert (Hlt : (i < length (vehicles s))%nat).
    { apply nth_error_Some. congruence. }
    assert (Hmark : Forall (fun j => (j < S i)%nat) (t ++ [i])).
    { apply Forall_app. split; [|repeat constructor].
      rewrite Forall_forall in *. intros j Hj. specialize (H2 j Hj). lia. }
    assert (Hgone : forall X j v,
              exit_time X <> None ->
              nth_error (list_set i X (vehicles s)) j = Some v ->
              (In j (t ++ [i]) /\ exit_time v <> None)
              \/ (~ In j (t ++ [i]) /\ exit_time v = None)).
    { intros X j v HX Hn. destruct (Nat.eq_dec j i) as [->|Hne].
      - rewrite nth_error_list_set_eq in Hn by exact Hlt.
        injection Hn as <-. left. split; [|exact HX].
        apply in_or_app. simpl. auto.
      - rewrite nth_error_list_set_neq in Hn by lia.
        destruct (H3 j v Hn) as [[Hin E] | [Hin E]].
        + left. split; [apply in_or_app; auto | exact E].
        + right. split; [|exact E]. intro Hin'.
          apply in_app_or in Hin'. destruct Hin' as [Hin'|[Hin'|[]]];
            [tauto | lia]. }
    destruct Hcases as [[-> ->] | [[_ [-> [st' [_ ->]]]] | [_ [-> ->]]]];
      unfold P; simpl; rewrite ?length_list_set;
      (split; [exact H1|]).
    + split; [exact Hmark|]. intros j v. apply Hgone. simpl. discriminate.
    + split; [exact Hmark|]. intros j v. apply Hgone. simpl. discriminate.
    + split.
      * rewrite Forall_forall in *. intros j Hj. specialize (H2 j Hj). lia.
      * intros j v Hn. destruct (Nat.eq_dec j i) as [->|Hne].
        -- rewrite nth_error_list_set_eq in Hn by exact Hlt.
           injection Hn as <-. right. split; [exact Hi_t | exact Hmoved].
        -- rewrite nth_error_list_set_neq in Hn by lia. apply (H3 j v Hn).
    - unfold P; simpl. split; [reflexivity|]. split; [constructor|].
      intros j v Hn. right. split; [tauto|].
      rewrite Forall_forall in Hnone. apply Hnone.
      eapply nth_error_In; eauto. }
  destruct Hend as [_ [_ Hall]]. exact Hall.
Qed.

Lemma in_picked {A} (js : list nat) (l : list A) (x : A) :
  In x (picked js l) -> exists j, In j js /\ nth_error l j = Some x.
Proof.
  unfold picked. intro H. apply in_flat_map in H.
  destruct H as [j [Hj Hx]]. exists j. split; [exact Hj|].
  destruct (nth_error l j) as [y|]; simpl in Hx; [|tauto].
  destruct Hx as [->|[]]. reflexivity.
Qed.

Lemma update_exit_times (env : TickEnv) (w w' : World) :
  Intersection.update env w = Some w' ->
  Forall (fun v => exit_time v = None) (vehicles (sim w))
  /\ Forall (fun v => exit_time v <> None) (removed_vehicles (sim w)) ->
  Forall (fun v => exit_time v = None) (vehicles (sim w'))
  /\ Forall (fun v => exit_time v <> None) (removed_vehicles (sim w')).
Proof.
  intros Hup [Hact Hrem0].
  destruct (update_stages _ _ _ Hup)
    as [self [tr [self2 [self3 [Hloop [Hrem [Hrec <-]]]]]]].
  destruct (spawned_spec env w) as [_ [Erem _]]. simpl in Erem.
  pose proof (spawned_ids env w) as Hspawn. cbv zeta in Hspawn.
  assert (Hact1 : Forall (fun v => exit_time v = None)
                    (vehicles (sim (Intersection.spawned env w)))).
  { destruct Hspawn as [[-> _] | [v [-> [_ [Hv _]]]]]; [exact Hact|].
    apply Forall_app. split; [exact Hact|]. constructor; [exact Hv|].
    constructor. }
  pose proof (update_vehicles_exit_times _ _ _ _ Hact1 Hloop) as Hmarks.
  destruct (update_vehicles_frame _ _ _ _ Hloop)
    as [_ [_ [Hremoved [_ [_ [_ [Hnodup _]]]]]]].
  pose proof (descending_sorted_reverse _ Hnodup) as Hdesc.
  destruct (remove_vehicles_spec _ _ _ Hdesc Hrem) as [_ [_ [Hkept _]]].
  destruct (remove_vehicles_exact _ _ _ Hdesc Hrem) as [_ Hr].
  destruct (record_queue_lengths_spec _ _ Hrec) as [Hv3 [Hr3 _]].
  rewrite Hv3, Hr3. split.
  - apply Forall_forall. intros u Hu.
    destruct (Hkept u Hu) as [k [Hk Hn]].
    destruct (Hmarks k u Hn) as [[Hin _] | [_ E]]; [|exact E].
    exfalso. apply Hk. now apply in_sorted_reverse.
  - rewrite Hr, Hremoved, Erem. apply Forall_app. split; [exact Hrem0|].
    apply Forall_forall. intros u Hu.
    destruct (in_picked _ _ _ Hu) as [j [Hj Hn]].
    destruct (Hmarks j u Hn) as [[_ E] | [Hnot _]]; [exact E|].
    exfalso. apply Hnot. now apply (proj1 (in_sorted_reverse j tr)).
Qed.

(** X17: in every world that a run reaches, no active vehicle has an exit
    time and every removed vehicle has one: exit_time is set exactly when
    the vehicle leaves the active list. *)
Theorem exit_time_iff_removed (w : World) :
  reachable w ->
  Forall (fun v => exit_time v = None) (vehicles (sim w))
  /\ Forall (fun v => exit_time v <> None) (removed_vehicles (sim w)).
Proof.
  induction 1 as [next rl lw sr | env w w' Hw IH Hup].
  - simpl. split; constructor.
  - exact (update_exit_times _ _ _ Hup IH).
Qed.

Lemma exit_time_iff_removed_witness :
  exists w1,
    Intersection.update spawn_tick empty_world = Some w1
    /\ Forall (fun v => exit_time v = None) (vehicles (sim w1))
    /\ Forall (fun v => exit_time v <> None) (removed_vehicles (sim w1)).
Proof.
  eexists. split; [vm_compute; reflexivity|].
  apply exit_time_iff_removed.
  apply (reachable_update spawn_tick empty_world);
    [apply reachable_init | vm_compute; reflexivity].
Defined.

Lemma reachable_in_reachable (n : nat) (w : World) :
  reachable_in n w -> reachable w.
Proof.
  induction 1 as [next rl lw sr | n env w w' Hw IH Hup].
  - apply reachable_init.
  - exact (reachable_update env w w' IH Hup).
Qed.

Lemma reachable_conserved (w : World) :
  reachable w ->
  (Z.of_nat (length (vehicles (sim w))
             + length (removed_vehicles (sim w)))
   = total_vehicles (stats (sim w))
   /\ 0 <= throughput (stats (sim w))
      <= Z.of_nat (length (removed_vehicles (sim w))))%Z.
Proof.
  induction 1 as [next rl lw sr | env w w' Hw IH Hup].
  - simpl. lia.
  - exact (update_conserves _ _ _ Hup IH).
Qed.

Lemma update_queue_lengths (env : TickEnv) (w w' : World) :
  Intersection.update env w = Some w' ->
  (forall d,
      queue_lengths (stats (sim w')) d
      = queue_lengths (stats (sim w)) d ++ [queue_count (sim w') d])
  /\ (total_vehicles (stats (sim w))
      <= total_vehicles (stats (sim w')))%Z.
Proof.
  intro Hup.
  destruct (update_stages _ _ _ Hup)
    as [self [tr [self2 [self3 [Hloop [Hrem [Hrec <-]]]]]]].
  destruct (spawned_spec env w) as [_ [_ [_ [Eq Hspawn]]]].
  simpl in Eq, Hspawn.
  destruct (update_vehicles_frame _ _ _ _ Hloop)
    as [_ [_ [_ [Htot [Hq [_ [Hnodup _]]]]]]].
  destruct (remove_vehicles_spec _ _ _
              (descending_sorted_reverse _ Hnodup) Hrem) as [[Hst _] _].
  destruct (record_queue_lengths_spec _ _ Hrec)
    as [_ [_ [_ [_ [Htot3 [Hsample Hcount]]]]]].
  split.
  - intro d. rewrite Hsample, Hcount, Hst, Hq, Eq. reflexivity.
  - rewrite Htot3, Hst, Htot.
    destruct Hspawn as [[_ ->] | [v [_ [_ ->]]]]; lia.
Qed.

Lemma queue_count_bounds (self : Intersection) (d : Direction) :
  (0 <= queue_count self d <= Z.of_nat (length (vehicles self)))%Z.
Proof.
  unfold queue_count. split; [lia|]. apply inj_le.
  induction (vehicles self) as [|v t IH]; simpl; [lia|].
  destruct (queued self d v); simpl; lia.
Qed.

(** X18: after [n] calls of [update] in a run, the queue_lengths sequence
    of every direction holds exactly [n] samples, and every sample is
    between 0 and the number of vehicles spawned so far. *)
Theorem queue_history (n : nat) (w : World) (d : Direction) :
  reachable_in n w ->
  length (queue_lengths (stats (sim w)) d) = n
  /\ Forall (fun q => (0 <= q <= total_vehicles (stats (sim w)))%Z)
       (queue_lengths (stats (sim w)) d).
Proof.
  induction 1 as [next rl lw sr | n env w w' Hw [IHlen IHall] Hup].
  - simpl. split; [reflexivity | constructor].
  - destruct (update_queue_lengths _ _ _ Hup) as [Hq Htot].
    rewrite Hq. split.
    + rewrite length_app. simpl. lia.
    + apply Forall_app. split.
      * eapply Forall_impl; [|exact IHall]. simpl. intros q Hq0. lia.
      * constructor; [|constructor].
        pose proof (queue_count_bounds (sim w') d) as Hc.
        assert (Hr : reachable w').
        { apply (reachable_update env w w');
            [exact (reachable_in_reachable n w Hw) | exact Hup]. }
        destruct (reachable_conserved w' Hr) as [Hcons _]. lia.
Qed.

Lemma queue_history_witness :
  exists w1,
    Intersection.update spawn_tick empty_world = Some w1
    /\ length (queue_lengths (stats (sim w1)) north) = 1%nat
    /\ Forall (fun q => (0 <= q <= total_vehicles (stats (sim w1)))%Z)
         (queue_lengths (stats (sim w1)) north).
Proof.
  eexists. split; [vm_compute; reflexivity|].
  apply (queue_history 1).
  apply (reachable_in_update 0 spawn_tick empty_world);
    [apply reachable_in_init | vm_compute; reflexivity].
Defined.

(** ** Keeping behind the vehicle ahead *)

(** X20: for a vehicle with a speed and an acceleration that are not
    negative and a positive deceleration, and a positive front distance
    [d], the speed after [update_speed] is strictly below [d]: the move
    that follows leaves the vehicle behind the place where the vehicle
    ahead stood, at a distance of at least min(d, 2/3). *)
Theorem stays_behind (v : Vehicle) (d : Q) (light_state : LightState)
    (light_dist r : Q) :
  0 <= speed v -> 0 <= acceleration v -> 0 < deceleration v -> 0 < d ->
  exists v',
    Vehicle.update_speed v (Some d) light_state light_dist r = Some v'
    /\ speed v' < d
    /\ Qmin d (2 # 3) <= d - speed v'.
Proof.
  intros Hs Ha Hd Hpos.
  assert (H1 : 0 <= Vehicle.accelerate v).
  { unfold Vehicle.accelerate. qcase; [|lra]. minmax; lra. }
  pose proof (follow_bounds (Vehicle.accelerate v) (Some d) H1) as H2.
  assert (Hgap : Vehicle.follow (Vehicle.accelerate v) (Some d) <= d - 1
                 \/ (Vehicle.follow (Vehicle.accelerate v) (Some d) <= 0)
                 \/ (Vehicle.follow (Vehicle.accelerate v) (Some d)
                     <= d - (2 # 3))).
  { unfold Vehicle.follow, Vehicle.safe_distance in *.
    revert H2. qcase; intro H2.
    - minmax; lra.
    - revert H H2. minmax; intros; lra. }
  destruct (brake_bounds (deceleration v) (Vehicle.accelerate v)
              (Vehicle.follow (Vehicle.accelerate v) (Some d))
              light_state light_dist Hd (proj1 H2)) as [s3 [E3 H3]].
  pose proof (fluctuate_bounds s3 r (proj1 H3)) as H4.
  unfold Vehicle.update_speed. rewrite E3.
  eexists; split; [reflexivity|]. simpl.
  destruct (Q.min_spec d (2 # 3)) as [[Hm Em] | [Hm Em]]; rewrite Em;
    split; lra.
Qed.

Lemma stays_behind_witness :
  exists v',
    Vehicle.update_speed slow_vehicle (Some (9 # 4)) green 100 0.5 = Some v'
    /\ speed v' < 9 # 4
    /\ Qmin (9 # 4) (2 # 3) <= (9 # 4) - speed v'.
Proof.
  apply (stays_behind slow_vehicle (9 # 4) green 100 0.5);
    vm_compute; congruence.
Defined.

(** ** The draft of [test3.py] *)

(** X21: for a light whose yellow and red durations are positive, the
    [update] of the draft (three separate tests) does what the [update] of
    [main.py] (an if/elif chain) does. *)
Theorem draft_update_agrees (self : Draft.Light) :
  (0 < yellow_duration (Draft.light self))%Z ->
  (0 < red_duration (Draft.light self))%Z ->
  Draft.light (Draft.light_update self)
  = TrafficLight.update (Draft.light self)
  /\ Draft.green_ratio (Draft.light_update self) = Draft.green_ratio self.
Proof.
  destruct self as [ratio [c g y r st t]]. simpl. intros Hy Hr.
  split; [|reflexivity].
  unfold Draft.light_update, TrafficLight.update, TrafficLight.tick,
    TrafficLight.switch. simpl.
  destruct st; simpl.
  - destruct (Z.leb_spec g (t + 1)); simpl; [|reflexivity].
    destruct (Z.leb_spec y 0); [lia | reflexivity].
  - destruct (Z.leb_spec y (t + 1)); simpl; [|reflexivity].
    destruct (Z.leb_spec r 0); [lia | reflexivity].
  - destruct (Z.leb_spec r (t + 1)); reflexivity.
Qed.

Lemma draft_update_agrees_witness :
  Draft.light (Draft.light_update (Draft.light_init 60 0.5))
  = TrafficLight.update (Draft.light (Draft.light_init 60 0.5))
  /\ Draft.green_ratio (Draft.light_update (Draft.light_init 60 0.5))
     = Draft.green_ratio (Draft.light_init 60 0.5).
Proof.
  apply (draft_update_agrees (Draft.light_init 60 0.5));
    vm_compute; reflexivity.
Defined.

(** X22: when the red duration is zero or negative, the draft [update]
    takes a yellow light whose time is up straight to green with timer 0,
    in one call, where the [update] of [main.py] makes it red. *)
Theorem draft_update_skips_red (self : Draft.Light) :
  state (Draft.light self) = yellow ->
  (yellow_duration (Draft.light self) <= timer (Draft.light self) + 1)%Z ->
  (red_duration (Draft.light self) <= 0)%Z ->
  Draft.light (Draft.light_update self)
  = at_phase (Draft.light self) green 0
  /\ TrafficLight.update (Draft.light self)
     = at_phase (Draft.light self) red 0.
Proof.
  destruct self as [ratio [c g y r st t]]. simpl. intros -> Hy Hr.
  unfold Draft.light_update, TrafficLight.update, TrafficLight.tick,
    TrafficLight.switch, at_phase. simpl.
  destruct (Z.leb_spec y (t + 1)); [|lia]. simpl.
  destruct (Z.leb_spec r 0); [|lia].
  split; reflexivity.
Qed.

Lemma draft_update_skips_red_witness :
  let self :=
    Draft.mkLight 1 (TrafficLight.updates 62 (TrafficLight.init 60 1)) in
  Draft.light (Draft.light_update self)
  = at_phase (Draft.light self) green 0
  /\ TrafficLight.update (Draft.light self)
     = at_phase (Draft.light self) red 0.
Proof.
  apply (draft_update_skips_red
           (Draft.mkLight 1
              (TrafficLight.updates 62 (TrafficLight.init 60 1))));
    vm_compute; congruence.
Defined.

(** X23: for a vehicle with positive deceleration whose speed lies in
    [0, max_speed], the draft [update_speed] returns a vehicle whose speed
    lies in [0, max_speed]; on a green light without a vehicle ahead that
    speed is max_speed after a single call, whatever the acceleration. *)
Theorem draft_speed_jumps (v : Vehicle) (front : option Q)
    (light_state : LightState) (light_dist : Q) :
  0 < deceleration v -> 0 <= speed v <= max_speed v ->
  (exists v',
      Draft.update_speed v front light_state light_dist = Some v'
      /\ 0 <= speed v' <= max_speed v')
  /\ (exists v',
        Draft.update_speed v None green light_dist = Some v'
        /\ speed v' == max_speed v).
Proof.
  intros Hd Hs.
  assert (H1 : Draft.accelerate v == max_speed v).
  { unfold Draft.accelerate. qcase; [|lra]. minmax; lra. }
  split.
  - assert (H2 : 0 <= Draft.follow (Draft.accelerate v) front
                 <= Draft.accelerate v).
    { unfold Draft.follow. destruct front as [d|]; [|lra].
      qcase; [|lra]. minmax; lra. }
    unfold Draft.update_speed, Draft.brake.
    assert (Hz : Qeq_bool (2 * deceleration v) 0 = false).
    { destruct (Qeqb_spec (2 * deceleration v) 0); [lra | reflexivity]. }
    destruct light_state;
      try (eexists; split; [reflexivity|]; simpl; lra);
      (qcase; [| eexists; split; [reflexivity|]; simpl; lra]);
      rewrite Hz; (qcase; [| eexists; split; [reflexivity|]; simpl; lra]);
      eexists; (split; [reflexivity|]); simpl; minmax; lra.
  - unfold Draft.update_speed, Draft.brake, Draft.follow.
    eexists. split; [reflexivity|]. simpl. exact H1.
Qed.

Lemma draft_speed_jumps_witness :
  (exists v',
      Draft.update_speed fresh_vehicle (Some 3) red 1 = Some v'
      /\ 0 <= speed v' <= max_speed v')
  /\ (exists v',
        Draft.update_speed fresh_vehicle None green 1 = Some v'
        /\ speed v' == max_speed fresh_vehicle).
Proof.
  apply (draft_speed_jumps fresh_vehicle (Some 3) red 1);
    [vm_compute; reflexivity | split; vm_compute; congruence].
Defined.

Lemma reachable_exit_times (w : World) :
  reachable w ->
  Forall (fun v => exit_time v = None) (vehicles (sim w))
  /\ Forall (fun v => exit_time v <> None) (removed_vehicles (sim w)).
Proof.
  induction 1 as [next rl lw sr | env w w' Hw IH Hup].
  - simpl. split; constructor.
  - exact (update_exit_times _ _ _ Hup IH).
Qed.

(** ** Edge cases of the intersection *)

(** X24: the square tested by [is_in_intersection] contains its centre
    when intersection_size is not negative, and contains no point at all
    when it is negative. *)
Theorem intersection_square (self : Intersection) :
  (0 <= intersection_size self ->
   Intersection.is_in_intersection self (intersection_center self) = true)
  /\ (intersection_size self < 0 ->
      forall pos, Intersection.is_in_intersection self pos = false).
Proof.
  unfold Intersection.is_in_intersection.
  destruct (intersection_center self) as [cx cy]. split.
  - intro H.
    assert (E : forall a b, a <= b -> Qle_bool a b = true)
      by (intros; now apply Qle_bool_iff).
    rewrite !E by lra. reflexivity.
  - intros H [x y].
    destruct (Qle_bool (cx - intersection_size self) x) eqn:E1;
      [|reflexivity].
    destruct (Qle_bool x (cx + intersection_size self)) eqn:E2;
      [|reflexivity].
    apply Qle_bool_iff in E1. apply Qle_bool_iff in E2. lra.
Qed.

Lemma intersection_square_witness :
  Intersection.is_in_intersection (sim empty_world)
    (intersection_center (sim empty_world)) = true.
Proof.
  apply (proj1 (intersection_square (sim empty_world))).
  vm_compute; congruence.
Defined.

(** X25: a call of [update] on an intersection without active vehicles,
    in a tick without spawn, returns; it leaves the vehicle lists, the
    counters and the means as they are and appends the sample 0 to the
    queue of every direction. *)
Theorem idle_tick (env : TickEnv) (w : World) :
  vehicles (sim w) = [] ->
  spawn_rate (sim w) <= spawn_draw env ->
  exists w',
    Intersection.update env w = Some w'
    /\ vehicles (sim w') = []
    /\ removed_vehicles (sim w') = removed_vehicles (sim w)
    /\ Vehicle_next_id w' = Vehicle_next_id w
    /\ total_vehicles (stats (sim w')) = total_vehicles (stats (sim w))
    /\ throughput (stats (sim w')) = throughput (stats (sim w))
    /\ avg_travel_time (stats (sim w')) = avg_travel_time (stats (sim w))
    /\ avg_wait_time (stats (sim w')) = avg_wait_time (stats (sim w))
    /\ forall d,
        queue_lengths (stats (sim w')) d
        = queue_lengths (stats (sim w)) d ++ [0%Z].
Proof.
  intros Hv Hdraw.
  unfold Intersection.update, Intersection.spawned,
    Intersection.spawn_vehicle. simpl.
  destruct (Qltb_spec (spawn_draw env) (spawn_rate (sim w))); [lra|].
  unfold Intersection.update_vehicles. simpl. rewrite Hv. simpl.
  unfold Intersection._record_queue_lengths. simpl. rewrite Hv. simpl.
  eexists. split; [reflexivity|]. simpl. repeat split; auto.
Qed.

Lemma idle_tick_witness :
  exists w',
    Intersection.update (quiet_tick 0) empty_world = Some w'
    /\ vehicles (sim w') = []
    /\ removed_vehicles (sim w') = removed_vehicles (sim empty_world)
    /\ Vehicle_next_id w' = Vehicle_next_id empty_world
    /\ total_vehicles (stats (sim w'))
       = total_vehicles (stats (sim empty_world))
    /\ throughput (stats (sim w')) = throughput (stats (sim empty_world))
    /\ avg_travel_time (stats (sim w'))
       = avg_travel_time (stats (sim empty_world))
    /\ avg_wait_time (stats (sim w'))
       = avg_wait_time (stats (sim empty_world))
    /\ forall d,
        queue_lengths (stats (sim w')) d
        = queue_lengths (stats (sim empty_world)) d ++ [0%Z].
Proof.
  apply (idle_tick (quiet_tick 0) empty_world).
  - reflexivity.
  - vm_compute; congruence.
Defined.

(** X26: in every world that a run reaches, the list of travel times that
    [plot_metrics] draws has one entry for every removed vehicle, those
    removed after a collision included, so it has at least as many entries
    as the throughput counts; the list of directions it draws never has
    more entries than that. *)
Theorem travel_times_cover_removed (w : World) :
  reachable w ->
  length (travel_times (sim w)) = length (removed_vehicles (sim w))
  /\ (throughput (stats (sim w))
      <= Z.of_nat (length (travel_times (sim w))))%Z
  /\ (length (throughput_data (sim w))
      <= length (travel_times (sim w)))%nat.
Proof.
  intro H.
  destruct (reachable_conserved w H) as [_ [_ Hthr]].
  destruct (reachable_exit_times w H) as [_ Hrem].
  unfold travel_times, throughput_data.
  assert (Hlen : length
                   (flat_map (fun v => match exit_time v with
                                       | Some t => [t - entry_time v]
                                       | None => []
                                       end) (removed_vehicles (sim w)))
                 = length (removed_vehicles (sim w))
                 /\ (length
                       (flat_map
                          (fun v => match exit_time v with
                                    | Some t =>
                                        if Qeq_bool t 0 then []
                                        else [direction v]
                                    | None => []
                                    end) (removed_vehicles (sim w)))
                     <= length (removed_vehicles (sim w)))%nat).
  { clear - Hrem.
    induction Hrem as [|v rest Hv Hrest IH]; simpl; [lia|].
    destruct IH as [IH1 IH2].
    destruct (exit_time v) as [t|]; [|congruence].
    destruct (Qeq_bool t 0); simpl; lia. }
  destruct Hlen as [H1 H2]. rewrite H1. split; [reflexivity|].
  split; [lia | exact H2].
Qed.

Lemma travel_times_cover_removed_witness :
  exists w1,
    Intersection.update spawn_tick empty_world = Some w1
    /\ length (travel_times (sim w1)) = length (removed_vehicles (sim w1))
    /\ (throughput (stats (sim w1))
        <= Z.of_nat (length (travel_times (sim w1))))%Z
    /\ (length (throughput_data (sim w1))
        <= length (travel_times (sim w1)))%nat.
Proof.
  eexists. split; [vm_compute; reflexivity|].
  apply travel_times_cover_removed.
  apply (reachable_update spawn_tick empty_world);
    [apply reachable_init | vm_compute; reflexivity].
Defined.


(** The constructor gives the four directions the same lane
    boundaries, road_length // 2 - lane_width // 2 and road_length // 2 +
    lane_width // 2, and for a lane width that is not negative the lower
    one does not exceed the upper one (so that spawned vehicles are placed
    between them). *)
Theorem init_boundaries (rl lw sr : Q) (d : Direction) :
  0 <= lw ->
  let self := Intersection.init rl lw sr in
  road_boundaries self d
  = (floordiv2 rl - floordiv2 lw, floordiv2 rl + floordiv2 lw)
  /\ fst (road_boundaries self d) <= snd (road_boundaries self d)
  /\ intersection_center self = (floordiv2 rl, floordiv2 rl).
Proof.
  intro Hlw. cbv zeta. simpl. split; [reflexivity|].
  split; [|reflexivity].
  assert (H : 0 <= floordiv2 lw).
  { unfold floordiv2. change 0 with (inject_Z 0). rewrite <- Zle_Qle.
    change 0%Z with (Qfloor 0). apply Qfloor_resp_le.
    apply Qle_shift_div_l; lra. }
  lra.
Qed.

Lemma init_boundaries_witness :
  road_boundaries (Intersection.init 200 15 0.5) west
  = (floordiv2 200 - floordiv2 15, floordiv2 200 + floordiv2 15)
  /\ fst (road_boundaries (Intersection.init 200 15 0.5) west)
     <= snd (road_boundaries (Intersection.init 200 15 0.5) west)
  /\ intersection_center (Intersection.init 200 15 0.5)
     = (floordiv2 200, floordiv2 200).
Proof.
  apply (init_boundaries 200 15 0.5 west). vm_compute; congruence.
Defined.

Lemma floordiv2_nonneg (a : Q) : 0 <= a -> 0 <= floordiv2 a.
Proof.
  intro H. unfold floordiv2. change 0 with (inject_Z 0). rewrite <- Zle_Qle.
  change 0%Z with (Qfloor 0). apply Qfloor_resp_le.
  apply Qle_shift_div_l; lra.
Qed.

(** X27: in every world that a run reaches, the derived fields of the
    intersection agree with its stored configuration: every direction has
    the lane boundaries road_length // 2 -+ lane_width // 2, the centre is
    (road_length // 2, road_length // 2) and intersection_size is 1.5 *
    lane_width; for a lane width that is not negative the lower boundary
    does not exceed the upper one. *)
Theorem boundaries_in_run (w : World) (d : Direction) :
  reachable w ->
  road_boundaries (sim w) d
  = (floordiv2 (road_length (sim w)) - floordiv2 (lane_width (sim w)),
     floordiv2 (road_length (sim w)) + floordiv2 (lane_width (sim w)))
  /\ intersection_center (sim w)
     = (floordiv2 (road_length (sim w)), floordiv2 (road_length (sim w)))
  /\ intersection_size (sim w) = lane_width (sim w) * 1.5
  /\ (0 <= lane_width (sim w) ->
      fst (road_boundaries (sim w) d) <= snd (road_boundaries (sim w) d)).
Proof.
  intro H.
  assert (Hinv : road_boundaries (sim w) d
                 = (floordiv2 (road_length (sim w))
                    - floordiv2 (lane_width (sim w)),
                    floordiv2 (road_length (sim w))
                    + floordiv2 (lane_width (sim w)))
                 /\ intersection_center (sim w)
                    = (floordiv2 (road_length (sim w)),
                       floordiv2 (road_length (sim w)))
                 /\ intersection_size (sim w) = lane_width (sim w) * 1.5).
  { induction H as [next rl lw sr | env w w' Hw IH Hup].
    - simpl. repeat split; reflexivity.
    - destruct (update_setup _ _ _ Hup)
        as [_ [_ [E1 [E2 [_ [E3 [E4 E5]]]]]]].
      rewrite E1, E2, E3, E4, E5. exact IH. }
  destruct Hinv as [Hb [Hc Hs]]. repeat (split; [assumption|]).
  intro Hlw. rewrite Hb. simpl.
  pose proof (floordiv2_nonneg _ Hlw). lra.
Qed.

Lemma boundaries_in_run_witness :
  exists w1,
    Intersection.update spawn_tick empty_world = Some w1
    /\ road_boundaries (sim w1) west
       = (floordiv2 (road_length (sim w1)) - floordiv2 (lane_width (sim w1)),
          floordiv2 (road_length (sim w1)) + floordiv2 (lane_width (sim w1)))
    /\ intersection_center (sim w1)
       = (floordiv2 (road_length (sim w1)), floordiv2 (road_length (sim w1)))
    /\ intersection_size (sim w1) = lane_width (sim w1) * 1.5
    /\ (0 <= lane_width (sim w1) ->
        fst (road_boundaries (sim w1) west)
        <= snd (road_boundaries (sim w1) west)).
Proof.
  eexists. split; [vm_compute; reflexivity|].
  apply boundaries_in_run.
  apply (reachable_update spawn_tick empty_world);
    [apply reachable_init | vm_compute; reflexivity].
Defined.

(** X28: for a placed vehicle, [check_exit] returns [True] exactly when
    the distance returned by [get_distance_to_light] is below
    -(road_length // 2), whatever the direction: a vehicle leaves when it
    is more than road_length // 2 past its light. *)
Theorem exit_iff_past_light (self : Intersection) (v : Vehicle) (x y : Q) :
  position v = Some (x, y) ->
  exists out dist,
    Intersection.check_exit self v = Some out
    /\ Intersection.get_distance_to_light self v = Some dist
    /\ (out = true <-> dist < - floordiv2 (road_length self)).
Proof.
  intro Hp. unfold Intersection.check_exit,
    Intersection.get_distance_to_light. rewrite Hp.
  eexists; eexists. split; [reflexivity|]. split; [reflexivity|].
  destruct (direction v); qcase; split; intro; try discriminate;
    try reflexivity; lra.
Qed.

Lemma exit_iff_past_light_witness :
  exists out dist,
    Intersection.check_exit (sim three_leaving) (cruising 0 199) = Some out
    /\ Intersection.get_distance_to_light (sim three_leaving)
         (cruising 0 199) = Some dist
    /\ (out = true <-> dist < - floordiv2 (road_length (sim three_leaving))).
Proof.
  apply (exit_iff_past_light (sim three_leaving) (cruising 0 199) 100 199).
  reflexivity.
Defined.

(** X29: a call of [update] that returns spawns at most one vehicle
    (total_vehicles and Vehicle.next_id grow by the same amount, 0 or 1,
    and the active list grows by at most one), never lowers the
    throughput, raises it by at most the number of vehicles removed in the
    call, and only appends to removed_vehicles. *)
Theorem update_monotone (env : TickEnv) (w w' : World) :
  Intersection.update env w = Some w' ->
  exists spawned_now gone,
    (spawned_now = 0%Z \/ spawned_now = 1%Z)
    /\ total_vehicles (stats (sim w'))
       = (total_vehicles (stats (sim w)) + spawned_now)%Z
    /\ Vehicle_next_id w' = (Vehicle_next_id w + spawned_now)%Z
    /\ removed_vehicles (sim w') = removed_vehicles (sim w) ++ gone
    /\ (Z.of_nat (length (vehicles (sim w'))) + Z.of_nat (length gone)
        = Z.of_nat (length (vehicles (sim w))) + spawned_now)%Z
    /\ (throughput (stats (sim w)) <= throughput (stats (sim w'))
        <= throughput (stats (sim w)) + Z.of_nat (length gone))%Z.
Proof.
  intro Hup.
  pose proof (update_next_id _ _ _ Hup) as Hid.
  destruct (update_stages _ _ _ Hup)
    as [self [tr [self2 [self3 [Hloop [Hrem [Hrec <-]]]]]]].
  destruct (spawned_spec env w) as [_ [Erem [Ethr [_ Hspawn]]]].
  simpl in Erem, Ethr, Hspawn.
  pose proof (spawned_ids env w) as Hids. cbv zeta in Hids.
  destruct (update_vehicles_frame _ _ _ _ Hloop)
    as [Hlen [_ [Hremoved [Htotal [_ [_ [Hnodup Hthr]]]]]]].
  pose proof (descending_sorted_reverse _ Hnodup) as Hdesc.
  destruct (remove_vehicles_spec _ _ _ Hdesc Hrem)
    as [[Hst _] [Hlen2 [_ [_ [gone Hgone]]]]].
  rewrite length_sorted_reverse in Hlen2.
  pose proof (Permutation_length (remove_vehicles_perm _ _ _ Hrem)) as Hperm.
  rewrite !length_app, Hgone, length_app in Hperm.
  destruct (record_queue_lengths_spec _ _ Hrec)
    as [Hv [Hr [_ [Ht3 [Htot3 _]]]]].
  rewrite Hv, Hr, Ht3, Htot3, Hst, Htotal, Hgone, Hremoved, Erem, Hid.
  destruct Hspawn as [[Ev Et] | [v [Ev [_ Et]]]];
    destruct Hids as [[Ev' En] | [v' [Ev' [_ [_ En]]]]].
  - exists 0%Z, gone. rewrite Et, En, Ev in *.
    repeat split; auto; lia.
  - exfalso. rewrite Ev in Ev'.
    apply (f_equal (@length Vehicle)) in Ev'.
    rewrite length_app in Ev'. simpl in Ev'. lia.
  - exfalso. rewrite Ev' in Ev.
    apply (f_equal (@length Vehicle)) in Ev.
    rewrite length_app in Ev. simpl in Ev. lia.
  - exists 1%Z, gone. rewrite Et, En, Ev, length_app in *. simpl in *.
    repeat split; auto; lia.
Qed.

Lemma update_monotone_witness :
  exists w' spawned_now gone,
    Intersection.update spawn_tick empty_world = Some w'
    /\ (spawned_now = 0%Z \/ spawned_now = 1%Z)
    /\ total_vehicles (stats (sim w'))
       = (total_vehicles (stats (sim empty_world)) + spawned_now)%Z
    /\ Vehicle_next_id w' = (Vehicle_next_id empty_world + spawned_now)%Z
    /\ removed_vehicles (sim w')
       = removed_vehicles (sim empty_world) ++ gone
    /\ (Z.of_nat (length (vehicles (sim w'))) + Z.of_nat (length gone)
        = Z.of_nat (length (vehicles (sim empty_world))) + spawned_now)%Z
    /\ (throughput (stats (sim empty_world)) <= throughput (stats (sim w'))
        <= throughput (stats (sim empty_world)) + Z.of_nat (length gone))%Z.
Proof.
  eexists.
  assert (E : Intersection.update spawn_tick empty_world
              = Some
                  (match Intersection.update spawn_tick empty_world with
                   | Some w' => w'
                   | None => empty_world
                   end)) by (vm_compute; reflexivity).
  destruct (update_monotone spawn_tick empty_world _ E)
    as [spawned_now [gone H]].
  exists spawned_now, gone. split; [exact E | exact H].
Defined.

(** ** Whole speeds *)

Lemma whole_Z (n : Z) : is_whole (inject_Z n).
Proof. exists n. reflexivity. Qed.

Lemma whole_eq (a b : Q) : a == b -> is_whole a -> is_whole b.
Proof. intros E [n H]. exists n. rewrite <- E. exact H. Qed.

Lemma whole_plus (a b : Q) : is_whole a -> is_whole b -> is_whole (a + b).
Proof.
  intros [n Hn] [m Hm]. exists (n + m)%Z.
  rewrite inject_Z_plus, Hn, Hm. reflexivity.
Qed.

Lemma whole_minus (a b : Q) : is_whole a -> is_whole b -> is_whole (a - b).
Proof.
  intros [n Hn] [m Hm]. exists (n - m)%Z.
  unfold Z.sub. rewrite inject_Z_plus, inject_Z_opp, Hn, Hm. reflexivity.
Qed.

Lemma whole_min (a b : Q) : is_whole a -> is_whole b -> is_whole (py_min a b).
Proof. intros Ha Hb. unfold py_min. destruct (Qltb b a); assumption. Qed.

Lemma whole_max (a b : Q) : is_whole a -> is_whole b -> is_whole (py_max a b).
Proof. intros Ha Hb. unfold py_max. destruct (Qltb a b); assumption. Qed.

Lemma whole_update_speed (v v' : Vehicle) (front : option Q)
    (light_state : LightState) (light_dist r : Q) :
  max_speed v = 5 -> acceleration v = 1 -> deceleration v = 2 ->
  is_whole (speed v) ->
  (forall d, front = Some d -> is_whole d) ->
  Vehicle.update_speed v front light_state light_dist r = Some v' ->
  is_whole (speed v').
Proof.
  intros Hm Ha Hd Hs Hf.
  assert (W0 : is_whole 0) by exact (whole_Z 0).
  assert (W1 : is_whole 1) by exact (whole_Z 1).
  assert (W2 : is_whole 2) by exact (whole_Z 2).
  assert (W5 : is_whole 5) by exact (whole_Z 5).
  assert (H1 : is_whole (Vehicle.accelerate v)).
  { unfold Vehicle.accelerate. rewrite Hm, Ha.
    destruct (Qltb (speed v) 5); [|exact Hs].
    apply whole_min; [apply whole_plus|]; assumption. }
  assert (H2 : is_whole (Vehicle.follow (Vehicle.accelerate v) front)).
  { unfold Vehicle.follow. destruct front as [d|]; [|exact H1].
    destruct (Qltb d _); [|exact H1].
    apply whole_max; [assumption|]. apply whole_min; [assumption|].
    apply whole_minus; [apply Hf; reflexivity | assumption]. }
  unfold Vehicle.update_speed.
  destruct (Vehicle.brake _ _ _ _ _) as [s3|] eqn:E3; [|discriminate].
  intro H; injection H as <-. simpl.
  assert (H3 : is_whole s3).
  { unfold Vehicle.brake in E3. rewrite Hd in E3.
    destruct light_state;
      repeat match type of E3 with
             | context [if ?c then _ else _] => destruct c
             end;
      try discriminate; injection E3 as <-;
      first [ exact H2
            | apply whole_max; [assumption|];
              apply whole_minus; assumption ]. }
  unfold Vehicle.fluctuate. destruct (_ && _); [|exact H3].
  apply whole_max; [assumption|]. apply whole_minus; assumption.
Qed.

Lemma gap_travelled (rl : Q) (v o : Vehicle) (m tv to : Q) :
  direction o = direction v ->
  travelled rl v = Some tv -> travelled rl o = Some to ->
  gap v o = Some m -> m == to - tv.
Proof.
  unfold travelled, gap. intros Hd.
  destruct (position v) as [[vx vy]|]; [|discriminate].
  destruct (position o) as [[ox oy]|]; [|discriminate].
  rewrite Hd. intros Hv Ho Hm.
  injection Hv as <-. injection Ho as <-. injection Hm as <-.
  destruct (direction v); ring.
Qed.

Lemma travelled_move (rl : Q) (v : Vehicle) (now t : Q) :
  travelled rl v = Some t ->
  exists t', travelled rl (Vehicle.move v now) = Some t'
             /\ t' == t + speed v.
Proof.
  unfold travelled, Vehicle.move.
  destruct (position v) as [[x y]|]; [|discriminate].
  intro H; injection H as <-.
  destruct (direction v) eqn:Ed; simpl;
    destruct (Qeq_bool (speed v) 0); simpl; rewrite ?Ed;
    eexists; (split; [reflexivity | ring]).
Qed.

Lemma standard_move (rl : Q) (v : Vehicle) (now : Q) :
  standard_vehicle rl v -> standard_vehicle rl (Vehicle.move v now).
Proof.
  intros [Hm [Ha [Hd [Hw [Hb [t [Ht Hwt]]]]]]].
  destruct (move_speed v now) as [E1 [E2 [E3 E4]]].
  destruct (travelled_move rl v now t Ht) as [t' [Ht' Et']].
  unfold standard_vehicle. rewrite E1, E2, E3, E4.
  repeat (split; [assumption|]).
  exists t'. split; [exact Ht'|].
  apply (whole_eq (t + speed v)); [now symmetry|].
  now apply whole_plus.
Qed.

Lemma standard_set_exit_time (rl : Q) (v : Vehicle) (t : option Q) :
  standard_vehicle rl v -> standard_vehicle rl (Vehicle.set_exit_time v t).
Proof. unfold standard_vehicle, travelled; simpl; auto. Qed.

Lemma update_vehicle_result (env : TickEnv) (i : nat)
    (s s' : Intersection) (t t' : list nat) :
  Intersection.update_vehicle env i (s, t) = Some (s', t') ->
  exists vehicle front light_dist sped final,
    nth_error (vehicles s) i = Some vehicle
    /\ Intersection.get_front_vehicle_distance s vehicle = Some front
    /\ Vehicle.update_speed vehicle front
         (Intersection.get_light_state s (direction vehicle)) light_dist
         (noise_draw env i) = Some sped
    /\ (final = Vehicle.move sped (move_clock env i)
        \/ final
           = Vehicle.set_exit_time (Vehicle.move sped (move_clock env i))
               (Some (exit_clock env i)))
    /\ vehicles s' = list_set i final (vehicles s)
    /\ road_length s' = road_length s.
Proof.
  unfold Intersection.update_vehicle.
  destruct (nth_error (vehicles s) i) as [vehicle|] eqn:En;
    [|discriminate].
  destruct (Intersection.get_distance_to_light s vehicle)
    as [light_dist|]; [|discriminate].
  destruct (Intersection.get_front_vehicle_distance s vehicle)
    as [front|] eqn:Ef; [|discriminate].
  destruct (Vehicle.update_speed vehicle front _ light_dist _)
    as [sped|] eqn:Es; [|discriminate].
  intro H. exists vehicle, front, light_dist, sped.
  cbv zeta in H.
  destruct (Intersection.check_collision _ _) as [[|]|]; [| |discriminate].
  - injection H as <- <-. eexists.
    split; [reflexivity|]. split; [exact Ef|]. split; [exact Es|].
    split; [right; reflexivity|]. simpl.
    split; [apply list_set_twice | reflexivity].
  - destruct (Intersection.check_exit _ _) as [[|]|]; [| |discriminate].
    + destruct (Intersection.record_exit _ _ _) as [st'|]; [|discriminate].
      injection H as <- <-. eexists.
      split; [reflexivity|]. split; [exact Ef|]. split; [exact Es|].
      split; [right; reflexivity|]. simpl.
      split; [apply list_set_twice | reflexivity].
    + injection H as <- <-. eexists.
      split; [reflexivity|]. split; [exact Ef|]. split; [exact Es|].
      split; [left; reflexivity|]. simpl. split; reflexivity.
Qed.

Lemma front_whole (rl : Q) (s : Intersection) (vehicle : Vehicle)
    (front : option Q) :
  Forall (standard_vehicle rl) (vehicles s) ->
  standard_vehicle rl vehicle ->
  Intersection.get_front_vehicle_distance s vehicle = Some front ->
  forall d, front = Some d -> is_whole d.
Proof.
  intros Hall Hv Hf d ->.
  unfold Intersection.get_front_vehicle_distance in Hf.
  destruct (front_scan_spec _ _ _ _ Hf) as [_ Hsome].
  destruct (Hsome d eq_refl) as [_ [_ [Habs | [other [Hin Hah]]]]];
    [discriminate|].
  rewrite Forall_forall in Hall. specialize (Hall other Hin).
  destruct Hall as [_ [_ [_ [_ [_ [to [Hto Wto]]]]]]].
  destruct Hv as [_ [_ [_ [_ [_ [tv [Htv Wtv]]]]]]].
  destruct Hah as [_ [Hdir [Hgap _]]].
  apply (whole_eq (to - tv)).
  - symmetry. exact (gap_travelled rl vehicle other d tv to Hdir Htv Hto Hgap).
  - now apply whole_minus.
Qed.

Lemma standard_update_speed (rl : Q) (v v' : Vehicle) (front : option Q)
    (light_state : LightState) (light_dist r : Q) :
  standard_vehicle rl v ->
  (forall d, front = Some d -> is_whole d) ->
  Vehicle.update_speed v front light_state light_dist r = Some v' ->
  standard_vehicle rl v'.
Proof.
  intros [Hm [Ha [Hd [Hw [Hb [t [Ht Hwt]]]]]]] Hf E.
  destruct (update_speed_fields _ _ _ _ _ _ E)
    as [_ [Edir [Epos [Em [Eacc [Edec _]]]]]].
  pose proof (whole_update_speed _ _ _ _ _ _ Hm Ha Hd Hw Hf E) as Hw'.
  destruct (update_speed_bounds v front light_state light_dist r)
    as [v'' [E'' Hb'']]; [rewrite Ha; lra | rewrite Hd; lra
                          | rewrite Hm; exact Hb |].
  rewrite E in E''. injection E'' as <-.
  unfold standard_vehicle. rewrite Em, Eacc, Edec.
  repeat (split; [assumption|]).
  split; [rewrite Em, Hm in Hb''; exact Hb''|].
  exists t. split; [|exact Hwt].
  unfold travelled in *. rewrite Epos, Edir. exact Ht.
Qed.

Lemma update_vehicles_standard (env : TickEnv) (self self' : Intersection)
    (tr : list nat) :
  Forall (standard_vehicle (road_length self)) (vehicles self) ->
  Intersection.update_vehicles env self = Some (self', tr) ->
  Forall (standard_vehicle (road_length self)) (vehicles self').
Proof.
  intros Hall. unfold Intersection.update_vehicles. intro Hrun.
  pose (P := fun (i : nat) (st : Intersection * list nat) =>
    road_length (fst st) = road_length self
    /\ Forall (standard_vehicle (road_length self)) (vehicles (fst st))).
  assert (Hend : P (0 + length (vehicles self))%nat (self', tr)).
  { apply (for_each_seq_inv (Intersection.update_vehicle env) P
             (length (vehicles self)) 0%nat (self, []) (self', tr));
      [| split; [reflexivity | exact Hall] | exact Hrun].
    intros i [s t] [s' t'] _ [Hrl Hs] Hbody. simpl in Hrl, Hs.
    destruct (update_vehicle_result _ _ _ _ _ _ Hbody)
      as [vehicle [front [ld [sped [final
           [Hn [Hf [Hsp [Hfin [Hv' Hrl']]]]]]]]]].
    unfold P; simpl. split; [congruence|]. rewrite Hv'.
    assert (Hveh : standard_vehicle (road_length self) vehicle).
    { rewrite Forall_forall in Hs. apply Hs. eapply nth_error_In; eauto. }
    pose proof (front_whole _ _ _ _ Hs Hveh Hf) as Hfw.
    pose proof (standard_update_speed _ _ _ _ _ _ _ Hveh Hfw Hsp) as Hsped.
    pose proof (standard_move _ _ (move_clock env i) Hsped) as Hmoved.
    apply Forall_list_set; [exact Hs|].
    destruct Hfin as [-> | ->]; [exact Hmoved|].
    now apply standard_set_exit_time. }
  apply Hend.
Qed.

Lemma update_standard (env : TickEnv) (w w' : World) :
  Intersection.update env w = Some w' ->
  Forall (standard_vehicle (road_length (sim w))) (vehicles (sim w)) ->
  Forall (standard_vehicle (road_length (sim w'))) (vehicles (sim w')).
Proof.
  intros Hup Hall.
  destruct (update_setup _ _ _ Hup) as [_ [_ [Erl _]]]. rewrite Erl.
  destruct (update_stages _ _ _ Hup)
    as [self [tr [self2 [self3 [Hloop [Hrem [Hrec <-]]]]]]].
  destruct (spawned_spec env w) as [Erl1 _]. simpl in Erl1.
  assert (Hall1 : Forall
                    (standard_vehicle
                       (road_length (sim (Intersection.spawned env w))))
                    (vehicles (sim (Intersection.spawned env w)))).
  { rewrite Erl1. clear - Hall.
    unfold Intersection.spawned, Intersection.spawn_vehicle. simpl.
    destruct (Qltb (spawn_draw env) (spawn_rate (sim w))); simpl;
      [|exact Hall].
    apply Forall_app. split; [exact Hall|]. constructor; [|constructor].
    unfold standard_vehicle, travelled. simpl.
    repeat (split; [reflexivity|]).
    split; [exists 0%Z; reflexivity|]. split; [lra|].
    destruct (choice_draw env); simpl; eexists; (split; [reflexivity|]);
      exists 0%Z; ring. }
  pose proof (update_vehicles_standard _ _ _ _ Hall1 Hloop) as Hall2.
  rewrite Erl1 in Hall2.
  destruct (update_vehicles_frame _ _ _ _ Hloop)
    as [_ [_ [_ [_ [_ [_ [Hnodup _]]]]]]].
  destruct (remove_vehicles_spec _ _ _
              (descending_sorted_reverse _ Hnodup) Hrem)
    as [_ [_ [Hkept _]]].
  destruct (record_queue_lengths_spec _ _ Hrec) as [Hv _].
  rewrite Hv. apply Forall_forall. intros u Hu.
  destruct (Hkept u Hu) as [k [_ Hk]].
  rewrite Forall_forall in Hall2. apply Hall2.
  eapply nth_error_In; eauto.
Qed.

(** X30: in every world that a run reaches, every active vehicle has the
    default constants (max_speed 5, acceleration 1, deceleration 2), a
    speed that is a whole number between 0 and 5, and has covered a whole
    number of units from its entry edge; hence the front distances that
    [update] passes to [update_speed] are whole numbers. *)
Theorem whole_speeds (w : World) :
  reachable w ->
  Forall (standard_vehicle (road_length (sim w))) (vehicles (sim w)).
Proof.
  induction 1 as [next rl lw sr | env w w' Hw IH Hup].
  - simpl. constructor.
  - exact (update_standard _ _ _ Hup IH).
Qed.

Lemma whole_speeds_witness :
  exists w1,
    Intersection.update spawn_tick empty_world = Some w1
    /\ Forall (standard_vehicle (road_length (sim w1))) (vehicles (sim w1)).
Proof.
  eexists. split; [vm_compute; reflexivity|].
  apply whole_speeds.
  apply (reachable_update spawn_tick empty_world);
    [apply reachable_init | vm_compute; reflexivity].
Defined.
